(** * kakeibo: the data pipeline of the household-account dashboard (money.py)

    A shallow embedding of the table transformations of [money.py]:
    [load_data] (date parsing, year-month key, amount coercion), the
    month selector and filter, the summary totals, the per-category
    reconciliation ([summary], [make_label]) with the colours and the
    axis of its chart, the monthly trend pivot ([monthly_summary]) and
    the detail table.

    Conventions of the embedding.
    - A Python [str] is a sequence of Unicode code points: [list N].
    - A cell read from the sheet is [option pystr]; [None] is the missing
      value (NaN / NaT) that the CSV reader produces for an empty cell.
    - Numbers are exact rationals [Q].  The amount columns of the script
      are float64: on whole numbers whose absolute values add up to
      less than 2^53 its arithmetic is exact and agrees with [Q];
      elsewhere it rounds.  The reconciliation is therefore also given over any
      arithmetic and run with the float64 operations where rounding
      matters.  Non-finite values are outside the model.
    - Errors raised through [load_data] are an explicit [result] type. *)

From Stdlib Require Import ZArith NArith QArith Qround List Bool Ascii String.
From Stdlib Require Import Permutation Sorted Lia Morphisms.
From Stdlib Require Import SpecFloat.
From AAC_tactics Require Import AAC.
Import ListNotations.

Set Implicit Arguments.
Local Open Scope Q_scope.

(* ================================================================== *)
(** * Part I: definitions *)
(* ================================================================== *)

(** ** Python strings as code-point sequences *)

Definition pystr : Type := list N.

(** A missing cell is [None]. *)
Definition cell : Type := option pystr.

(** ASCII literal to code points. *)
Definition py (s : string) : pystr :=
  List.map N_of_ascii (list_ascii_of_string s).

Definition YEN : N := 165%N.        (* U+00A5 *)
Definition COMMA : N := 44%N.       (* U+002C *)
Definition MINUS : N := 45%N.
Definition PLUS : N := 43%N.
Definition DOT : N := 46%N.

(** The two flow labels compared against in the script. *)
Definition INCOME : pystr := [21454; 20837]%N.     (* U+53CE U+5165 *)
Definition EXPENSE : pystr := [25903; 20986]%N.    (* U+652F U+51FA *)

(** Python's [str] ordering: lexicographic on code points. *)
Fixpoint str_compare (a b : pystr) : comparison :=
  match a, b with
  | [], [] => Eq
  | [], _ :: _ => Lt
  | _ :: _, [] => Gt
  | x :: a', y :: b' =>
      match N.compare x y with
      | Eq => str_compare a' b'
      | c => c
      end
  end.

Definition str_eqb (a b : pystr) : bool :=
  match str_compare a b with Eq => true | _ => false end.

(** [cell == literal]: a missing cell compares unequal to every string. *)
Definition cell_eqb (c : cell) (s : pystr) : bool :=
  match c with
  | Some t => str_eqb t s
  | None => false
  end.

(** Ordering of the two-level group key (year-month, flow). *)
Definition pair_compare (a b : pystr * pystr) : comparison :=
  match str_compare (fst a) (fst b) with
  | Eq => str_compare (snd a) (snd b)
  | c => c
  end.

(** ** Amount coercion (money.py line 25)

    [df['金額'].astype(str).replace(r'[¥,]', '', regex=True)] followed by
    [pd.to_numeric(..., errors='coerce').fillna(0)]. *)

(** [astype(str)]: a missing value prints as the text [nan]. *)
Definition astype_str (c : cell) : pystr :=
  match c with
  | Some s => s
  | None => py "nan"
  end.

(** The character class of the regular expression. *)
Definition in_class (c : N) : bool := (c =? YEN)%N || (c =? COMMA)%N.

(** Regex replacement of every match of the class by the empty string. *)
Fixpoint replace_class (s : pystr) : pystr :=
  match s with
  | [] => []
  | c :: t => if in_class c then replace_class t else c :: replace_class t
  end.

(** The numeric reader behind [to_numeric] for one string: optional
    white space, optional sign, digits with an optional fraction (at least
    one digit in all), optional exponent, optional white space, end of
    input.  [None] is the NaN that [errors='coerce'] yields; the text
    [nan] reads as NaN too.  The spellings of infinity, which the library
    also accepts, denote non-finite values and are not modelled. *)

Definition is_space (c : N) : bool :=
  (c =? 32)%N || ((9 <=? c)%N && (c <=? 13)%N).

Definition is_digit (c : N) : bool := (48 <=? c)%N && (c <=? 57)%N.

Definition digit_val (c : N) : Z := Z.of_N c - 48.

Fixpoint skip_space (s : pystr) : pystr :=
  match s with
  | c :: t => if is_space c then skip_space t else s
  | [] => []
  end.

(** Reads a run of digits, accumulating the value and counting them. *)
Fixpoint read_digits (s : pystr) (acc : Z) (n : nat) : Z * nat * pystr :=
  match s with
  | c :: t =>
      if is_digit c then read_digits t (10 * acc + digit_val c) (S n)
      else (acc, n, s)
  | [] => (acc, n, [])
  end.

Definition read_sign (s : pystr) : bool * pystr :=
  match s with
  | c :: t =>
      if (c =? MINUS)%N then (true, t)
      else if (c =? PLUS)%N then (false, t)
      else (false, s)
  | [] => (false, [])
  end.

(** The fraction: after a dot the digits keep extending the mantissa, and
    their number lowers the decimal exponent. *)
Definition read_fraction (s : pystr) (acc : Z) : Z * nat * pystr :=
  match s with
  | c :: t => if (c =? DOT)%N then read_digits t acc 0 else (acc, 0%nat, s)
  | [] => (acc, 0%nat, [])
  end.

(** The exponent: [e] or [E], a sign, at least one digit. *)
Definition read_exponent (s : pystr) : option (Z * pystr) :=
  match s with
  | c :: t =>
      if ((c =? 101) || (c =? 69))%N then
        let '(neg, t1) := read_sign t in
        let '(e, n, t2) := read_digits t1 0 0 in
        match n with
        | O => None
        | S _ => Some (if neg then - e else e, t2)%Z
        end
      else Some (0%Z, s)
  | [] => Some (0%Z, [])
  end.

(** [m * 10 ^ e] as a reduced fraction. *)
Definition scale10 (m e : Z) : Q :=
  Qred (if (0 <=? e)%Z then inject_Z (m * 10 ^ e)
        else Qmake m (Z.to_pos (10 ^ (- e)))).

Definition to_numeric (s : pystr) : option Q :=
  let '(neg, s1) := read_sign (skip_space s) in
  let '(m1, n1, s2) := read_digits s1 0 0 in
  let '(m2, n2, s3) := read_fraction s2 m1 in
  match (n1 + n2)%nat with
  | O => None
  | S _ =>
      match read_exponent s3 with
      | None => None
      | Some (e, s4) =>
          match skip_space s4 with
          | [] =>
              let v := scale10 m2 (e - Z.of_nat n2) in
              Some (if neg then - v else v)
          | _ :: _ => None
          end
      end
  end.

(** [fillna(0)] on a scalar. *)
Definition fillna0 (v : option Q) : Q :=
  match v with
  | Some q => q
  | None => 0
  end.

(** The whole expression of line 25 on one cell. *)
Definition coerce_amount (c : cell) : Q :=
  fillna0 (to_numeric (replace_class (astype_str c))).

(** What line 25 is meant to do, in the words of its description: drop
    the currency sign and the thousands separators, read the rest as a
    decimal number, and take 0 when that fails. *)
Definition stripped (s : pystr) : pystr :=
  filter (fun c => negb (c =? YEN)%N && negb (c =? COMMA)%N) s.

Definition amount_of_text (c : cell) : Q :=
  match to_numeric (stripped (astype_str c)) with
  | Some q => q
  | None => 0
  end.


(** Whether the text starts with a digit or the decimal point, that is,
    with an unsigned decimal. *)
Definition starts_unsigned (s : pystr) : bool :=
  match s with
  | c :: _ => is_digit c || (c =? DOT)%N
  | [] => false
  end.

(** The value of a decimal numeral, independently of the reader: the
    digits [ip] before the point and [fp] after it. *)
Definition digits_value (ds : pystr) : Z :=
  fold_left (fun a c => (10 * a + digit_val c)%Z) ds 0%Z.

Definition decimal_value (ip fp : pystr) : Q :=
  inject_Z (digits_value (ip ++ fp))
  / inject_Z (10 ^ Z.of_nat (List.length fp)).

Definition decimal_text (ip fp : pystr) : pystr :=
  ip ++ match fp with
        | [] => []
        | _ :: _ => DOT :: fp
        end.

Definition all_digits (ds : pystr) : bool := forallb is_digit ds.

(** What an amount [v] owes to the text of its cell: it is the number
    read from the stripped text, exactly 0 when nothing can be read, and
    the decimal value when the stripped text is a plain numeral. *)
Definition coerced (text : cell) (v : Q) : Prop :=
  v = amount_of_text text
  /\ (to_numeric (stripped (astype_str text)) = None -> v = 0)
  /\ (forall ip fp,
         ip <> [] -> all_digits ip = true -> all_digits fp = true ->
         stripped (astype_str text) = decimal_text ip fp ->
         v == decimal_value ip fp).


(** ** Tables *)

(** A calendar date as produced by the date parser. *)
Record date := { year : Z; month : Z; day : Z }.

(** The transaction sheet as read: columns 日付, 項目, 内容, 金額, 収支. *)
Record raw_log := {
  raw_date : cell;      (* 日付 *)
  raw_item : cell;      (* 項目 *)
  raw_desc : cell;      (* 内容 *)
  raw_amount : cell;    (* 金額 *)
  raw_flow : cell       (* 収支 *)
}.

(** The budget sheet as read: columns 年月, 項目, 金額. *)
Record raw_budget := {
  rawb_year_month : cell;   (* 年月 *)
  rawb_item : cell;         (* 項目 *)
  rawb_amount : cell        (* 金額 *)
}.

(** The transaction table returned by [load_data]. *)
Record log_row := {
  date_ : option date;      (* 日付, [None] is NaT *)
  year_month : cell;        (* 年月 *)
  item : cell;              (* 項目 *)
  desc : cell;              (* 内容 *)
  amount : Q;               (* 金額 *)
  flow : cell               (* 収支 *)
}.

(** The budget table returned by [load_data]. *)
Record budget_row := {
  b_year_month : cell;      (* 年月 *)
  b_item : cell;            (* 項目 *)
  b_amount : Q              (* 金額 *)
}.

(** ** Exceptions as values *)

Inductive result (A : Type) : Type :=
| Ok (a : A)
| Raise (offending : pystr).
Arguments Ok {A} a.
Arguments Raise {A} offending.

Definition bind {A B} (r : result A) (f : A -> result B) : result B :=
  match r with
  | Ok a => f a
  | Raise s => Raise s
  end.

Notation "x <- r ;; k" := (bind r (fun x => k))
  (at level 61, r at next level, right associativity).

Fixpoint mapM {A B} (f : A -> result B) (l : list A) : result (list B) :=
  match l with
  | [] => Ok []
  | a :: t => b <- f a ;; bs <- mapM f t ;; Ok (b :: bs)
  end.

(** ** [strftime('%Y-%m')] *)

(** The [w] low decimal digits of [n], most significant first. *)
Fixpoint dec_digits (w : nat) (n : Z) : pystr :=
  match w with
  | O => []
  | S w' => dec_digits w' (n / 10) ++ [(48 + Z.to_N (n mod 10))%N]
  end.

(** Timestamps have four-digit years, so [%Y] prints four digits. *)
Definition strftime_Ym (d : date) : pystr :=
  dec_digits 4 (year d) ++ [MINUS] ++ dec_digits 2 (month d).

(** ** [load_data] (money.py lines 11-26) *)

Section Load.

(** The date parser of the library on one string; [None] stands for
    the exception it raises on text it cannot read. *)
Variable to_datetime : pystr -> option date.

(** A missing cell becomes NaT without an error. *)
Definition parse_date_cell (c : cell) : result (option date) :=
  match c with
  | None => Ok None
  | Some s =>
      match to_datetime s with
      | Some d => Ok (Some d)
      | None => Raise s
      end
  end.

(** Lines 19, 20 and 25 on one transaction row.  Each of these
    statements works cell by cell on a column, so the table they
    produce is the row-wise image of the input.  Both sheets have the
    金額 column, so the guard of line 24 holds. *)
Definition norm_log (r : raw_log) : result log_row :=
  d <- parse_date_cell (raw_date r) ;;
  Ok {| date_ := d;
        year_month := option_map strftime_Ym d;
        item := raw_item r;
        desc := raw_desc r;
        amount := coerce_amount (raw_amount r);
        flow := raw_flow r |}.

(** Lines 21 and 25 on one budget row. *)
Definition norm_budget (r : raw_budget) : result budget_row :=
  d <- parse_date_cell (rawb_year_month r) ;;
  Ok {| b_year_month := option_map strftime_Ym d;
        b_item := rawb_item r;
        b_amount := coerce_amount (rawb_amount r) |}.

Definition load_data (df_logs : list raw_log) (df_budget : list raw_budget)
  : result (list log_row * list budget_row) :=
  logs <- mapM norm_log df_logs ;;
  budget <- mapM norm_budget df_budget ;;
  Ok (logs, budget).

End Load.

(** A date reader for running [load_data] on examples: the form
    [YYYY-MM-DD] (or with slashes), nothing else. *)
Definition two_digits (a b : N) : Z := 10 * digit_val a + digit_val b.

Definition iso_date (s : pystr) : option date :=
  match s with
  | [y1; y2; y3; y4; s1; m1; m2; s2; d1; d2] =>
      let y := (100 * two_digits y1 y2 + two_digits y3 y4)%Z in
      let m := two_digits m1 m2 in
      let d := two_digits d1 d2 in
      if forallb is_digit [y1; y2; y3; y4; m1; m2; d1; d2]
         && ((s1 =? MINUS) || (s1 =? 47))%N && (s2 =? s1)%N
         && (1 <=? m)%Z && (m <=? 12)%Z && (1 <=? d)%Z && (d <=? 31)%Z
      then Some {| year := y; month := m; day := d |}
      else None
  | _ => None
  end.

(** ** Generic frame operations *)

(** Laws of a three-way comparison that the frame operations rely on. *)
Record compare_laws {K : Type} (cmp : K -> K -> comparison) : Prop := {
  cmp_eq : forall a b, cmp a b = Eq -> a = b;
  cmp_refl : forall a, cmp a a = Eq;
  cmp_antisym : forall a b, cmp b a = CompOpp (cmp a b);
  cmp_trans : forall a b c, cmp a b = Lt -> cmp b c = Lt -> cmp a c = Lt
}.

Section Frame.

Variable K : Type.
Variable cmp : K -> K -> comparison.

(** Insertion into a duplicate-free ascending list of keys. *)
Fixpoint key_insert (k : K) (ks : list K) : list K :=
  match ks with
  | [] => [k]
  | h :: t =>
      match cmp k h with
      | Lt => k :: ks
      | Eq => ks
      | Gt => h :: key_insert k t
      end
  end.

(** The distinct keys in ascending order. *)
Definition unique_sorted (ks : list K) : list K :=
  fold_right key_insert [] ks.

(** Adds [v] to the running sum of group [k]; groups are kept in
    ascending key order. *)
Fixpoint gadd (k : K) (v : Q) (m : list (K * Q)) : list (K * Q) :=
  match m with
  | [] => [(k, v)]
  | (h, w) :: t =>
      match cmp k h with
      | Lt => (k, v) :: m
      | Eq => (h, w + v) :: t
      | Gt => (h, w) :: gadd k v t
      end
  end.

(** One row of a grouped sum: a row whose key is missing belongs to
    no group. *)
Definition group_step {R} (key : R -> option K) (val : R -> Q)
    (m : list (K * Q)) (r : R) : list (K * Q) :=
  match key r with
  | Some k => gadd k (val r) m
  | None => m
  end.

(** [groupby(key)[val].sum()]: rows are visited in table order. *)
Definition groupby_sum {R} (key : R -> option K) (val : R -> Q)
    (rows : list R) : list (K * Q) :=
  fold_left (group_step key val) rows [].

(** Whether row [r] carries the key [k]. *)
Definition key_is {R} (key : R -> option K) (k : K) (r : R) : bool :=
  match key r with
  | Some k' => match cmp k k' with Eq => true | _ => false end
  | None => false
  end.

(** Whether row [r] has a key at all. *)
Definition keyed {R} (key : R -> option K) (r : R) : bool :=
match key r with
| Some _ => true
| None => false
end.

(** Strictly ascending keys. *)
Definition ascending (ks : list K) : Prop :=
  StronglySorted (fun a b => cmp a b = Lt) ks.

Fixpoint lookup (k : K) (m : list (K * Q)) : option Q :=
  match m with
  | [] => None
  | (h, v) :: t =>
      match cmp k h with
      | Eq => Some v
      | _ => lookup k t
      end
  end.

End Frame.

(** Sum of a numeric column; the sum of no value is 0. *)
Definition col_sum (l : list Q) : Q := fold_left Qplus l 0.

Definition Qltb (x y : Q) : bool := negb (Qle_bool y x).

(** [sort_values(by, ascending=True)], as an insertion sort on the key
    column.  The library promises no particular order among rows with
    equal keys; here they keep their relative order. *)
Section SortValues.
Variable A : Type.
Variable by_ : A -> Q.

Fixpoint insert_by (x : A) (l : list A) : list A :=
  match l with
  | [] => [x]
  | h :: t =>
      if Qle_bool (by_ x) (by_ h) then x :: l else h :: insert_by x t
  end.

Definition sort_values (l : list A) : list A := fold_right insert_by [] l.

(** Ascending in the key column. *)
Definition ascending_by (l : list A) : Prop :=
StronglySorted (fun a b => by_ a <= by_ b) l.
End SortValues.

(** ** Month filter and summary totals (money.py lines 34-45) *)

Definition month_logs (df_logs : list log_row) (selected_month : pystr)
  : list log_row :=
  filter (fun r => cell_eqb (year_month r) selected_month) df_logs.

Definition month_budget (df_budget : list budget_row) (selected_month : pystr)
  : list budget_row :=
  filter (fun r => cell_eqb (b_year_month r) selected_month) df_budget.

Definition is_income (r : log_row) : bool := cell_eqb (flow r) INCOME.
Definition is_expense (r : log_row) : bool := cell_eqb (flow r) EXPENSE.

Definition total_income (month_logs : list log_row) : Q :=
  col_sum (map amount (filter is_income month_logs)).

Definition total_spent (month_logs : list log_row) : Q :=
  col_sum (map amount (filter is_expense month_logs)).

Definition total_budget (month_budget : list budget_row) : Q :=
  col_sum (map b_amount month_budget).

Definition balance (month_budget : list budget_row)
    (month_logs : list log_row) : Q :=
  total_budget month_budget - total_spent month_logs.

Definition spent_pct (month_budget : list budget_row)
    (month_logs : list log_row) : Q :=
  if Qltb 0 (total_budget month_budget)
  then total_spent month_logs / total_budget month_budget * 100
  else 0.

(** ** Per-category reconciliation (money.py lines 60-73) *)

(** The two grouped operands of the merge. *)
Definition budget_by_item (month_budget : list budget_row)
  : list (pystr * Q) :=
  groupby_sum str_compare b_item b_amount month_budget.

Definition actual_by_item (month_logs : list log_row) : list (pystr * Q) :=
  groupby_sum str_compare item amount (filter is_expense month_logs).

(** [pd.merge(left, right, on='項目', how='outer')]: one row for each key
    of either operand, in ascending key order; the side that lacks the
    key holds a missing value. *)
Definition merge_outer (left right : list (pystr * Q))
  : list (pystr * option Q * option Q) :=
  map (fun k => (k, lookup str_compare k left, lookup str_compare k right))
      (unique_sorted str_compare (map fst left ++ map fst right)).

(** A row of [summary] once the 差額 column is there. *)
Record summary_row := {
  s_item : pystr;      (* 項目 *)
  s_budget : Q;        (* 金額_予算 *)
  s_actual : Q;        (* 金額_実績 *)
  s_diff : Q           (* 差額 *)
}.

(** Lines 60-66: merge, [fillna(0)], difference column. *)
Definition summary_unsorted (month_budget : list budget_row)
    (month_logs : list log_row) : list summary_row :=
  map (fun '(k, b, a) =>
         {| s_item := k;
            s_budget := fillna0 b;
            s_actual := fillna0 a;
            s_diff := fillna0 b - fillna0 a |})
      (merge_outer (budget_by_item month_budget)
                   (actual_by_item month_logs)).

(** Line 67. *)
Definition summary_sorted (month_budget : list budget_row)
    (month_logs : list log_row) : list summary_row :=
  sort_values s_diff (summary_unsorted month_budget month_logs).

(** [int(x)]: truncation toward zero. *)
Definition int_of (q : Q) : Z := Z.quot (Qnum q) (Zpos (Qden q)).

(** Decimal digits of [n], least significant first. *)
Fixpoint le_digits (fuel : nat) (n : N) : list N :=
  match fuel with
  | O => []
  | S f =>
      let d := (48 + n mod 10)%N in
      if (n <? 10)%N then [d] else d :: le_digits f (n / 10)
  end.

(** A comma after every third digit that is followed by another one. *)
Fixpoint group3 (ds : list N) : list N :=
  match ds with
  | a :: b :: c :: rest =>
      match rest with
      | [] => ds
      | _ :: _ => a :: b :: c :: COMMA :: group3 rest
      end
  | _ => ds
  end.

(** The format specification [{:,}] applied to an integer. *)
Definition format_thousands (z : Z) : pystr :=
  let n := Z.abs_N z in
  let body := rev (group3 (le_digits (S (N.size_nat n)) n)) in
  if (z <? 0)%Z then MINUS :: body else body.

Definition OVER : pystr := [12458; 12540; 12496; 12540]%N.   (* オーバー *)
Definition REMAINING : pystr := [27531; 12426]%N.            (* 残り *)

(** Lines 69-71. *)
Definition make_label (row : summary_row) : pystr :=
  let spent := int_of (s_actual row) in
  let diff := int_of (s_diff row) in
  if (diff <? 0)%Z
  then [YEN] ++ format_thousands spent ++ py " (" ++ [YEN]
       ++ format_thousands (Z.abs diff) ++ py " " ++ OVER ++ py "!!)"
  else [YEN] ++ format_thousands spent ++ py " (" ++ REMAINING ++ py " "
       ++ [YEN] ++ format_thousands diff ++ py ")".

(** Line 73: the table shown and plotted, with its 表示テキスト column
    (one call of [make_label] per row; none on an empty table). *)
Definition summary (month_budget : list budget_row)
    (month_logs : list log_row) : list (summary_row * pystr) :=
  map (fun row => (row, make_label row))
      (summary_sorted month_budget month_logs).

(** ** Monthly trend (money.py lines 95-101) *)

(** The key of a row in the two-level grouping; a row that lacks either
    part of the key is in no group. *)
Definition trend_key (r : log_row) : option (pystr * pystr) :=
  match year_month r, flow r with
  | Some ym, Some f => Some (ym, f)
  | _, _ => None
  end.

Definition trend_groups (df_logs : list log_row)
  : list (pystr * pystr * Q) :=
  groupby_sum pair_compare trend_key amount df_logs.

(** A pivoted table: the column labels and, for every index label, one
    value per column. *)
Record pivot := {
  p_columns : list pystr;
  p_rows : list (pystr * list Q)
}.

(** [unstack().fillna(0)]: the inner key level becomes the columns; a
    (row, column) pair with no group is missing and then filled. *)
Definition unstack_fillna0 (g : list (pystr * pystr * Q)) : pivot :=
  let cols := unique_sorted str_compare (map (fun e => snd (fst e)) g) in
  let idx := unique_sorted str_compare (map (fun e => fst (fst e)) g) in
  {| p_columns := cols;
     p_rows :=
       map (fun i =>
              (i, map (fun c => fillna0 (lookup pair_compare (i, c) g)) cols))
           idx |}.

Definition monthly_summary (df_logs : list log_row) : pivot :=
  unstack_fillna0 (trend_groups df_logs).

(** [monthly_summary[c]] for a column label [c], by index label; the
    guard [c in monthly_summary.columns] is the [option]. *)
Fixpoint column_index (c : pystr) (cols : list pystr) : option nat :=
  match cols with
  | [] => None
  | h :: t =>
      if str_eqb c h then Some O else option_map S (column_index c t)
  end.

Definition trace (c : pystr) (p : pivot) : option (list (pystr * Q)) :=
  match column_index c (p_columns p) with
  | Some j => Some (map (fun r => (fst r, nth j (snd r) 0)) (p_rows p))
  | None => None
  end.



(** ** Sample data

    Tables on which the definitions are run in the examples below. *)

(** Three transaction rows (a priced one, an unreadable one, an empty
    one) and one budget row. *)
Definition sample_raw_logs : list raw_log :=
  [ {| raw_date := Some (py "2024-01-05"); raw_item := Some (py "Food");
       raw_desc := Some (py "lunch"); raw_amount := Some (YEN :: py "12,500");
       raw_flow := Some EXPENSE |};
    {| raw_date := Some (py "2024-01-06"); raw_item := Some (py "Food");
       raw_desc := None; raw_amount := Some (py "N/A");
       raw_flow := Some EXPENSE |};
    {| raw_date := Some (py "2024/02/01"); raw_item := Some (py "Pay");
       raw_desc := None; raw_amount := None;
       raw_flow := Some INCOME |} ].

Definition sample_raw_budget : list raw_budget :=
  [ {| rawb_year_month := Some (py "2024-01-01");
       rawb_item := Some (py "Food");
       rawb_amount := Some (YEN :: py "30,000") |} ].


(** The two tables that [load_data] returns on the sample sheets. *)
Definition sample_logs : list log_row :=
  Eval vm_compute in
    match load_data iso_date sample_raw_logs sample_raw_budget with
    | Ok (logs, _) => logs
    | Raise _ => []
    end.

Definition sample_budget : list budget_row :=
  Eval vm_compute in
    match load_data iso_date sample_raw_logs sample_raw_budget with
    | Ok (_, budget) => budget
    | Raise _ => []
    end.

(** A refund entered with a minus sign. *)
Definition refund_raw : raw_log :=
  {| raw_date := Some (py "2024-01-07"); raw_item := Some (py "Food");
     raw_desc := Some (py "refund"); raw_amount := Some (YEN :: py "-500");
     raw_flow := Some EXPENSE |}.

Definition refund_log : log_row :=
  {| date_ := Some {| year := 2024; month := 1; day := 7 |};
     year_month := Some (py "2024-01");
     item := Some (py "Food");
     desc := Some (py "refund");
     amount := -500;
     flow := Some EXPENSE |}.

(** A row whose date the sample reader cannot read. *)
Definition bad_date_raw : raw_log :=
  {| raw_date := Some (py "someday"); raw_item := Some (py "Food");
     raw_desc := None; raw_amount := Some (py "100");
     raw_flow := Some EXPENSE |}.

(** An expense whose category cell is empty, as the sheet holds it and
    as [load_data] returns it. *)
Definition uncategorised_raw : raw_log :=
  {| raw_date := Some (py "2024-01-09"); raw_item := None;
     raw_desc := Some (py "cash"); raw_amount := Some (YEN :: py "800");
     raw_flow := Some EXPENSE |}.

Definition uncategorised_log : log_row :=
  {| date_ := Some {| year := 2024; month := 1; day := 9 |};
     year_month := Some (py "2024-01");
     item := None;
     desc := Some (py "cash");
     amount := 800;
     flow := Some EXPENSE |}.

(** A month with nothing but a salary. *)
Definition salary_log : log_row :=
  {| date_ := Some {| year := 2024; month := 2; day := 25 |};
     year_month := Some (py "2024-02");
     item := Some (py "Pay");
     desc := None;
     amount := 300000;
     flow := Some INCOME |}.

(** The budget and the spending of the reconciliation example: 300
    budgeted for food, 350 spent. *)
Definition food_budget : budget_row :=
  {| b_year_month := Some (py "2024-01"); b_item := Some (py "Food");
     b_amount := 300 |}.

Definition food_log : log_row :=
  {| date_ := Some {| year := 2024; month := 1; day := 5 |};
     year_month := Some (py "2024-01");
     item := Some (py "Food");
     desc := Some (py "lunch");
     amount := 350;
     flow := Some EXPENSE |}.

(** Spending in a category that has no budget. *)
Definition fun_log : log_row :=
  {| date_ := Some {| year := 2024; month := 1; day := 20 |};
     year_month := Some (py "2024-01");
     item := Some (py "Fun");
     desc := None;
     amount := 1200;
     flow := Some EXPENSE |}.

(** A transaction whose flow cell is empty. *)
Definition unlabelled_log : log_row :=
  {| date_ := Some {| year := 2024; month := 3; day := 2 |};
     year_month := Some (py "2024-03");
     item := Some (py "Food");
     desc := None;
     amount := 400;
     flow := None |}.

(** ** Month selector (money.py line 31) *)

Definition cell_same (a b : cell) : bool :=
  match a, b with
  | Some s, Some t => str_eqb s t
  | None, None => true
  | _, _ => false
  end.

(** [Series.unique()]: the distinct values in order of first
    appearance, the missing value among them. *)
Fixpoint unique_from (seen : list cell) (l : list cell) : list cell :=
  match l with
  | [] => []
  | c :: t =>
      if existsb (cell_same c) seen then unique_from seen t
      else c :: unique_from (c :: seen) t
  end.

Definition unique (l : list cell) : list cell := unique_from [] l.

Definition is_missing (c : cell) : bool :=
  match c with
  | Some _ => false
  | None => true
  end.

(** The strings of a column, missing values left out. *)
Fixpoint present (l : list cell) : list pystr :=
  match l with
  | [] => []
  | Some s :: t => s :: present t
  | None :: t => present t
  end.

(** Insertion into a descending list, behind the greater elements. *)
Fixpoint insert_desc (x : pystr) (l : list pystr) : list pystr :=
  match l with
  | [] => [x]
  | h :: t =>
      match str_compare x h with
      | Lt => h :: insert_desc x t
      | _ => x :: l
      end
  end.

(** [sorted(strings, reverse=True)]. *)
Definition sorted_reverse (l : list pystr) : list pystr :=
  fold_right insert_desc [] l.

(** [sorted(df_logs['年月'].unique(), reverse=True)].  Sorting compares
    elements as soon as there are two of them, and comparing the missing
    value (a float) with a string raises; [None] is that exception. *)
Definition available_months (df_logs : list log_row) : option (list cell) :=
  let u := unique (map year_month df_logs) in
  match u with
  | [] => Some u
  | [_] => Some u
  | _ :: _ :: _ =>
      if existsb is_missing u then None
      else Some (map Some (sorted_reverse (present u)))
  end.

(** Strictly descending strings. *)
Definition descending (l : list pystr) : Prop :=
  StronglySorted (fun a b => str_compare a b = Gt) l.

(** ** Bar colours and axis range (money.py lines 81 and 87) *)

Definition RED : pystr := py "#EF553B".
Definition BLUE : pystr := py "#636EFA".

(** The lambda of line 81. *)
Definition bar_color (x : Q) : pystr := if Qltb x 0 then RED else BLUE.

Definition bar_colors (summary : list (summary_row * pystr)) : list pystr :=
  map (fun r => bar_color (s_diff (fst r))) summary.

(** The builtin [max] of two numbers: the first one unless the second is
    greater. *)
Definition py_max (a b : Q) : Q := if Qltb a b then b else a.

(** [Series.max()]; an empty column has no maximum. *)
Definition series_max (l : list Q) : option Q :=
  match l with
  | [] => None
  | x :: t => Some (fold_left py_max t x)
  end.

(** The upper end of the x axis: 1.3 times the larger of the two column
    maxima. *)
Definition xaxis_upper (summary : list (summary_row * pystr)) : option Q :=
  match series_max (map (fun r => s_budget (fst r)) summary),
        series_max (map (fun r => s_actual (fst r)) summary) with
  | Some b, Some a => Some (py_max b a * (13 # 10))
  | _, _ => None
  end.

(** The two forms of the label text of lines 70-71, for the integers
    they print. *)
Definition label_over (spent over : Z) : pystr :=
  [YEN] ++ format_thousands spent ++ py " (" ++ [YEN]
  ++ format_thousands over ++ py " " ++ OVER ++ py "!!)".

Definition label_remaining (spent remaining : Z) : pystr :=
  [YEN] ++ format_thousands spent ++ py " (" ++ REMAINING ++ py " "
  ++ [YEN] ++ format_thousands remaining ++ py ")".

(** ** Detail table (money.py lines 109-113) *)

(** Chronological order of dates. *)
Definition date_leb (a b : date) : bool :=
  match Z.compare (year a) (year b) with
  | Lt => true
  | Gt => false
  | Eq =>
      match Z.compare (month a) (month b) with
      | Lt => true
      | Gt => false
      | Eq => (day a <=? day b)%Z
      end
  end.

(** Order of the 日付 column under [sort_values]: NaT comes last. *)
Definition nat_last_leb (a b : option date) : bool :=
  match a, b with
  | Some x, Some y => date_leb x y
  | Some _, None => true
  | None, Some _ => false
  | None, None => true
  end.

Fixpoint insert_by_date (x : log_row) (l : list log_row) : list log_row :=
  match l with
  | [] => [x]
  | h :: t =>
      if nat_last_leb (date_ x) (date_ h) then x :: l
      else h :: insert_by_date x t
  end.

(** [sort_values('日付', ascending=True)], as an insertion sort; rows
    with the same date keep their relative order. *)
Definition sort_by_date (l : list log_row) : list log_row :=
  fold_right insert_by_date [] l.

(** [strftime('%Y/%m/%d')]. *)
Definition strftime_Ymd (d : date) : pystr :=
  dec_digits 4 (year d) ++ [47%N] ++ dec_digits 2 (month d) ++ [47%N]
  ++ dec_digits 2 (day d).

(** A row of the detail table: columns 日付, 項目, 内容, 金額, 収支. *)
Record display_row := {
  d_date : cell;
  d_item : cell;
  d_desc : cell;
  d_amount : Q;
  d_flow : cell
}.

Definition to_display (r : log_row) : display_row :=
  {| d_date := option_map strftime_Ymd (date_ r);
     d_item := item r;
     d_desc := desc r;
     d_amount := amount r;
     d_flow := flow r |}.

Definition display_logs (month_logs : list log_row) : list display_row :=
  map to_display (sort_by_date month_logs).


(** Little-endian digits to their value. *)
Fixpoint le_value (ds : list N) : Z :=
  match ds with
  | [] => 0
  | d :: t => digit_val d + 10 * le_value t
  end.

(** The year and month of a date, as a pair ordered chronologically. *)
Definition month_compare (a b : date) : comparison :=
  match Z.compare (year a) (year b) with
  | Eq => Z.compare (month a) (month b)
  | c => c
  end.

(** Years of four digits and months of two, as timestamps have them. *)
Definition printable (d : date) : Prop :=
  (0 <= year d < 10000)%Z /\ (0 <= month d < 100)%Z.

(** How the key of a loaded row depends on the date cell of the sheet:
    missing when the cell is empty, and when present the text [YYYY-MM]
    of the date that was read from the cell. *)
Definition key_from_cell (to_datetime : pystr -> option date)
    (date_cell : cell) (key : cell) : Prop :=
  (date_cell = None -> key = None)
  /\ (forall k, key = Some k ->
        exists s d y m,
          date_cell = Some s /\ to_datetime s = Some d
          /\ k = strftime_Ym d /\ k = y ++ [MINUS] ++ m
          /\ List.length y = 4%nat /\ List.length m = 2%nat
          /\ all_digits y = true /\ all_digits m = true).

(** ** Amounts on which float64 is exact *)

(** A whole number. *)
Definition whole (q : Q) : Prop := Qden q = 1%positive.

(** The absolute values of the amounts, added up. *)
Definition magnitude (l : list Q) : Z :=
  fold_right (fun q s => (Z.abs (Qnum q) + s)%Z) 0%Z l.

(** Whole numbers whose absolute values add up to less than 2^53: every
    sum of some of them, in any order and grouping, is a whole number
    below 2^53 in absolute value, which float64 holds and adds without
    rounding. *)
Definition exact_amounts (l : list Q) : Prop :=
  Forall whole l /\ (magnitude l < 2 ^ 53)%Z.

(** ** The reconciliation over any arithmetic

    Lines 38 and 60-73 once more, with the numbers and their operations
    as parameters: the zero of [fillna(0)] and of an empty sum, addition
    for the sums, subtraction for the difference column, the comparison
    of [sort_values] and [int()].  Sums take the rows in table order,
    one addition per row.  (The library may add in another grouping or
    with a compensation term; on whole amounts every such sum is exact
    and the result is the same.) *)

Section AnyArithmetic.

Variable V : Type.
Variable v_zero : V.
Variable v_add : V -> V -> V.
Variable v_sub : V -> V -> V.
Variable v_leb : V -> V -> bool.
Variable v_int : V -> Z.

(** A budget row and a transaction row of the month, with the columns
    that the reconciliation reads. *)
Record v_budget_row := {
  vb_item : cell;      (* 項目 *)
  vb_amount : V        (* 金額 *)
}.

Record v_log_row := {
  vl_item : cell;      (* 項目 *)
  vl_amount : V;       (* 金額 *)
  vl_flow : cell       (* 収支 *)
}.

Fixpoint v_gadd (k : pystr) (v : V) (m : list (pystr * V))
  : list (pystr * V) :=
  match m with
  | [] => [(k, v)]
  | (h, w) :: t =>
      match str_compare k h with
      | Lt => (k, v) :: m
      | Eq => (h, v_add w v) :: t
      | Gt => (h, w) :: v_gadd k v t
      end
  end.

Definition v_group_step {R} (key : R -> cell) (val : R -> V)
    (m : list (pystr * V)) (r : R) : list (pystr * V) :=
  match key r with
  | Some k => v_gadd k (val r) m
  | None => m
  end.

Definition v_groupby_sum {R} (key : R -> cell) (val : R -> V)
    (rows : list R) : list (pystr * V) :=
  fold_left (v_group_step key val) rows [].

Fixpoint v_lookup (k : pystr) (m : list (pystr * V)) : option V :=
  match m with
  | [] => None
  | (h, v) :: t =>
      match str_compare k h with
      | Eq => Some v
      | _ => v_lookup k t
      end
  end.

Definition v_fillna0 (o : option V) : V :=
  match o with
  | Some v => v
  | None => v_zero
  end.

Definition v_col_sum (l : list V) : V := fold_left v_add l v_zero.

Definition v_is_expense (r : v_log_row) : bool :=
  cell_eqb (vl_flow r) EXPENSE.

(** Line 38. *)
Definition v_total_spent (month_logs : list v_log_row) : V :=
  v_col_sum (map vl_amount (filter v_is_expense month_logs)).

Definition v_merge_outer (left right : list (pystr * V))
  : list (pystr * option V * option V) :=
  map (fun k => (k, v_lookup k left, v_lookup k right))
      (unique_sorted str_compare (map fst left ++ map fst right)).

Record v_summary_row := {
  vs_item : pystr;     (* 項目 *)
  vs_budget : V;       (* 金額_予算 *)
  vs_actual : V;       (* 金額_実績 *)
  vs_diff : V          (* 差額 *)
}.

(** Lines 60-66. *)
Definition v_summary_unsorted (month_budget : list v_budget_row)
    (month_logs : list v_log_row) : list v_summary_row :=
  map (fun '(k, b, a) =>
         {| vs_item := k;
            vs_budget := v_fillna0 b;
            vs_actual := v_fillna0 a;
            vs_diff := v_sub (v_fillna0 b) (v_fillna0 a) |})
      (v_merge_outer
         (v_groupby_sum vb_item vb_amount month_budget)
         (v_groupby_sum vl_item vl_amount
            (filter v_is_expense month_logs))).

Fixpoint v_insert_by (x : v_summary_row) (l : list v_summary_row)
  : list v_summary_row :=
  match l with
  | [] => [x]
  | h :: t =>
      if v_leb (vs_diff x) (vs_diff h) then x :: l
      else h :: v_insert_by x t
  end.

(** Line 67. *)
Definition v_sort_values (l : list v_summary_row) : list v_summary_row :=
  fold_right v_insert_by [] l.

(** Lines 69-71. *)
Definition v_make_label (row : v_summary_row) : pystr :=
  let spent := v_int (vs_actual row) in
  let diff := v_int (vs_diff row) in
  if (diff <? 0)%Z then label_over spent (Z.abs diff)
  else label_remaining spent diff.

(** Line 73. *)
Definition v_summary (month_budget : list v_budget_row)
    (month_logs : list v_log_row) : list (v_summary_row * pystr) :=
  map (fun row => (row, v_make_label row))
      (v_sort_values (v_summary_unsorted month_budget month_logs)).

End AnyArithmetic.

(** *** With the rational arithmetic of the tables above

    The rows of the tables above as rows of this section; with the
    rational operations the reconciliation of this section is
    [summary]. *)

Definition as_v_budget (r : budget_row) : v_budget_row Q :=
  {| vb_item := b_item r; vb_amount := b_amount r |}.

Definition as_v_log (r : log_row) : v_log_row Q :=
  {| vl_item := item r; vl_amount := amount r; vl_flow := flow r |}.

Definition as_v_summary (row : summary_row) : v_summary_row Q :=
  {| vs_item := s_item row; vs_budget := s_budget row;
     vs_actual := s_actual row; vs_diff := s_diff row |}.

(** *** With float64 *)

Definition f64 : Type := spec_float.

Definition f64_zero : f64 := S754_zero false.
Definition f64_add : f64 -> f64 -> f64 := SFadd 53 1024.
Definition f64_sub : f64 -> f64 -> f64 := SFsub 53 1024.
Definition f64_div : f64 -> f64 -> f64 := SFdiv 53 1024.
Definition f64_leb : f64 -> f64 -> bool := SFleb.

(** The float64 of an integer. *)
Definition f64_of_Z (z : Z) : f64 := binary_normalize 53 1024 z 0 false.

(** [int(x)] for a finite [x]: truncation toward zero.  (On an infinity
    or NaN the builtin raises; the tables below hold none.) *)
Definition f64_int (x : f64) : Z :=
  match x with
  | S754_finite s m e =>
      let a := if (0 <=? e)%Z then (Z.pos m * 2 ^ e)%Z
               else (Z.pos m / 2 ^ (- e))%Z in
      if s then (- a)%Z else a
  | _ => 0%Z
  end.

(** The float64 that the decimal text of [m / 10 ^ k] reads as: the
    quotient of two integers that float64 holds exactly, rounded once. *)
Definition f64_decimal (m : Z) (k : nat) : f64 :=
  f64_div (f64_of_Z m) (f64_of_Z (10 ^ Z.of_nat k)).

Definition summary64 : list (v_budget_row f64) -> list (v_log_row f64)
                       -> list (v_summary_row f64 * pystr) :=
  v_summary f64_zero f64_add f64_sub f64_leb f64_int.

Definition total_spent64 : list (v_log_row f64) -> f64 :=
  v_total_spent f64_zero f64_add.

(** A food budget of 19.4 and three food expenses, of 7.2, 8.8 and 2.4. *)
Definition budget64 : list (v_budget_row f64) :=
  [ {| vb_item := Some (py "Food"); vb_amount := f64_decimal 194 1 |} ].

Definition expense64 (category : string) (m : Z) : v_log_row f64 :=
  {| vl_item := Some (py category); vl_amount := f64_decimal m 1;
     vl_flow := Some EXPENSE |}.

Definition spending64 : list (v_log_row f64) :=
  [ expense64 "Food" 72; expense64 "Food" 88; expense64 "Food" 24 ].

(** Expenses of 0.1 and 0.4 for food and of 0.1 for fun. *)
Definition small_spending64 : list (v_log_row f64) :=
  [ expense64 "Food" 1; expense64 "Fun" 1; expense64 "Food" 4 ].

(** *** Whole amounts as float64 *)

(** The float64 of a whole amount. *)
Definition f64_of_whole (q : Q) : f64 := f64_of_Z (Qnum q).

Definition budget64_of (r : budget_row) : v_budget_row f64 :=
  {| vb_item := b_item r; vb_amount := f64_of_whole (b_amount r) |}.

Definition log64_of (r : log_row) : v_log_row f64 :=
  {| vl_item := item r; vl_amount := f64_of_whole (amount r);
     vl_flow := flow r |}.

Definition summary64_of (row : summary_row) : v_summary_row f64 :=
  {| vs_item := s_item row;
     vs_budget := f64_of_whole (s_budget row);
     vs_actual := f64_of_whole (s_actual row);
     vs_diff := f64_of_whole (s_diff row) |}.

Definition labelled64_of (r : summary_row * pystr)
  : v_summary_row f64 * pystr :=
  (summary64_of (fst r), snd r).

(** Sum of a float64 column. *)
Definition col_sum64 : list f64 -> f64 := v_col_sum f64_zero f64_add.

(** Grouped sums of whole amounts as float64. *)
Definition sums64_of (m : list (pystr * Q)) : list (pystr * f64) :=
  map (fun e => (fst e, f64_of_whole (snd e))) m.

(** A reconciliation row that float64 holds exactly. *)
Definition exact_row (row : summary_row) : Prop :=
  whole (s_budget row) /\ whole (s_actual row) /\ whole (s_diff row)
  /\ (Z.abs (Qnum (s_actual row)) < 2 ^ 53)%Z
  /\ (Z.abs (Qnum (s_diff row)) < 2 ^ 53)%Z.
(* ================================================================== *)
(** * Part II: properties *)
(* ================================================================== *)

(** ** The string order is a total order *)

Lemma str_compare_eq a : forall b, str_compare a b = Eq -> a = b.
Proof.
  induction a as [|x a IH]; intros [|y b] H; simpl in H;
    try discriminate; auto.
  destruct (N.compare x y) eqn:E; try discriminate.
  apply N.compare_eq_iff in E. subst. f_equal. auto.
Qed.

Lemma str_compare_refl a : str_compare a a = Eq.
Proof.
  induction a as [|x a IH]; simpl; auto.
  now rewrite N.compare_refl.
Qed.

Lemma str_compare_antisym a :
  forall b, str_compare b a = CompOpp (str_compare a b).
Proof.
  induction a as [|x a IH]; intros [|y b]; simpl; auto.
  rewrite (N.compare_antisym x y).
  destruct (N.compare x y); simpl; auto.
Qed.

Lemma str_compare_trans a :
  forall b c, str_compare a b = Lt -> str_compare b c = Lt ->
              str_compare a c = Lt.
Proof.
  induction a as [|x a IH]; intros [|y b] [|z c] H1 H2; simpl in *;
    try discriminate; auto.
  destruct (N.compare x y) eqn:E1; try discriminate;
    destruct (N.compare y z) eqn:E2; try discriminate.
  - apply N.compare_eq_iff in E1, E2. subst.
    rewrite N.compare_refl. eauto.
  - apply N.compare_eq_iff in E1. subst. now rewrite E2.
  - apply N.compare_eq_iff in E2. subst. now rewrite E1.
  - rewrite N.compare_lt_iff in E1, E2.
    assert (E : (x ?= z)%N = Lt) by (apply N.compare_lt_iff; lia).
    now rewrite E.
Qed.

Lemma str_compare_laws : compare_laws str_compare.
Proof.
  constructor.
  - intros a b. apply str_compare_eq.
  - apply str_compare_refl.
  - intros a b. apply str_compare_antisym.
  - intros a b c. apply str_compare_trans.
Qed.

Lemma pair_compare_laws : compare_laws pair_compare.
Proof.
  constructor.
  - intros [a1 a2] [b1 b2]. unfold pair_compare. simpl.
    destruct (str_compare a1 b1) eqn:E; try discriminate.
    intros H. apply str_compare_eq in E, H. congruence.
  - intros [a1 a2]. unfold pair_compare. simpl.
    now rewrite !str_compare_refl.
  - intros [a1 a2] [b1 b2]. unfold pair_compare. simpl.
    rewrite (str_compare_antisym a1 b1).
    destruct (str_compare a1 b1); simpl; auto.
    apply str_compare_antisym.
  - intros [a1 a2] [b1 b2] [c1 c2]. unfold pair_compare. simpl.
    destruct (str_compare a1 b1) eqn:E1; try discriminate;
      destruct (str_compare b1 c1) eqn:E2; try discriminate; intros H1 H2.
    + apply str_compare_eq in E1, E2. subst.
      rewrite str_compare_refl. eapply str_compare_trans; eauto.
    + apply str_compare_eq in E1. subst. now rewrite E2.
    + apply str_compare_eq in E2. subst. now rewrite E1.
    + pose proof (@str_compare_trans _ _ _ E1 E2) as E. now rewrite E.
Qed.

Lemma str_eqb_eq a b : str_eqb a b = true <-> a = b.
Proof.
  unfold str_eqb. split.
  - destruct (str_compare a b) eqn:E; try discriminate.
    intros _. now apply str_compare_eq.
  - intros ->. now rewrite str_compare_refl.
Qed.

Lemma cell_eqb_eq c s : cell_eqb c s = true <-> c = Some s.
Proof.
  destruct c as [t|]; simpl.
  - rewrite str_eqb_eq. split; congruence.
  - split; discriminate.
Qed.

(** ** Addition of amounts, up to syntactic equality

    [Qplus] does not reduce fractions, yet it is associative and
    commutative for Leibniz equality, with [0] as unit: sums of the same
    amounts taken in any order are the same term. *)

Lemma Qplus_comm_eq (x y : Q) : x + y = y + x.
Proof.
  destruct x as [a b], y as [c d]. unfold Qplus. simpl.
  f_equal; [ring | apply Pos.mul_comm].
Qed.

Lemma Qplus_assoc_eq (x y z : Q) : x + (y + z) = (x + y) + z.
Proof.
  destruct x as [a b], y as [c d], z as [e f]. unfold Qplus. simpl.
  f_equal; [rewrite !Pos2Z.inj_mul; ring | apply Pos.mul_assoc].
Qed.

Lemma Qplus_0_l_eq (x : Q) : 0 + x = x.
Proof.
  destruct x as [a b]. unfold Qplus. simpl. f_equal. apply Z.mul_1_r.
Qed.

Lemma Qplus_0_r_eq (x : Q) : x + 0 = x.
Proof. rewrite Qplus_comm_eq. apply Qplus_0_l_eq. Qed.

#[local] Instance Qplus_Associative : Associative eq Qplus := Qplus_assoc_eq.
#[local] Instance Qplus_Commutative : Commutative eq Qplus := Qplus_comm_eq.
#[local] Instance Qplus_Unit : Unit eq Qplus 0 :=
  {| law_neutral_left := Qplus_0_l_eq; law_neutral_right := Qplus_0_r_eq |}.

Lemma fold_Qplus_from (l : list Q) :
  forall a, fold_left Qplus l a = a + col_sum l.
Proof.
  unfold col_sum.
  induction l as [|x l IH]; intros a; simpl.
  - now rewrite Qplus_0_r_eq.
  - rewrite (IH (a + x)), (IH (0 + x)). aac_reflexivity.
Qed.

Lemma col_sum_cons (x : Q) (l : list Q) : col_sum (x :: l) = x + col_sum l.
Proof.
  unfold col_sum at 1. simpl. rewrite fold_Qplus_from. aac_reflexivity.
Qed.

Lemma col_sum_nil : col_sum [] = 0.
Proof. reflexivity. Qed.

Lemma col_sum_app (l1 l2 : list Q) :
  col_sum (l1 ++ l2) = col_sum l1 + col_sum l2.
Proof.
  induction l1 as [|x l1 IH]; simpl.
  - now rewrite col_sum_nil, Qplus_0_l_eq.
  - rewrite !col_sum_cons, IH. aac_reflexivity.
Qed.

Lemma col_sum_perm (l1 l2 : list Q) :
  Permutation l1 l2 -> col_sum l1 = col_sum l2.
Proof.
  induction 1 as [|x l1 l2 _ IH|x y l| l1 l2 l3 _ IH1 _ IH2].
  - reflexivity.
  - now rewrite !col_sum_cons, IH.
  - rewrite !col_sum_cons. aac_reflexivity.
  - congruence.
Qed.

(** Folding a list with an operation whose steps commute gives the same
    result on every permutation of the list. *)
Lemma fold_left_perm {A B} (f : A -> B -> A)
    (Hf : forall a x y, f (f a x) y = f (f a y) x) (l1 l2 : list B) :
  Permutation l1 l2 -> forall a, fold_left f l1 a = fold_left f l2 a.
Proof.
  induction 1 as [|x l1 l2 _ IH|x y l| l1 l2 l3 _ IH1 _ IH2];
    intros a; simpl.
  - reflexivity.
  - apply IH.
  - now rewrite Hf.
  - now rewrite IH1.
Qed.

Lemma fold_right_perm {A B} (f : B -> A -> A)
    (Hf : forall a x y, f x (f y a) = f y (f x a)) (l1 l2 : list B) (a : A) :
  Permutation l1 l2 -> fold_right f a l1 = fold_right f a l2.
Proof.
  induction 1 as [|x l1 l2 _ IH|x y l| l1 l2 l3 _ IH1 _ IH2]; simpl.
  - reflexivity.
  - now rewrite IH.
  - apply Hf.
  - congruence.
Qed.

(** ** Keys, groups and lookups *)

Section FrameFacts.

Variable K : Type.
Variable cmp : K -> K -> comparison.
Hypothesis laws : compare_laws cmp.

Lemma cmp_Gt_Lt a b : cmp a b = Gt -> cmp b a = Lt.
Proof. intros H. rewrite (cmp_antisym laws a b), H. reflexivity. Qed.

Lemma cmp_Lt_Gt a b : cmp a b = Lt -> cmp b a = Gt.
Proof. intros H. rewrite (cmp_antisym laws a b), H. reflexivity. Qed.

Lemma cmp_Eq_iff a b : cmp a b = Eq <-> a = b.
Proof.
  split; [apply (cmp_eq laws) | intros ->; apply (cmp_refl laws)].
Qed.

Lemma cmp_Gt_trans a b c : cmp a b = Gt -> cmp b c = Gt -> cmp a c = Gt.
Proof.
  intros H1 H2. apply cmp_Lt_Gt.
  apply (cmp_trans laws) with b; now apply cmp_Gt_Lt.
Qed.

(** Case analysis on a comparison, with equal keys identified. *)
Ltac cases a b :=
  let E := fresh "E" in
  destruct (cmp a b) eqn:E;
  [ apply (cmp_eq laws) in E; subst | | ].

(** Solves the order side conditions left by [cases]. *)
Ltac order :=
  repeat match goal with
         | H : cmp ?a ?a = Lt |- _ => rewrite (cmp_refl laws) in H
         | H : cmp ?a ?a = Gt |- _ => rewrite (cmp_refl laws) in H
         | H : cmp ?a ?b = Gt |- _ => apply cmp_Gt_Lt in H
         end;
  repeat match goal with
         | |- context [cmp ?a ?a] => rewrite (cmp_refl laws)
         | H : cmp ?a ?b = Lt |- context [cmp ?a ?b] => rewrite H
         | H : cmp ?a ?b = Lt |- context [cmp ?b ?a] =>
             rewrite (cmp_Lt_Gt H)
         | H1 : cmp ?a ?b = Lt, H2 : cmp ?b ?c = Lt
           |- context [cmp ?a ?c] =>
             rewrite (cmp_trans laws _ _ _ H1 H2)
         | H1 : cmp ?a ?b = Lt, H2 : cmp ?b ?c = Lt
           |- context [cmp ?c ?a] =>
             rewrite (cmp_Lt_Gt (cmp_trans laws _ _ _ H1 H2))
         end;
  try discriminate; try reflexivity.

Lemma key_insert_comm a b (l : list K) :
  key_insert cmp a (key_insert cmp b l)
  = key_insert cmp b (key_insert cmp a l).
Proof.
  induction l as [|h t IH]; simpl.
  - cases a b; simpl; order.
  - cases a h; cases b h; simpl; order; cases a b; simpl; order;
      now rewrite IH.
Qed.

Lemma unique_sorted_perm (l1 l2 : list K) :
  Permutation l1 l2 -> unique_sorted cmp l1 = unique_sorted cmp l2.
Proof.
  apply fold_right_perm. intros a x y. apply key_insert_comm.
Qed.

Lemma In_key_insert x k (l : list K) :
  In x (key_insert cmp k l) <-> x = k \/ In x l.
Proof.
  induction l as [|h t IH]; simpl.
  - intuition.
  - cases k h; simpl; rewrite ?IH; intuition.
Qed.

Lemma In_unique_sorted x (l : list K) :
  In x (unique_sorted cmp l) <-> In x l.
Proof.
  induction l as [|h t IH]; simpl.
  - reflexivity.
  - rewrite In_key_insert, IH. intuition.
Qed.

Lemma key_insert_ascending k (l : list K) :
  ascending cmp l -> ascending cmp (key_insert cmp k l).
Proof.
  unfold ascending.
  induction 1 as [|h t Ht IH Hh]; simpl.
  - repeat constructor.
  - cases k h.
    + now constructor.
    + constructor; [now constructor|].
      constructor; [assumption|].
      rewrite Forall_forall in *. intros y Hy.
      apply (cmp_trans laws) with h; auto.
    + constructor; [assumption|].
      rewrite Forall_forall in *. intros y Hy.
      apply In_key_insert in Hy. destruct Hy as [->|Hy]; auto.
      now apply cmp_Gt_Lt.
Qed.

Lemma unique_sorted_ascending (l : list K) :
ascending cmp (unique_sorted cmp l).
Proof.
  induction l as [|h t IH]; simpl.
  - constructor.
  - now apply key_insert_ascending.
Qed.

Lemma ascending_NoDup (l : list K) : ascending cmp l -> NoDup l.
Proof.
  induction 1 as [|h t Ht IH Hh]; constructor; auto.
  intros Hin. rewrite Forall_forall in Hh. specialize (Hh _ Hin).
  rewrite (cmp_refl laws) in Hh. discriminate.
Qed.

(** *** Group sums *)

Lemma gadd_comm a x b y (m : list (K * Q)) :
  gadd cmp a x (gadd cmp b y m) = gadd cmp b y (gadd cmp a x m).
Proof.
  induction m as [|[h w] t IH]; simpl.
  - cases a b; simpl; order. f_equal. f_equal. apply Qplus_comm_eq.
  - cases a h; cases b h; simpl; order; try (cases a b; simpl; order);
      try (now rewrite IH); try (do 2 f_equal; aac_reflexivity).
Qed.

Lemma groupby_sum_perm {R} (key : R -> option K) (val : R -> Q)
    (rows1 rows2 : list R) :
  Permutation rows1 rows2 ->
  groupby_sum cmp key val rows1 = groupby_sum cmp key val rows2.
Proof.
  intros H. unfold groupby_sum.
  apply fold_left_perm; [|assumption].
  intros m r1 r2. unfold group_step.
  destruct (key r1), (key r2); auto. apply gadd_comm.
Qed.

Lemma keys_gadd x k v (m : list (K * Q)) :
  In x (map fst (gadd cmp k v m)) <-> x = k \/ In x (map fst m).
Proof.
  induction m as [|[h w] t IH]; simpl.
  - intuition.
  - cases k h; simpl; rewrite ?IH; intuition.
Qed.

Lemma sum_gadd k v (m : list (K * Q)) :
  col_sum (map snd (gadd cmp k v m)) = col_sum (map snd m) + v.
Proof.
  induction m as [|[h w] t IH]; simpl.
  - rewrite col_sum_cons. aac_reflexivity.
  - cases k h; simpl; rewrite !col_sum_cons, ?IH; aac_reflexivity.
Qed.

Lemma gadd_ascending k v (m : list (K * Q)) :
  ascending cmp (map fst m) -> ascending cmp (map fst (gadd cmp k v m)).
Proof.
  unfold ascending.
  induction m as [|[h w] t IH]; simpl; intros H.
  - repeat constructor.
  - inversion H as [|? ? Ht Hh]; subst.
    cases k h; simpl.
    + now constructor.
    + constructor; [assumption|].
      constructor; [assumption|].
      rewrite Forall_forall in *. intros y Hy.
      apply (cmp_trans laws) with h; auto.
    + constructor; [auto|].
      rewrite Forall_forall in *. intros y Hy.
      apply keys_gadd in Hy. destruct Hy as [->|Hy]; auto.
      now apply cmp_Gt_Lt.
Qed.

(** A key found by [lookup] is a key of the list, and conversely. *)
Lemma lookup_None k (m : list (K * Q)) :
  lookup cmp k m = None <-> ~ In k (map fst m).
Proof.
  induction m as [|[h w] t IH]; simpl.
  - intuition.
  - cases k h.
    + split; [discriminate | intros H; exfalso; apply H; now left].
    + rewrite IH. split; [|tauto].
      intros H [->|H']; [|tauto]. rewrite (cmp_refl laws) in E.
      discriminate.
    + rewrite IH. split; [|tauto].
      intros H [->|H']; [|tauto]. rewrite (cmp_refl laws) in E.
      discriminate.
Qed.

Lemma lookup_Some_In k v (m : list (K * Q)) :
  lookup cmp k m = Some v -> In (k, v) m.
Proof.
  induction m as [|[h w] t IH]; simpl; [discriminate|].
  cases k h; auto. intros [= ->]. now left.
Qed.

Lemma lookup_below k h (t : list (K * Q)) :
  cmp k h = Lt -> Forall (fun x => cmp h x = Lt) (map fst t) ->
  lookup cmp k t = None.
Proof.
  intros Hk Hh. apply lookup_None. intros Hin.
  rewrite Forall_forall in Hh. specialize (Hh _ Hin).
  pose proof (cmp_trans laws _ _ _ Hk Hh) as C.
  rewrite (cmp_refl laws) in C. discriminate.
Qed.

Lemma lookup_gadd k k' v (m : list (K * Q)) :
  ascending cmp (map fst m) ->
  lookup cmp k (gadd cmp k' v m)
  = match cmp k k' with
    | Eq => Some (fillna0 (lookup cmp k m) + v)
    | _ => lookup cmp k m
    end.
Proof.
  unfold ascending.
  induction m as [|[h w] t IH]; simpl; intros H.
  - cases k k'; simpl; order. now rewrite Qplus_0_l_eq.
  - inversion H as [|? ? Ht Hh]; subst.
    cases k' h; simpl.
    + cases k h; simpl; order.
    + cases k k'; simpl; order.
      rewrite (lookup_below _ E Hh). simpl. now rewrite Qplus_0_l_eq.
    + cases k h; simpl; order; rewrite IH by assumption; order.
Qed.


(** *** Grouped sums over a table *)

Lemma groupby_from_ascending {R} (key : R -> option K) (val : R -> Q)
    (rows : list R) :
  forall m, ascending cmp (map fst m) ->
            ascending cmp (map fst (fold_left (group_step cmp key val) rows m)).
Proof.
  induction rows as [|r rows IH]; simpl; intros m Hm; [assumption|].
  apply IH. unfold group_step. destruct (key r); [|assumption].
  now apply gadd_ascending.
Qed.

Lemma groupby_sum_ascending {R} (key : R -> option K) (val : R -> Q)
    (rows : list R) :
  ascending cmp (map fst (groupby_sum cmp key val rows)).
Proof. apply groupby_from_ascending. constructor. Qed.

Lemma keys_groupby_from {R} (key : R -> option K) (val : R -> Q) k
    (rows : list R) :
  forall m,
    In k (map fst (fold_left (group_step cmp key val) rows m))
    <-> In k (map fst m) \/ exists r, In r rows /\ key r = Some k.
Proof.
  induction rows as [|r rows IH]; simpl; intros m.
  - split; [auto | intros [H|[r [[] _]]]; assumption].
  - rewrite IH. unfold group_step. destruct (key r) as [k'|] eqn:Ek.
    + rewrite keys_gadd. split.
      * intros [[->|H]|[r' [H1 H2]]]; eauto.
      * intros [H|[r' [[->|H1] H2]]]; eauto.
        left. left. congruence.
    + split.
      * intros [H|[r' [H1 H2]]]; eauto.
      * intros [H|[r' [[->|H1] H2]]]; eauto. congruence.
Qed.

(** The group labels are the keys that occur in the table. *)
Lemma keys_groupby_sum {R} (key : R -> option K) (val : R -> Q) k
    (rows : list R) :
  In k (map fst (groupby_sum cmp key val rows))
  <-> exists r, In r rows /\ key r = Some k.
Proof.
  unfold groupby_sum. rewrite keys_groupby_from. simpl. tauto.
Qed.

Lemma sum_groupby_from {R} (key : R -> option K) (val : R -> Q)
    (rows : list R) :
  forall m,
    col_sum (map snd (fold_left (group_step cmp key val) rows m))
    = col_sum (map snd m) + col_sum (map val (filter (keyed key) rows)).
Proof.
  induction rows as [|r rows IH]; simpl; intros m.
  - now rewrite col_sum_nil, Qplus_0_r_eq.
  - rewrite IH. unfold group_step, keyed. destruct (key r); simpl.
    + rewrite sum_gadd, col_sum_cons. aac_reflexivity.
    + reflexivity.
Qed.

(** The group sums add up to the sum over the rows that have a key. *)
Lemma sum_groupby_sum {R} (key : R -> option K) (val : R -> Q)
    (rows : list R) :
  col_sum (map snd (groupby_sum cmp key val rows))
  = col_sum (map val (filter (keyed key) rows)).
Proof.
  unfold groupby_sum. rewrite sum_groupby_from. simpl.
  now rewrite col_sum_nil, Qplus_0_l_eq.
Qed.

Lemma lookup_groupby_from {R} (key : R -> option K) (val : R -> Q) k
    (rows : list R) :
  forall m, ascending cmp (map fst m) ->
    lookup cmp k (fold_left (group_step cmp key val) rows m)
    = match filter (key_is cmp key k) rows with
      | [] => lookup cmp k m
      | l => Some (fillna0 (lookup cmp k m) + col_sum (map val l))
      end.
Proof.
  induction rows as [|r rows IH]; simpl; intros m Hm; [reflexivity|].
  rewrite IH.
  2:{ unfold group_step. destruct (key r); [|assumption].
      now apply gadd_ascending. }
  unfold group_step, key_is at 2. destruct (key r) as [k'|]; [|reflexivity].
  rewrite lookup_gadd by assumption.
  destruct (cmp k k'); try reflexivity.
  destruct (filter (key_is cmp key k) rows) as [|r' l]; simpl.
  - f_equal. rewrite col_sum_cons, col_sum_nil. aac_reflexivity.
  - f_equal. rewrite !col_sum_cons. aac_reflexivity.
Qed.

(** The sum of a group is the sum over the rows that carry its key, and
    a key that no row carries has no group. *)
Lemma lookup_groupby_sum {R} (key : R -> option K) (val : R -> Q) k
    (rows : list R) :
  lookup cmp k (groupby_sum cmp key val rows)
  = match filter (key_is cmp key k) rows with
    | [] => None
    | l => Some (col_sum (map val l))
    end.
Proof.
  unfold groupby_sum. rewrite lookup_groupby_from by constructor. simpl.
  destruct (filter (key_is cmp key k) rows); [reflexivity|].
  now rewrite Qplus_0_l_eq.
Qed.

End FrameFacts.

(** ** [sort_values] returns an ascending rearrangement *)

Section SortFacts.

Variable A : Type.
Variable by_ : A -> Q.

Lemma insert_by_perm x (l : list A) : Permutation (insert_by by_ x l) (x :: l).
Proof.
  induction l as [|h t IH]; simpl.
  - reflexivity.
  - destruct (Qle_bool (by_ x) (by_ h)).
    + reflexivity.
    + rewrite IH. apply perm_swap.
Qed.

Lemma sort_values_perm (l : list A) : Permutation (sort_values by_ l) l.
Proof.
  induction l as [|h t IH]; simpl.
  - reflexivity.
  - rewrite insert_by_perm. now constructor.
Qed.

Lemma insert_by_ascending x (l : list A) :
  ascending_by by_ l -> ascending_by by_ (insert_by by_ x l).
Proof.
  unfold ascending_by.
  induction 1 as [|h t Ht IH Hh]; simpl.
  - repeat constructor.
  - destruct (Qle_bool (by_ x) (by_ h)) eqn:E.
    + apply Qle_bool_iff in E.
      constructor; [now constructor|].
      constructor; [assumption|].
      rewrite Forall_forall in *. intros y Hy.
      apply Qle_trans with (by_ h); auto.
    + assert (Hlt : by_ h <= by_ x).
      { apply Qlt_le_weak, Qnot_le_lt. intros C.
        apply Qle_bool_iff in C. congruence. }
      constructor; [assumption|].
      rewrite Forall_forall in *. intros y Hy.
      apply (Permutation_in _ (insert_by_perm x t)) in Hy.
      destruct Hy as [->|Hy]; auto.
Qed.

Lemma sort_values_ascending (l : list A) :
  ascending_by by_ (sort_values by_ l).
Proof.
  induction l as [|h t IH]; simpl.
  - constructor.
  - now apply insert_by_ascending.
Qed.

End SortFacts.

(** ** The error monad of [load_data] *)

Lemma mapM_Ok {A B} (f : A -> result B) (l : list A) :
  forall l', mapM f l = Ok l' <-> Forall2 (fun a b => f a = Ok b) l l'.
Proof.
  induction l as [|a t IH]; simpl; intros l'.
  - split.
    + intros [= <-]. constructor.
    + intros H. inversion H. reflexivity.
  - split.
    + destruct (f a) as [b|s] eqn:Ea; simpl; [|discriminate].
      destruct (mapM f t) as [bs|s] eqn:Et; simpl; [|discriminate].
      intros [= <-]. constructor; [assumption|]. now apply IH.
    + intros H. inversion H as [|? b ? bs Hab Hbs]; subst.
      rewrite Hab. simpl. apply IH in Hbs. rewrite Hbs. reflexivity.
Qed.

Lemma mapM_Raise {A B} (f : A -> result B) (l : list A) s :
  mapM f l = Raise s -> exists a, In a l /\ f a = Raise s.
Proof.
  induction l as [|a t IH]; simpl; [discriminate|].
  destruct (f a) as [b|s'] eqn:Ea; simpl.
  - destruct (mapM f t) as [bs|s'] eqn:Et; simpl; [discriminate|].
    intros [= ->]. destruct (IH eq_refl) as [a' [Hin Ha']]. eauto.
  - intros [= ->]. eauto.
Qed.

Lemma mapM_total {A B} (f : A -> result B) (l : list A) :
  (forall a, In a l -> exists b, f a = Ok b) -> exists l', mapM f l = Ok l'.
Proof.
  induction l as [|a t IH]; simpl; intros H.
  - eauto.
  - destruct (H a) as [b Hb]; [now left|]. rewrite Hb. simpl.
    destruct IH as [bs Hbs]; [intros; apply H; now right|].
    rewrite Hbs. simpl. eauto.
Qed.

Lemma mapM_fails {A B} (f : A -> result B) (l : list A) a s :
  In a l -> f a = Raise s -> exists s', mapM f l = Raise s'.
Proof.
  induction l as [|h t IH]; simpl; intros Hin Ha; [contradiction|].
  destruct (f h) as [b|s'] eqn:Eh; simpl; [|eauto].
  destruct Hin as [->|Hin]; [congruence|].
  destruct (IH Hin Ha) as [s' Hs']. rewrite Hs'. simpl. eauto.
Qed.

Lemma Forall2_length_eq {A B} (P : A -> B -> Prop) l l' :
  Forall2 P l l' -> List.length l = List.length l'.
Proof. induction 1; simpl; congruence. Qed.

(** ** The regular expression removes exactly the two characters *)

Lemma replace_class_stripped (s : pystr) : replace_class s = stripped s.
Proof.
  unfold stripped. induction s as [|c t IH]; simpl; [reflexivity|].
  unfold in_class. rewrite IH.
  destruct (c =? YEN)%N, (c =? COMMA)%N; reflexivity.
Qed.

Lemma stripped_spec (s : pystr) c :
  In c (stripped s) <-> In c s /\ c <> YEN /\ c <> COMMA.
Proof.
  unfold stripped. rewrite filter_In, andb_true_iff, !negb_true_iff.
  rewrite !N.eqb_neq. tauto.
Qed.

Lemma coerce_amount_spec (c : cell) : coerce_amount c = amount_of_text c.
Proof.
  unfold coerce_amount, amount_of_text.
  rewrite replace_class_stripped. now destruct (to_numeric _).
Qed.

Lemma norm_log_Ok (to_datetime : pystr -> option date) r n :
  norm_log to_datetime r = Ok n ->
  amount n = coerce_amount (raw_amount r) /\ item n = raw_item r /\
  desc n = raw_desc r /\ flow n = raw_flow r.
Proof.
  unfold norm_log. destruct (parse_date_cell _ _); simpl; [|discriminate].
  intros [= <-]. simpl. auto.
Qed.

Lemma norm_budget_Ok (to_datetime : pystr -> option date) r n :
  norm_budget to_datetime r = Ok n ->
  b_amount n = coerce_amount (rawb_amount r) /\ b_item n = rawb_item r.
Proof.
  unfold norm_budget. destruct (parse_date_cell _ _); simpl; [|discriminate].
  intros [= <-]. simpl. auto.
Qed.

Lemma load_data_Ok (to_datetime : pystr -> option date) df_logs df_budget
    logs budget :
  load_data to_datetime df_logs df_budget = Ok (logs, budget) <->
  mapM (norm_log to_datetime) df_logs = Ok logs /\
  mapM (norm_budget to_datetime) df_budget = Ok budget.
Proof.
  unfold load_data.
  destruct (mapM (norm_log _) _) as [l|s]; simpl.
  - destruct (mapM (norm_budget _) _) as [b|s]; simpl.
    + split; [intros [= <- <-]; auto | intros [[= <-] [= <-]]; auto].
    + split; [discriminate | intros [_ H]; discriminate].
  - split; [discriminate | intros [H _]; discriminate].
Qed.

Lemma parse_date_cell_Raise (to_datetime : pystr -> option date) c s :
  parse_date_cell to_datetime c = Raise s <->
  c = Some s /\ to_datetime s = None.
Proof.
  unfold parse_date_cell. destruct c as [t|].
  - destruct (to_datetime t) eqn:E.
    + split; [discriminate | intros [[= ->] H]; congruence].
    + split; [intros [= ->]; auto | intros [[= ->] _]; reflexivity].
  - split; [discriminate | intros [H _]; discriminate].
Qed.

Lemma norm_log_Raise (to_datetime : pystr -> option date) r s :
  norm_log to_datetime r = Raise s <->
  raw_date r = Some s /\ to_datetime s = None.
Proof.
  rewrite <- parse_date_cell_Raise. unfold norm_log.
  destruct (parse_date_cell _ _); simpl; split; congruence.
Qed.

Lemma norm_budget_Raise (to_datetime : pystr -> option date) r s :
  norm_budget to_datetime r = Raise s <->
  rawb_year_month r = Some s /\ to_datetime s = None.
Proof.
  rewrite <- parse_date_cell_Raise. unfold norm_budget.
  destruct (parse_date_cell _ _); simpl; split; congruence.
Qed.

Lemma norm_log_total (to_datetime : pystr -> option date) r :
  (forall s, raw_date r = Some s -> to_datetime s <> None) ->
  exists n, norm_log to_datetime r = Ok n.
Proof.
  intros H. destruct (norm_log to_datetime r) as [n|s] eqn:E; [eauto|].
  apply norm_log_Raise in E. destruct E as [E1 E2].
  now apply H in E1.
Qed.

Lemma norm_budget_total (to_datetime : pystr -> option date) r :
  (forall s, rawb_year_month r = Some s -> to_datetime s <> None) ->
  exists n, norm_budget to_datetime r = Ok n.
Proof.
  intros H. destruct (norm_budget to_datetime r) as [n|s] eqn:E; [eauto|].
  apply norm_budget_Raise in E. destruct E as [E1 E2].
  now apply H in E1.
Qed.

Lemma load_data_Raise (to_datetime : pystr -> option date) df_logs df_budget
    s :
  load_data to_datetime df_logs df_budget = Raise s ->
  to_datetime s = None /\
  ((exists r, In r df_logs /\ raw_date r = Some s) \/
   (exists r, In r df_budget /\ rawb_year_month r = Some s)).
Proof.
  unfold load_data.
  destruct (mapM (norm_log _) _) as [l|s1] eqn:E1; simpl.
  - destruct (mapM (norm_budget _) _) as [b|s2] eqn:E2; simpl;
      [discriminate|].
    intros [= ->]. apply mapM_Raise in E2. destruct E2 as [r [Hin Hr]].
    apply norm_budget_Raise in Hr. destruct Hr. eauto.
  - intros [= ->]. apply mapM_Raise in E1. destruct E1 as [r [Hin Hr]].
    apply norm_log_Raise in Hr. destruct Hr. eauto.
Qed.

(** ** The numeric reader: sign of the result *)





(** The mantissa, the digit count and the rest, as [to_numeric] names
    them. *)
Lemma to_numeric_unfold (s : pystr) :
  to_numeric s =
  let neg := fst (read_sign (skip_space s)) in
  let s1 := snd (read_sign (skip_space s)) in
  let m1 := fst (fst (read_digits s1 0 0)) in
  let n1 := snd (fst (read_digits s1 0 0)) in
  let s2 := snd (read_digits s1 0 0) in
  let m2 := fst (fst (read_fraction s2 m1)) in
  let n2 := snd (fst (read_fraction s2 m1)) in
  let s3 := snd (read_fraction s2 m1) in
  match (n1 + n2)%nat with
  | O => None
  | S _ =>
      match read_exponent s3 with
      | None => None
      | Some (e, s4) =>
          match skip_space s4 with
          | [] =>
              let v := scale10 m2 (e - Z.of_nat n2) in
              Some (if neg then - v else v)
          | _ :: _ => None
          end
      end
  end.
Proof.
  unfold to_numeric.
  destruct (read_sign (skip_space s)) as [neg s1]. simpl.
  destruct (read_digits s1 0 0) as [[m1 n1] s2]. simpl.
  destruct (read_fraction s2 m1) as [[m2 n2] s3]. reflexivity.
Qed.


(** A minus sign in front of an unsigned decimal negates its value. *)
Lemma to_numeric_minus (t : pystr) :
  starts_unsigned t = true ->
  to_numeric (MINUS :: t) = option_map Qopp (to_numeric t).
Proof.
  intros Ht. rewrite !to_numeric_unfold.
  change (skip_space (MINUS :: t)) with (MINUS :: t).
  change (read_sign (MINUS :: t)) with (true, t).
  assert (Hs : read_sign (skip_space t) = (false, t)).
  { destruct t as [|c t']; [discriminate|].
    unfold starts_unsigned, is_digit in Ht.
    assert (Hsp : is_space c = false).
    { unfold is_space. apply orb_true_iff in Ht.
      rewrite andb_true_iff, !N.leb_le, N.eqb_eq in Ht.
      unfold DOT in Ht.
      destruct (c =? 32)%N eqn:E1; [apply N.eqb_eq in E1; lia|].
      destruct (9 <=? c)%N eqn:E2, (c <=? 13)%N eqn:E3; try reflexivity.
      apply N.leb_le in E2, E3. lia. }
    simpl. rewrite Hsp. simpl.
    apply orb_true_iff in Ht.
    rewrite andb_true_iff, !N.leb_le, N.eqb_eq in Ht.
    unfold DOT, MINUS, PLUS in *.
    destruct (c =? 45)%N eqn:E1; [apply N.eqb_eq in E1; lia|].
    destruct (c =? 43)%N eqn:E2; [apply N.eqb_eq in E2; lia|].
    reflexivity. }
  rewrite Hs. cbn [fst snd]. cbv zeta.
  destruct (_ + _)%nat; [reflexivity|].
  destruct (read_exponent _) as [[e s4]|]; [|reflexivity].
  destruct (skip_space s4); reflexivity.
Qed.

(** ** The numeric reader on decimal numerals *)

Lemma read_digits_run (ds rest : pystr) :
  all_digits ds = true ->
  match rest with
  | c :: _ => is_digit c = false
  | [] => True
  end ->
  forall acc n,
    read_digits (ds ++ rest) acc n
    = (fold_left (fun a c => (10 * a + digit_val c)%Z) ds acc,
       (n + List.length ds)%nat, rest).
Proof.
  unfold all_digits.
  induction ds as [|c t IH]; cbn [forallb app]; intros Hd Hr acc n.
  - cbn [fold_left List.length]. rewrite Nat.add_0_r.
    destruct rest as [|c r]; cbn [read_digits]; [reflexivity|].
    now rewrite Hr.
  - apply andb_true_iff in Hd. destruct Hd as [Hc Ht].
    cbn [read_digits]. rewrite Hc, (IH Ht Hr).
    cbn [fold_left List.length]. now rewrite Nat.add_succ_r.
Qed.

Lemma digit_not_in_class c : is_digit c = true -> in_class c = false.
Proof.
  unfold is_digit, in_class, YEN, COMMA.
  rewrite andb_true_iff, !N.leb_le. intros [H1 H2].
  apply orb_false_iff. split; apply N.eqb_neq; lia.
Qed.

Lemma replace_class_digits (ds : pystr) :
  all_digits ds = true -> replace_class ds = ds.
Proof.
  unfold all_digits.
  induction ds as [|c t IH]; cbn [forallb replace_class]; intros H;
    [reflexivity|].
  apply andb_true_iff in H. destruct H as [Hc Ht].
  now rewrite (digit_not_in_class _ Hc), (IH Ht).
Qed.

Lemma replace_class_app (s t : pystr) :
  replace_class (s ++ t) = replace_class s ++ replace_class t.
Proof.
  induction s as [|c s IH]; cbn [app replace_class]; [reflexivity|].
  destruct (in_class c); cbn [app]; now rewrite IH.
Qed.

Lemma replace_class_decimal (ip fp : pystr) :
  all_digits ip = true -> all_digits fp = true ->
  replace_class (decimal_text ip fp) = decimal_text ip fp.
Proof.
  intros Hi Hf. unfold decimal_text.
  rewrite replace_class_app, (replace_class_digits _ Hi).
  destruct fp as [|c t]; [reflexivity|].
  change (replace_class (DOT :: c :: t)) with (DOT :: replace_class (c :: t)).
  now rewrite (replace_class_digits _ Hf).
Qed.

Lemma decimal_text_unsigned (ip fp : pystr) :
  ip <> [] -> all_digits ip = true ->
  starts_unsigned (decimal_text ip fp) = true.
Proof.
  destruct ip as [|c t]; [congruence|]. intros _ H.
  unfold all_digits in H. cbn [forallb] in H.
  apply andb_true_iff in H. destruct H as [Hc _].
  unfold decimal_text, starts_unsigned. cbn [app]. now rewrite Hc.
Qed.

Lemma unsigned_no_space_no_sign (s : pystr) :
  starts_unsigned s = true -> read_sign (skip_space s) = (false, s).
Proof.
  destruct s as [|c t]; [discriminate|].
  unfold starts_unsigned, is_digit, is_space, DOT. intros H.
  apply orb_true_iff in H. rewrite andb_true_iff, !N.leb_le, N.eqb_eq in H.
  cbn [skip_space]. unfold is_space.
  destruct (c =? 32)%N eqn:E1; [apply N.eqb_eq in E1; lia|].
  destruct ((9 <=? c)%N && (c <=? 13)%N) eqn:E2.
  { apply andb_true_iff in E2. rewrite !N.leb_le in E2. lia. }
  cbn [orb read_sign]. unfold MINUS, PLUS.
  destruct (c =? 45)%N eqn:E3; [apply N.eqb_eq in E3; lia|].
  destruct (c =? 43)%N eqn:E4; [apply N.eqb_eq in E4; lia|].
  reflexivity.
Qed.

Lemma scale10_value (m : Z) (k : nat) :
  scale10 m (0 - Z.of_nat k) == inject_Z m / inject_Z (10 ^ Z.of_nat k).
Proof.
  unfold scale10. rewrite Qred_correct.
  assert (Hp : (0 < 10 ^ Z.of_nat k)%Z) by (apply Z.pow_pos_nonneg; lia).
  destruct (0 <=? 0 - Z.of_nat k)%Z eqn:E.
  - apply Z.leb_le in E. assert (k = O) by lia. subst k. simpl.
    rewrite Z.mul_1_r. unfold Qdiv, Qinv. simpl. ring.
  - replace (- (0 - Z.of_nat k))%Z with (Z.of_nat k) by lia.
    rewrite Qmake_Qdiv. now rewrite Z2Pos.id.
Qed.

(** The reader gives a decimal numeral its value. *)
Lemma to_numeric_decimal (ip fp : pystr) :
  ip <> [] -> all_digits ip = true -> all_digits fp = true ->
  exists q, to_numeric (decimal_text ip fp) = Some q
            /\ q == decimal_value ip fp.
Proof.
  intros Hne Hi Hf.
  exists (scale10 (digits_value (ip ++ fp)) (0 - Z.of_nat (List.length fp))).
  split; [|apply scale10_value].
  rewrite to_numeric_unfold.
  rewrite (unsigned_no_space_no_sign _ (decimal_text_unsigned fp Hne Hi)).
  cbn [fst snd]. cbv zeta. unfold decimal_text.
  set (rest := match fp with [] => [] | _ :: _ => DOT :: fp end).
  rewrite (read_digits_run ip rest Hi)
    by (subst rest; destruct fp; [exact I | reflexivity]).
  cbn [fst snd].
  assert (Hfrac :
    read_fraction rest
                  (fold_left (fun a c => (10 * a + digit_val c)%Z) ip 0%Z)
    = (digits_value (ip ++ fp), List.length fp, [])).
  { subst rest. unfold digits_value. rewrite fold_left_app.
    destruct fp as [|c t]; [reflexivity|].
    unfold read_fraction. rewrite N.eqb_refl.
    rewrite <- (app_nil_r (c :: t)) at 1.
    now rewrite (read_digits_run (c :: t) [] Hf I). }
  rewrite Hfrac. cbn [fst snd].
  destruct ip as [|c t]; [congruence|]. reflexivity.
Qed.

(** The coercion of the yen sign, a minus sign and a text that reads as
    [q] is [- q]. *)
Lemma coerce_amount_minus (t : pystr) (q : Q) :
  starts_unsigned (stripped t) = true ->
  to_numeric (stripped t) = Some q ->
  coerce_amount (Some (YEN :: MINUS :: t)) = - q.
Proof.
  intros Hu Hq. unfold coerce_amount. cbn [astype_str].
  change (replace_class (YEN :: MINUS :: t)) with (MINUS :: replace_class t).
  rewrite replace_class_stripped, to_numeric_minus by assumption.
  rewrite Hq. reflexivity.
Qed.

(** Line 25 does to a cell what its description says. *)
Lemma coerce_amount_coerced (text : cell) : coerced text (coerce_amount text).
Proof.
  rewrite coerce_amount_spec. unfold coerced, amount_of_text.
  split; [reflexivity|]. split.
  - intros E. now rewrite E.
  - intros ip fp Hne Hip Hfp E. rewrite E.
    destruct (to_numeric_decimal fp Hne Hip Hfp) as (q & -> & Hq).
    exact Hq.
Qed.


(** ** Sums over the keys of a join *)

Section CoverFacts.

Variable K : Type.
Variable cmp : K -> K -> comparison.
Hypothesis laws : compare_laws cmp.

(** Summing, over an ascending list of keys that covers the groups of
    [m], what [lookup] finds (and 0 where it finds nothing) gives the sum
    of the groups. *)
Lemma sum_lookup_cover (U : list K) :
  ascending cmp U ->
  forall m : list (K * Q),
    ascending cmp (map fst m) ->
    (forall k, In k (map fst m) -> In k U) ->
    col_sum (map (fun k => fillna0 (lookup cmp k m)) U) = col_sum (map snd m).
Proof.
  unfold ascending.
  induction 1 as [|u U' HU' IH Hu]; intros m Hm Hin.
  - destruct m as [|[h w] t]; [reflexivity|].
    destruct (Hin h); now left.
  - rewrite Forall_forall in Hu.
    assert (Hirr : forall a, cmp a a = Lt -> False).
    { intros a C. rewrite (cmp_refl laws) in C. discriminate. }
    destruct m as [|[h w] t].
    + cbn [map]. rewrite col_sum_cons, (IH []); [|constructor|intros k []].
      apply Qplus_0_l_eq.
    + inversion Hm as [|? ? Ht Hh]; subst.
      pose proof Hh as Hh'. rewrite Forall_forall in Hh'.
      cbn [map]. rewrite !col_sum_cons. cbn [lookup fst snd].
      destruct (cmp u h) eqn:E.
      * apply (cmp_eq laws) in E. subst h. cbn [fillna0]. f_equal.
        rewrite <- (IH t Ht).
        -- f_equal. apply map_ext_in. intros k Hk.
           cbn [lookup]. rewrite (cmp_Lt_Gt laws _ _ (Hu _ Hk)). reflexivity.
        -- intros k Hk. destruct (Hin k) as [<-|Hk']; [now right| |assumption].
           exfalso. apply (Hirr u). now apply Hh'.
      * rewrite (lookup_below laws _ _ _ E Hh). cbn [fillna0].
        rewrite Qplus_0_l_eq, <- col_sum_cons.
        change (w :: map snd t) with (map snd ((h, w) :: t)).
        rewrite <- (IH ((h, w) :: t) Hm).
        -- reflexivity.
        -- intros k Hk. destruct (Hin k Hk) as [<-|Hk']; [|assumption].
           exfalso. destruct Hk as [Hk|Hk]; simpl in Hk.
           ++ subst h. now apply (Hirr u).
           ++ apply (Hirr u). apply (cmp_trans laws) with h; auto.
      * exfalso. apply (cmp_Gt_Lt laws) in E.
        destruct (Hin h) as [<-|Hk']; [now left | now apply (Hirr u) |].
        apply (Hirr u). apply (cmp_trans laws) with h; auto.
Qed.

End CoverFacts.

Lemma col_sum_split {A} (p : A -> bool) (f : A -> Q) (l : list A) :
  col_sum (map f l)
  = col_sum (map f (filter p l))
    + col_sum (map f (filter (fun a => negb (p a)) l)).
Proof.
  induction l as [|a l IH]; simpl.
  - rewrite col_sum_nil. now rewrite Qplus_0_l_eq.
  - destruct (p a); simpl; rewrite !col_sum_cons, IH; aac_reflexivity.
Qed.

Lemma filter_perm {A} (p : A -> bool) (l1 l2 : list A) :
  Permutation l1 l2 -> Permutation (filter p l1) (filter p l2).
Proof.
  induction 1 as [|x l1 l2 _ IH|x y l| l1 l2 l3 _ IH1 _ IH2]; simpl.
  - constructor.
  - destruct (p x); [now constructor | assumption].
  - destruct (p x), (p y); try reflexivity. apply perm_swap.
  - now transitivity (filter p l2).
Qed.

Lemma filter_all_true {A} (p : A -> bool) (l : list A) :
  (forall a, In a l -> p a = true) -> filter p l = l.
Proof.
  induction l as [|a l IH]; simpl; intros H; [reflexivity|].
  rewrite (H a) by now left. f_equal. apply IH. intros; apply H; now right.
Qed.

Lemma filter_all_false {A} (p : A -> bool) (l : list A) :
  (forall a, In a l -> p a = false) -> filter p l = [].
Proof.
  induction l as [|a l IH]; simpl; intros H; [reflexivity|].
  rewrite (H a) by now left. apply IH. intros; apply H; now right.
Qed.

(** ** The reconciliation table *)

(** The row that the join, [fillna(0)] and the difference column build
    for category [k]. *)
Lemma summary_unsorted_rows (month_budget : list budget_row)
    (month_logs : list log_row) :
  summary_unsorted month_budget month_logs
  = map (fun k =>
           let b := fillna0 (lookup str_compare k
                               (budget_by_item month_budget)) in
           let a := fillna0 (lookup str_compare k
                               (actual_by_item month_logs)) in
           {| s_item := k; s_budget := b; s_actual := a; s_diff := b - a |})
        (unique_sorted str_compare
           (map fst (budget_by_item month_budget)
            ++ map fst (actual_by_item month_logs))).
Proof.
  unfold summary_unsorted, merge_outer. rewrite map_map. reflexivity.
Qed.

Lemma summary_unsorted_items (month_budget : list budget_row)
    (month_logs : list log_row) :
  map s_item (summary_unsorted month_budget month_logs)
  = unique_sorted str_compare
      (map fst (budget_by_item month_budget)
       ++ map fst (actual_by_item month_logs)).
Proof.
  rewrite summary_unsorted_rows, map_map. simpl. apply map_id.
Qed.

Lemma summary_rows (month_budget : list budget_row)
    (month_logs : list log_row) :
  map fst (summary month_budget month_logs)
  = summary_sorted month_budget month_logs.
Proof. unfold summary. rewrite map_map. simpl. apply map_id. Qed.

Lemma summary_sorted_perm (month_budget : list budget_row)
    (month_logs : list log_row) :
  Permutation (summary_sorted month_budget month_logs)
              (summary_unsorted month_budget month_logs).
Proof. apply sort_values_perm. Qed.

Lemma In_summary_sorted (month_budget : list budget_row)
    (month_logs : list log_row) row :
  In row (summary_sorted month_budget month_logs) <->
  (In (s_item row) (map fst (budget_by_item month_budget)) \/
   In (s_item row) (map fst (actual_by_item month_logs)))
  /\ s_budget row
     = fillna0 (lookup str_compare (s_item row) (budget_by_item month_budget))
  /\ s_actual row
     = fillna0 (lookup str_compare (s_item row) (actual_by_item month_logs))
  /\ s_diff row = s_budget row - s_actual row.
Proof.
  split.
  - intros H. apply (Permutation_in _ (summary_sorted_perm _ _)) in H.
    rewrite summary_unsorted_rows in H. apply in_map_iff in H.
    destruct H as (k & <- & Hk). simpl.
    rewrite (In_unique_sorted str_compare_laws) in Hk.
    apply in_app_iff in Hk. auto.
  - intros (Hk & Hb & Ha & Hd).
    apply (Permutation_in _ (Permutation_sym (summary_sorted_perm _ _))).
    rewrite summary_unsorted_rows. apply in_map_iff.
    exists (s_item row). split.
    + destruct row as [k b a d]. simpl in *. subst. reflexivity.
    + apply (In_unique_sorted str_compare_laws). apply in_app_iff. exact Hk.
Qed.

(** A group sum with 0 for a missing group is the sum over the rows of
    that group. *)
Lemma fillna0_lookup_groupby {R} (key : R -> option pystr) (val : R -> Q)
    (k : pystr) (rows : list R) :
  fillna0 (lookup str_compare k (groupby_sum str_compare key val rows))
  = col_sum (map val (filter (key_is str_compare key k) rows)).
Proof.
  rewrite (lookup_groupby_sum str_compare_laws).
  now destruct (filter _ rows).
Qed.

(** ** Guard of the percentage, and the empty month *)

Lemma Qltb_lt (x y : Q) : Qltb x y = true <-> x < y.
Proof.
  unfold Qltb. rewrite negb_true_iff. split.
  - intros H. apply Qnot_le_lt. intros C. apply Qle_bool_iff in C.
    congruence.
  - intros H. destruct (Qle_bool y x) eqn:E; [|reflexivity].
    apply Qle_bool_iff in E. exfalso. now apply (Qlt_not_le x y).
Qed.

Lemma month_logs_absent (df_logs : list log_row) (selected_month : pystr) :
  ~ In (Some selected_month) (map year_month df_logs) ->
  month_logs df_logs selected_month = [].
Proof.
  intros H. apply filter_all_false. intros r Hr.
  destruct (cell_eqb (year_month r) selected_month) eqn:E; [|reflexivity].
  apply cell_eqb_eq in E. exfalso. apply H. rewrite <- E. now apply in_map.
Qed.

Lemma month_budget_absent (df_budget : list budget_row)
    (selected_month : pystr) :
  ~ In (Some selected_month) (map b_year_month df_budget) ->
  month_budget df_budget selected_month = [].
Proof.
  intros H. apply filter_all_false. intros r Hr.
  destruct (cell_eqb (b_year_month r) selected_month) eqn:E; [|reflexivity].
  apply cell_eqb_eq in E. exfalso. apply H. rewrite <- E. now apply in_map.
Qed.

(** ** The trend pivot *)

Lemma trend_key_Some (r : log_row) ym f :
  trend_key r = Some (ym, f) <-> year_month r = Some ym /\ flow r = Some f.
Proof.
  unfold trend_key. destruct (year_month r), (flow r); split;
    try discriminate; try (intros [H1 H2]; congruence).
  intros [= -> ->]. auto.
Qed.

Lemma key_is_trend (r : log_row) ym f :
  key_is pair_compare trend_key (ym, f) r = true <->
  year_month r = Some ym /\ flow r = Some f.
Proof.
  rewrite <- trend_key_Some. unfold key_is.
  destruct (trend_key r) as [k|]; [|split; discriminate].
  destruct (pair_compare (ym, f) k) eqn:E.
  - apply (cmp_eq pair_compare_laws) in E. subst. tauto.
  - split; [discriminate|]. intros [= ->].
    rewrite (cmp_refl pair_compare_laws) in E. discriminate.
  - split; [discriminate|]. intros [= ->].
    rewrite (cmp_refl pair_compare_laws) in E. discriminate.
Qed.

Lemma In_trend_groups (df_logs : list log_row) ym f :
  In (ym, f) (map fst (trend_groups df_logs)) <->
  exists r, In r df_logs /\ year_month r = Some ym /\ flow r = Some f.
Proof.
  unfold trend_groups. rewrite (keys_groupby_sum pair_compare_laws).
  split; intros (r & Hin & Hr); exists r; split; auto;
    now apply trend_key_Some.
Qed.

Lemma trend_cell (df_logs : list log_row) ym c :
  fillna0 (lookup pair_compare (ym, c) (trend_groups df_logs))
  = col_sum (map amount
               (filter (key_is pair_compare trend_key (ym, c)) df_logs)).
Proof.
  unfold trend_groups. rewrite (lookup_groupby_sum pair_compare_laws).
  now destruct (filter _ df_logs).
Qed.

Lemma column_index_Some (c : pystr) (cols : list pystr) :
  In c cols -> exists j, column_index c cols = Some j
                         /\ forall (g : pystr -> Q), nth j (map g cols) 0 = g c.
Proof.
  induction cols as [|h t IH]; simpl; intros H; [contradiction|].
  destruct (str_eqb c h) eqn:E.
  - apply str_eqb_eq in E. subst. exists O. auto.
  - destruct IH as (j & Hj & Hn).
    + destruct H as [->|H]; [|assumption].
      rewrite (proj2 (str_eqb_eq c c) eq_refl) in E. discriminate.
    + exists (S j). rewrite Hj. auto.
Qed.

Lemma column_index_None (c : pystr) (cols : list pystr) :
  ~ In c cols -> column_index c cols = None.
Proof.
  induction cols as [|h t IH]; simpl; intros H; [reflexivity|].
  destruct (str_eqb c h) eqn:E.
  - apply str_eqb_eq in E. subst. exfalso. apply H. now left.
  - rewrite IH; [reflexivity|]. intros C. apply H. now right.
Qed.

(** Two strictly ascending lists with the same members are the same
    list. *)
Lemma ascending_ext {K} (cmp : K -> K -> comparison)
    (laws : compare_laws cmp) (l1 : list K) :
  forall l2, ascending cmp l1 -> ascending cmp l2 ->
             (forall x, In x l1 <-> In x l2) -> l1 = l2.
Proof.
  assert (Hirr : forall a, cmp a a = Lt -> False).
  { intros a C. rewrite (cmp_refl laws) in C. discriminate. }
  unfold ascending.
  induction l1 as [|a t1 IH]; intros l2 H1 H2 Hm.
  - destruct l2 as [|b t2]; [reflexivity|].
    destruct (proj2 (Hm b)). now left.
  - destruct l2 as [|b t2]; [destruct (proj1 (Hm a)); now left|].
    inversion H1 as [|? ? Ht1 Ha]; subst.
    inversion H2 as [|? ? Ht2 Hb]; subst.
    rewrite Forall_forall in Ha, Hb.
    assert (E : a = b).
    { destruct (proj1 (Hm a)) as [E|Hin]; [now left | now symmetry|].
      destruct (proj2 (Hm b)) as [E|Hin']; [now left | assumption|].
      exfalso. apply (Hirr a).
      apply (cmp_trans laws) with b; auto. }
    subst b. f_equal. apply IH; try assumption.
    intros x. split; intros Hx.
    + destruct (proj1 (Hm x)) as [E|Hin]; [now right| |assumption].
      subst x. exfalso. apply (Hirr a). auto.
    + destruct (proj2 (Hm x)) as [E|Hin]; [now right| |assumption].
      subst x. exfalso. apply (Hirr a). auto.
Qed.

(** ** Totals and the reconciliation table *)

(** Column sums of the reconciliation table. *)
Lemma sum_actual_column (month_budget : list budget_row)
    (month_logs : list log_row) :
  col_sum (map s_actual (summary_sorted month_budget month_logs))
  = col_sum (map amount
               (filter (keyed item) (filter is_expense month_logs))).
Proof.
  rewrite (col_sum_perm
             (Permutation_map s_actual
                (summary_sorted_perm month_budget month_logs))).
  rewrite summary_unsorted_rows, map_map. cbn [s_actual].
  rewrite (sum_lookup_cover str_compare_laws).
  - apply (sum_groupby_sum str_compare_laws).
  - apply (unique_sorted_ascending str_compare_laws).
  - apply (groupby_sum_ascending str_compare_laws).
  - intros k Hk. apply (In_unique_sorted str_compare_laws).
    apply in_app_iff. now right.
Qed.

Lemma sum_budget_column (month_budget : list budget_row)
    (month_logs : list log_row) :
  col_sum (map s_budget (summary_sorted month_budget month_logs))
  = col_sum (map b_amount (filter (keyed b_item) month_budget)).
Proof.
  rewrite (col_sum_perm
             (Permutation_map s_budget
                (summary_sorted_perm month_budget month_logs))).
  rewrite summary_unsorted_rows, map_map. cbn [s_budget].
  rewrite (sum_lookup_cover str_compare_laws).
  - apply (sum_groupby_sum str_compare_laws).
  - apply (unique_sorted_ascending str_compare_laws).
  - apply (groupby_sum_ascending str_compare_laws).
  - intros k Hk. apply (In_unique_sorted str_compare_laws).
    apply in_app_iff. now left.
Qed.

Lemma total_spent_and_actual (month_budget : list budget_row)
    (month_logs : list log_row) :
  let actual := map s_actual (map fst (summary month_budget month_logs)) in
  total_spent month_logs
  = col_sum actual
    + col_sum (map amount
                 (filter (fun r => negb (keyed item r))
                         (filter is_expense month_logs)))
  /\ ((forall r, In r month_logs -> is_expense r = true -> item r <> None)
      -> total_spent month_logs = col_sum actual).
Proof.
  intros actual. subst actual.
  rewrite summary_rows, sum_actual_column. unfold total_spent. split.
  - apply col_sum_split.
  - intros Hall. f_equal. f_equal. symmetry. apply filter_all_true.
    intros r Hr. apply filter_In in Hr. destruct Hr as [Hin He].
    unfold keyed. specialize (Hall r Hin He). now destruct (item r).
Qed.

Lemma summary_perm (month_budget month_budget' : list budget_row)
    (month_logs month_logs' : list log_row) :
  Permutation month_budget month_budget' ->
  Permutation month_logs month_logs' ->
  summary month_budget month_logs = summary month_budget' month_logs'.
Proof.
  intros Hb Hl.
  unfold summary, summary_sorted, summary_unsorted.
  unfold budget_by_item, actual_by_item.
  rewrite (groupby_sum_perm str_compare_laws b_item b_amount Hb).
  rewrite (groupby_sum_perm str_compare_laws item amount
             (filter_perm is_expense Hl)).
  reflexivity.
Qed.

(** ** float64 on whole numbers

    Addition, subtraction, comparison and [int()] of float64 are exact
    on the integers below 2^53 in absolute value. *)

Lemma iter_xO_Z (j m : positive) :
  Zpos (Pos.iter xO m j) = (Zpos m * 2 ^ Zpos j)%Z.
Proof.
  induction j as [|j IH] using Pos.peano_ind.
  - change (2 ^ 1)%Z with 2%Z. simpl Pos.iter. lia.
  - rewrite Pos.iter_succ, (Pos2Z.inj_xO (Pos.iter xO m j)), IH, Pos2Z.inj_succ.
    rewrite Z.pow_succ_r by apply Pos2Z.is_nonneg. ring.
Qed.

Lemma digits2_iter_xO (j m : positive) :
  digits2_pos (Pos.iter xO m j) = (digits2_pos m + j)%positive.
Proof.
  induction j as [|j IH] using Pos.peano_ind.
  - simpl. now rewrite Pos.add_1_r.
  - rewrite Pos.iter_succ. simpl. rewrite IH. lia.
Qed.

Lemma digits2_bounds (p : positive) :
  (2 ^ (Zpos (digits2_pos p) - 1) <= Zpos p < 2 ^ Zpos (digits2_pos p))%Z.
Proof.
  induction p as [p IH|p IH|]; simpl digits2_pos.
  - rewrite Pos2Z.inj_succ, (Pos2Z.inj_xI p).
    replace (Z.succ (Zpos (digits2_pos p)) - 1)%Z
      with (Z.succ (Zpos (digits2_pos p) - 1))%Z by lia.
    rewrite !Z.pow_succ_r by lia. lia.
  - rewrite Pos2Z.inj_succ, (Pos2Z.inj_xO p).
    replace (Z.succ (Zpos (digits2_pos p)) - 1)%Z
      with (Z.succ (Zpos (digits2_pos p) - 1))%Z by lia.
    rewrite !Z.pow_succ_r by lia. lia.
  - simpl. lia.
Qed.

Lemma digits2_small (p : positive) :
  (Zpos p < 2 ^ 53)%Z -> (Zpos (digits2_pos p) <= 53)%Z.
Proof.
  intros H. destruct (digits2_bounds p) as [Hlo _].
  destruct (Z_le_gt_dec (Zpos (digits2_pos p)) 53) as [|Hgt]; [assumption|].
  exfalso.
  assert (2 ^ 53 <= 2 ^ (Zpos (digits2_pos p) - 1))%Z
    by (apply Z.pow_le_mono_r; lia).
  lia.
Qed.

Lemma iter_shr_1 (j c : positive) :
  iter_pos shr_1 j
    {| shr_m := Zpos (Pos.iter xO c j); shr_r := false; shr_s := false |}
  = {| shr_m := Zpos c; shr_r := false; shr_s := false |}.
Proof.
  revert c. induction j as [j IH|j IH|]; intros c; simpl.
  - now rewrite !IH.
  - now rewrite !IH.
  - reflexivity.
Qed.

Lemma round_aux_canonical (s : bool) (c : positive) (e : Z) :
  Zpos (digits2_pos c) = 53%Z -> (-1074 <= e <= 971)%Z ->
  binary_round_aux 53 1024 s (Zpos c) e loc_Exact = S754_finite s c e.
Proof.
  intros Hd He. unfold binary_round_aux, shr_fexp, fexp, emin.
  cbn [Zdigits2 shr_record_of_loc]. rewrite Hd.
  replace (Z.max (53 + e - 53) (3 - 1024 - 53) - e)%Z with 0%Z by lia.
  cbn [shr shr_m loc_of_shr_record round_nearest_even Zdigits2
       shr_record_of_loc].
  rewrite Hd.
  replace (Z.max (53 + e - 53) (3 - 1024 - 53) - e)%Z with 0%Z by lia.
  cbn [shr shr_m].
  replace (e <=? 1024 - 53)%Z with true; [reflexivity|].
  symmetry. apply Z.leb_le. lia.
Qed.

Lemma round_aux_shifted (s : bool) (c j : positive) (e : Z) :
  Zpos (digits2_pos c) = 53%Z -> (-1074 <= e)%Z -> (e + Zpos j <= 971)%Z ->
  binary_round_aux 53 1024 s (Zpos (Pos.iter xO c j)) e loc_Exact
  = S754_finite s c (e + Zpos j).
Proof.
  intros Hd Hlo Hhi. unfold binary_round_aux, shr_fexp, fexp, emin.
  cbn [Zdigits2 shr_record_of_loc]. rewrite digits2_iter_xO, Pos2Z.inj_add, Hd.
  replace (Z.max (53 + Zpos j + e - 53) (3 - 1024 - 53) - e)%Z
    with (Zpos j) by lia.
  cbn [shr]. rewrite iter_shr_1.
  cbn [shr_m loc_of_shr_record round_nearest_even Zdigits2
       shr_record_of_loc].
  rewrite Hd.
  replace (Z.max (53 + (e + Zpos j) - 53) (3 - 1024 - 53) - (e + Zpos j))%Z
    with 0%Z by lia.
  cbn [shr shr_m].
  replace (e + Zpos j <=? 1024 - 53)%Z with true; [reflexivity|].
  symmetry. apply Z.leb_le. lia.
Qed.

Lemma scaled_pos (p m : positive) (k : Z) :
  (0 <= k)%Z -> Zpos m = (Zpos p * 2 ^ k)%Z ->
  (k = 0%Z /\ m = p) \/ (exists j, k = Zpos j /\ m = Pos.iter xO p j).
Proof.
  intros Hk Hm. destruct k as [|j|j]; [left|right|lia].
  - split; [reflexivity|]. rewrite Z.pow_0_r, Z.mul_1_r in Hm.
    now injection Hm.
  - exists j. split; [reflexivity|].
    rewrite <- iter_xO_Z in Hm. now injection Hm.
Qed.

Lemma digits2_scaled (p m : positive) (k : Z) :
  (0 <= k)%Z -> Zpos m = (Zpos p * 2 ^ k)%Z ->
  Zpos (digits2_pos m) = (Zpos (digits2_pos p) + k)%Z.
Proof.
  intros Hk Hm.
  destruct (@scaled_pos p m k Hk Hm) as [[-> ->]|(j & -> & ->)].
  - lia.
  - rewrite digits2_iter_xO. lia.
Qed.

(** Rounding an integer below 2^53 that is written with [k] more binary
    places gives its canonical form: nothing is rounded away. *)
Lemma binary_round_scaled (s : bool) (p m c : positive) (k : Z) :
  (Zpos p < 2 ^ 53)%Z -> (0 <= k <= 1000)%Z ->
  Zpos m = (Zpos p * 2 ^ k)%Z ->
  Zpos c = (Zpos p * 2 ^ (53 - Zpos (digits2_pos p)))%Z ->
  binary_round 53 1024 s m (- k)
  = S754_finite s c (Zpos (digits2_pos p) - 53).
Proof.
  intros Hp Hk Hm Hc.
  assert (Hd := @digits2_small p Hp).
  assert (Hdm := @digits2_scaled p m k (proj1 Hk) Hm).
  assert (Hdc : Zpos (digits2_pos c) = 53%Z).
  { rewrite (@digits2_scaled p c (53 - Zpos (digits2_pos p))); lia. }
  set (d := Zpos (digits2_pos p)) in *.
  unfold binary_round, fexp, emin. rewrite Hdm.
  replace (Z.max (d + k + - k - 53) (3 - 1024 - 53))%Z with (d - 53)%Z by lia.
  unfold shl_align.
  destruct (d - 53 - - k)%Z as [|j|j] eqn:Ej.
  - assert (m = c) as ->.
    { assert (E : Zpos m = Zpos c) by (rewrite Hm, Hc; f_equal; f_equal; lia).
      now injection E. }
    replace (- k)%Z with (d - 53)%Z by lia.
    apply round_aux_canonical; lia.
  - assert (m = Pos.iter xO c j) as ->.
    { assert (E : Zpos m = Zpos (Pos.iter xO c j)).
      { rewrite iter_xO_Z, Hm, Hc, <- Z.mul_assoc, <- Z.pow_add_r by lia.
        f_equal. f_equal. lia. }
      now injection E. }
    replace (d - 53)%Z with (- k + Zpos j)%Z by lia.
    apply round_aux_shifted; lia.
  - assert (Pos.iter xO m j = c) as ->.
    { assert (E : Zpos (Pos.iter xO m j) = Zpos c).
      { rewrite iter_xO_Z, Hm, Hc, <- Z.mul_assoc, <- Z.pow_add_r by lia.
        f_equal. f_equal. lia. }
      now injection E. }
    apply round_aux_canonical; lia.
Qed.

Lemma canonical_mantissa_exists (p : positive) :
  (Zpos p < 2 ^ 53)%Z ->
  exists c, Zpos c = (Zpos p * 2 ^ (53 - Zpos (digits2_pos p)))%Z.
Proof.
  intros Hp. assert (Hd := @digits2_small p Hp).
  exists (Z.to_pos (Zpos p * 2 ^ (53 - Zpos (digits2_pos p)))).
  rewrite Z2Pos.id; [reflexivity|].
  apply Z.mul_pos_pos; [reflexivity|]. apply Z.pow_pos_nonneg; lia.
Qed.

(** The float64 of a non-zero integer below 2^53: the sign, a mantissa
    of 53 bits and the exponent that goes with it. *)
Lemma f64_of_Z_finite (z : Z) :
  z <> 0%Z -> (Z.abs z < 2 ^ 53)%Z ->
  exists c,
    f64_of_Z z = S754_finite (z <? 0)%Z c (Zdigits2 z - 53)
    /\ Zpos c = (Z.abs z * 2 ^ (53 - Zdigits2 z))%Z
    /\ (1 <= Zdigits2 z <= 53)%Z.
Proof.
  intros Hz Hb. destruct z as [|p|p]; [congruence| |];
    cbn [Z.abs Zdigits2] in *;
    destruct (canonical_mantissa_exists Hb) as [c Hc];
    assert (Hd := @digits2_small p Hb);
    exists c; (split; [|split; [assumption|lia]]);
    unfold f64_of_Z, binary_normalize;
    change 0%Z with (- 0)%Z at 1;
    apply (@binary_round_scaled _ p p c 0); try assumption; try lia.
Qed.

Lemma f64_normalize_scaled (z k : Z) :
  (Z.abs z < 2 ^ 53)%Z -> (0 <= k <= 1000)%Z ->
  binary_normalize 53 1024 (z * 2 ^ k) (- k) false = f64_of_Z z.
Proof.
  intros Hb Hk. destruct z as [|p|p].
  - reflexivity.
  - cbn [Z.abs] in Hb.
    destruct (canonical_mantissa_exists Hb) as [c Hc].
    assert (Hm : Zpos (Z.to_pos (Zpos p * 2 ^ k)) = (Zpos p * 2 ^ k)%Z).
    { apply Z2Pos.id. apply Z.mul_pos_pos; [reflexivity|].
      apply Z.pow_pos_nonneg; lia. }
    rewrite <- Hm. unfold f64_of_Z, binary_normalize.
    rewrite (@binary_round_scaled false p _ c k Hb Hk Hm Hc).
    symmetry.
    apply (@binary_round_scaled _ p p c 0); try assumption; lia.
  - cbn [Z.abs] in Hb.
    destruct (canonical_mantissa_exists Hb) as [c Hc].
    assert (Hm : Zpos (Z.to_pos (Zpos p * 2 ^ k)) = (Zpos p * 2 ^ k)%Z).
    { apply Z2Pos.id. apply Z.mul_pos_pos; [reflexivity|].
      apply Z.pow_pos_nonneg; lia. }
    replace (Zneg p * 2 ^ k)%Z with (Zneg (Z.to_pos (Zpos p * 2 ^ k))).
    2:{ rewrite <- Pos2Z.opp_pos, Hm. rewrite <- Pos2Z.opp_pos. ring. }
    unfold f64_of_Z, binary_normalize.
    rewrite (@binary_round_scaled true p _ c k Hb Hk Hm Hc).
    symmetry.
    apply (@binary_round_scaled _ p p c 0); try assumption; lia.
Qed.

Lemma shl_align_value (mx : positive) (ex ez : Z) :
  (ez <= ex)%Z ->
  Zpos (fst (shl_align mx ex ez)) = (Zpos mx * 2 ^ (ex - ez))%Z.
Proof.
  intros H. unfold shl_align. destruct (ez - ex)%Z as [|j|j] eqn:E.
  - replace (ex - ez)%Z with 0%Z by lia. cbn [fst]. lia.
  - lia.
  - cbn [fst]. rewrite iter_xO_Z. f_equal. f_equal. lia.
Qed.

Lemma cond_Zopp_abs (z x : Z) :
  cond_Zopp (z <? 0)%Z (Z.abs z * x) = (z * x)%Z.
Proof.
  unfold cond_Zopp. destruct (Z.ltb_spec z 0).
  - rewrite Z.abs_neq by lia. ring.
  - rewrite Z.abs_eq by lia. reflexivity.
Qed.

(** The aligned mantissa of an operand, as [SFadd] and [SFsub] form it. *)
Lemma aligned_operand (z : Z) (c : positive) (ez : Z) :
  (1 <= Zdigits2 z <= 53)%Z -> (ez <= Zdigits2 z - 53)%Z ->
  Zpos c = (Z.abs z * 2 ^ (53 - Zdigits2 z))%Z ->
  cond_Zopp (z <? 0)%Z (Zpos (fst (shl_align c (Zdigits2 z - 53) ez)))
  = (z * 2 ^ (- ez))%Z.
Proof.
  intros Hd He Hc. rewrite shl_align_value by assumption.
  rewrite Hc, <- Z.mul_assoc, <- Z.pow_add_r by lia.
  rewrite cond_Zopp_abs. f_equal. f_equal. lia.
Qed.

(** float64 addition of two integers is exact when the operands and the
    sum are below 2^53 in absolute value. *)
Lemma f64_add_exact (a b : Z) :
  (Z.abs a < 2 ^ 53)%Z -> (Z.abs b < 2 ^ 53)%Z ->
  (Z.abs (a + b) < 2 ^ 53)%Z ->
  f64_add (f64_of_Z a) (f64_of_Z b) = f64_of_Z (a + b).
Proof.
  intros Ha Hb Hab.
  destruct (Z.eq_dec a 0) as [->|Na]; [|destruct (Z.eq_dec b 0) as [->|Nb]].
  - rewrite Z.add_0_l. destruct (Z.eq_dec b 0) as [->|Nb]; [reflexivity|].
    destruct (f64_of_Z_finite Nb Hb) as (c & -> & _). reflexivity.
  - rewrite Z.add_0_r.
    destruct (f64_of_Z_finite Na Ha) as (c & -> & _). reflexivity.
  - destruct (f64_of_Z_finite Na Ha) as (ca & -> & Hca & Hda).
    destruct (f64_of_Z_finite Nb Hb) as (cb & -> & Hcb & Hdb).
    unfold f64_add, SFadd.
    set (ez := Z.min (Zdigits2 a - 53) (Zdigits2 b - 53)).
    rewrite (@aligned_operand a ca ez), (@aligned_operand b cb ez);
      try assumption; try (subst ez; lia).
    rewrite <- Z.mul_add_distr_r.
    assert (Hk : (0 <= - ez <= 1000)%Z) by (subst ez; lia).
    assert (E := @f64_normalize_scaled (a + b) (- ez) Hab Hk).
    now rewrite Z.opp_involutive in E.
Qed.

Lemma binary_round_opp (s : bool) (m : positive) (e : Z) :
  binary_round 53 1024 (negb s) m e = SFopp (binary_round 53 1024 s m e).
Proof.
  unfold binary_round.
  destruct (shl_align m e (fexp 53 1024 (Zpos (digits2_pos m) + e)))
    as [mz ez].
  unfold binary_round_aux.
  destruct (shr_fexp 53 1024 (Zpos mz) ez loc_Exact) as [mrs' e'].
  destruct (shr_fexp 53 1024
              (round_nearest_even (shr_m mrs') (loc_of_shr_record mrs'))
              e' loc_Exact) as [mrs'' e''].
  destruct (shr_m mrs'') as [|q|q]; [reflexivity| |reflexivity].
  now destruct (e'' <=? 1024 - 53)%Z.
Qed.

Lemma f64_of_Z_opp (z : Z) :
  z <> 0%Z -> f64_of_Z (- z) = SFopp (f64_of_Z z).
Proof.
  intros Nz. destruct z as [|p|p]; [congruence| |]; cbn [Z.opp];
    unfold f64_of_Z, binary_normalize.
  - apply (binary_round_opp false).
  - rewrite (binary_round_opp false p 0 : binary_round 53 1024 true p 0 = _).
    now destruct (binary_round 53 1024 false p 0) as [[]|[]| |[] ? ?].
Qed.

(** Likewise for subtraction. *)
Lemma f64_sub_exact (a b : Z) :
  (Z.abs a < 2 ^ 53)%Z -> (Z.abs b < 2 ^ 53)%Z ->
  (Z.abs (a - b) < 2 ^ 53)%Z ->
  f64_sub (f64_of_Z a) (f64_of_Z b) = f64_of_Z (a - b).
Proof.
  intros Ha Hb Hab.
  destruct (Z.eq_dec a 0) as [->|Na]; [|destruct (Z.eq_dec b 0) as [->|Nb]].
  - rewrite Z.sub_0_l.
    destruct (Z.eq_dec b 0) as [->|Nb]; [reflexivity|].
    rewrite (f64_of_Z_opp Nb).
    destruct (f64_of_Z_finite Nb Hb) as (c & -> & _). reflexivity.
  - rewrite Z.sub_0_r.
    destruct (f64_of_Z_finite Na Ha) as (c & -> & _). reflexivity.
  - destruct (f64_of_Z_finite Na Ha) as (ca & -> & Hca & Hda).
    destruct (f64_of_Z_finite Nb Hb) as (cb & -> & Hcb & Hdb).
    unfold f64_sub, SFsub.
    set (ez := Z.min (Zdigits2 a - 53) (Zdigits2 b - 53)).
    rewrite (@aligned_operand a ca ez), (@aligned_operand b cb ez);
      try assumption; try (subst ez; lia).
    rewrite <- Z.mul_sub_distr_r.
    assert (Hk : (0 <= - ez <= 1000)%Z) by (subst ez; lia).
    assert (E := @f64_normalize_scaled (a - b) (- ez) Hab Hk).
    now rewrite Z.opp_involutive in E.
Qed.

(** [int()] gives the integer back. *)
Lemma f64_int_exact (z : Z) :
  (Z.abs z < 2 ^ 53)%Z -> f64_int (f64_of_Z z) = z.
Proof.
  intros Hb. destruct (Z.eq_dec z 0) as [->|Nz]; [reflexivity|].
  destruct (f64_of_Z_finite Nz Hb) as (c & -> & Hc & Hd).
  unfold f64_int.
  assert (E : (if (0 <=? Zdigits2 z - 53)%Z
               then (Zpos c * 2 ^ (Zdigits2 z - 53))%Z
               else (Zpos c / 2 ^ (- (Zdigits2 z - 53)))%Z) = Z.abs z).
  { destruct (Z.leb_spec 0 (Zdigits2 z - 53)).
    - replace (Zdigits2 z - 53)%Z with 0%Z by lia.
      rewrite Hc. replace (53 - Zdigits2 z)%Z with 0%Z by lia.
      rewrite !Z.pow_0_r. ring.
    - rewrite Hc. replace (- (Zdigits2 z - 53))%Z with (53 - Zdigits2 z)%Z
        by lia.
      apply Z.div_mul. apply Z.pow_nonzero; lia. }
  rewrite E. destruct (Z.ltb_spec z 0); lia.
Qed.

(** Canonical forms are ordered as the integers they stand for. *)
Lemma compare_canonical (p q cp cq : positive) :
  (Zpos (digits2_pos p) <= 53)%Z -> (Zpos (digits2_pos q) <= 53)%Z ->
  Zpos cp = (Zpos p * 2 ^ (53 - Zpos (digits2_pos p)))%Z ->
  Zpos cq = (Zpos q * 2 ^ (53 - Zpos (digits2_pos q)))%Z ->
  match (Zpos (digits2_pos p) - 53 ?= Zpos (digits2_pos q) - 53)%Z with
  | Lt => Lt
  | Gt => Gt
  | Eq => Pos.compare_cont Eq cp cq
  end = (Zpos p ?= Zpos q)%Z.
Proof.
  intros Hp Hq Hcp Hcq.
  destruct (digits2_bounds p) as [Lp Up], (digits2_bounds q) as [Lq Uq].
  destruct (Z.compare_spec (Zpos (digits2_pos p) - 53)
                           (Zpos (digits2_pos q) - 53)) as [E|L|G].
  - change (Pos.compare_cont Eq cp cq) with (Zpos cp ?= Zpos cq)%Z.
    rewrite Hcp, Hcq.
    replace (Zpos (digits2_pos q)) with (Zpos (digits2_pos p)) by lia.
    symmetry. apply Zmult_compare_compat_r.
    apply Z.lt_gt, Z.pow_pos_nonneg; lia.
  - symmetry. apply Z.compare_lt_iff.
    assert (2 ^ Zpos (digits2_pos p) <= 2 ^ (Zpos (digits2_pos q) - 1))%Z
      by (apply Z.pow_le_mono_r; lia).
    lia.
  - symmetry. apply Z.compare_gt_iff.
    assert (2 ^ Zpos (digits2_pos q) <= 2 ^ (Zpos (digits2_pos p) - 1))%Z
      by (apply Z.pow_le_mono_r; lia).
    lia.
Qed.

Lemma f64_compare_exact (a b : Z) :
  (Z.abs a < 2 ^ 53)%Z -> (Z.abs b < 2 ^ 53)%Z ->
  SFcompare (f64_of_Z a) (f64_of_Z b) = Some (a ?= b)%Z.
Proof.
  intros Ha Hb.
  destruct (Z.eq_dec a 0) as [->|Na]; [|destruct (Z.eq_dec b 0) as [->|Nb]].
  - destruct (Z.eq_dec b 0) as [->|Nb]; [reflexivity|].
    destruct (f64_of_Z_finite Nb Hb) as (c & -> & _).
    now destruct b.
  - destruct (f64_of_Z_finite Na Ha) as (c & -> & _).
    now destruct a.
  - destruct (f64_of_Z_finite Na Ha) as (ca & -> & Hca & Hda).
    destruct (f64_of_Z_finite Nb Hb) as (cb & -> & Hcb & Hdb).
    destruct a as [|p|p], b as [|q|q]; try congruence;
      cbn [Z.abs Zdigits2 Z.ltb SFcompare] in *; try reflexivity.
    + f_equal. apply compare_canonical; assumption || lia.
    + f_equal.
      change (Zneg p ?= Zneg q)%Z with (CompOpp (Zpos p ?= Zpos q)%Z).
      rewrite <- (@compare_canonical p q ca cb) by (assumption || lia).
      destruct (Zpos (digits2_pos p) - 53 ?= Zpos (digits2_pos q) - 53)%Z;
        reflexivity.
Qed.

(** float64 comparison of two integers below 2^53 is their comparison. *)
Lemma f64_leb_exact (a b : Z) :
  (Z.abs a < 2 ^ 53)%Z -> (Z.abs b < 2 ^ 53)%Z ->
  f64_leb (f64_of_Z a) (f64_of_Z b) = (a <=? b)%Z.
Proof.
  intros Ha Hb. unfold f64_leb, SFleb. rewrite f64_compare_exact by assumption.
  unfold Z.leb. now destruct (a ?= b)%Z.
Qed.

(** ** Whole amounts: the rational and the float64 arithmetic agree *)

Lemma whole_plus (a b : Q) :
  whole a -> whole b ->
  whole (a + b) /\ Qnum (a + b) = (Qnum a + Qnum b)%Z.
Proof.
  unfold whole. destruct a as [na da], b as [nb db]. simpl.
  intros -> ->. split; [reflexivity | ring].
Qed.

Lemma whole_minus (a b : Q) :
  whole a -> whole b ->
  whole (a - b) /\ Qnum (a - b) = (Qnum a - Qnum b)%Z.
Proof.
  unfold whole. destruct a as [na da], b as [nb db]. simpl.
  intros -> ->. split; [reflexivity | ring].
Qed.

Lemma whole_0 : whole 0.
Proof. reflexivity. Qed.

Lemma whole_int_of (q : Q) : whole q -> int_of q = Qnum q.
Proof.
  unfold whole, int_of. intros ->. apply Z.quot_1_r.
Qed.

Lemma whole_le_bool (a b : Q) :
  whole a -> whole b -> Qle_bool a b = (Qnum a <=? Qnum b)%Z.
Proof.
  unfold whole, Qle_bool. intros -> ->. now rewrite !Z.mul_1_r.
Qed.

Lemma f64_add_whole (a b : Q) :
  whole a -> whole b -> (Z.abs (Qnum a) + Z.abs (Qnum b) < 2 ^ 53)%Z ->
  f64_add (f64_of_whole a) (f64_of_whole b) = f64_of_whole (a + b).
Proof.
  intros Ha Hb H. unfold f64_of_whole.
  rewrite (proj2 (whole_plus Ha Hb)). apply f64_add_exact; lia.
Qed.

Lemma f64_sub_whole (a b : Q) :
  whole a -> whole b -> (Z.abs (Qnum a) + Z.abs (Qnum b) < 2 ^ 53)%Z ->
  f64_sub (f64_of_whole a) (f64_of_whole b) = f64_of_whole (a - b).
Proof.
  intros Ha Hb H. unfold f64_of_whole.
  rewrite (proj2 (whole_minus Ha Hb)). apply f64_sub_exact; lia.
Qed.

Lemma f64_leb_whole (a b : Q) :
  whole a -> whole b ->
  (Z.abs (Qnum a) < 2 ^ 53)%Z -> (Z.abs (Qnum b) < 2 ^ 53)%Z ->
  f64_leb (f64_of_whole a) (f64_of_whole b) = Qle_bool a b.
Proof.
  intros Ha Hb Ba Bb. rewrite (whole_le_bool Ha Hb).
  now apply f64_leb_exact.
Qed.

Lemma f64_int_whole (q : Q) :
  whole q -> (Z.abs (Qnum q) < 2 ^ 53)%Z ->
  f64_int (f64_of_whole q) = int_of q.
Proof.
  intros Hq Hb. rewrite (whole_int_of Hq). now apply f64_int_exact.
Qed.

(** *** Magnitudes *)

Lemma magnitude_cons (x : Q) (l : list Q) :
  magnitude (x :: l) = (Z.abs (Qnum x) + magnitude l)%Z.
Proof. reflexivity. Qed.

Lemma magnitude_nonneg (l : list Q) : (0 <= magnitude l)%Z.
Proof. induction l as [|x l IH]; simpl; lia. Qed.

Lemma magnitude_app (l1 l2 : list Q) :
  magnitude (l1 ++ l2) = (magnitude l1 + magnitude l2)%Z.
Proof. induction l1 as [|x l1 IH]; simpl; lia. Qed.

Lemma magnitude_perm (l1 l2 : list Q) :
  Permutation l1 l2 -> magnitude l1 = magnitude l2.
Proof. induction 1; simpl; lia. Qed.

Lemma magnitude_In (x : Q) (l : list Q) :
  In x l -> (Z.abs (Qnum x) <= magnitude l)%Z.
Proof.
  induction l as [|y l IH]; simpl; [tauto|].
  pose proof (magnitude_nonneg l) as Hn. intros [->|Hx]; [lia|].
  specialize (IH Hx). lia.
Qed.

Lemma exact_amounts_perm (l1 l2 : list Q) :
  Permutation l1 l2 -> exact_amounts l1 -> exact_amounts l2.
Proof.
  intros P [W M]. split.
  - now apply (Permutation_Forall P).
  - now rewrite <- (magnitude_perm P).
Qed.

Lemma exact_amounts_app (l1 l2 : list Q) :
  exact_amounts (l1 ++ l2) ->
  Forall whole l1 /\ Forall whole l2
  /\ (magnitude l1 + magnitude l2 < 2 ^ 53)%Z.
Proof.
  intros [W M]. apply Forall_app in W. rewrite magnitude_app in M. tauto.
Qed.

(** *** Column sums *)

Lemma col_sum_whole (l : list Q) :
  Forall whole l ->
  whole (col_sum l) /\ (Z.abs (Qnum (col_sum l)) <= magnitude l)%Z.
Proof.
  induction 1 as [|x l Hx Hl [IHw IHm]].
  - split; [reflexivity | simpl; lia].
  - rewrite col_sum_cons, magnitude_cons.
    destruct (whole_plus Hx IHw) as [W E].
    split; [assumption|]. rewrite E. lia.
Qed.

Lemma fold_f64_add_whole (l : list Q) :
  forall a, whole a -> Forall whole l ->
            (Z.abs (Qnum a) + magnitude l < 2 ^ 53)%Z ->
            fold_left f64_add (map f64_of_whole l) (f64_of_whole a)
            = f64_of_whole (fold_left Qplus l a).
Proof.
  induction l as [|x l IH]; intros a Ha Hl Hb; [reflexivity|].
  inversion Hl as [|? ? Hx Hl']; subst.
  rewrite magnitude_cons in Hb. pose proof (magnitude_nonneg l) as Hn.
  cbn [map fold_left].
  destruct (whole_plus Ha Hx) as [W E].
  rewrite f64_add_whole by (assumption || lia).
  apply IH; [assumption | assumption |]. rewrite E. lia.
Qed.

Lemma col_sum64_whole (l : list Q) :
  exact_amounts l -> col_sum64 (map f64_of_whole l) = f64_of_whole (col_sum l).
Proof.
  intros [W M]. unfold col_sum64, v_col_sum, col_sum.
  apply (fold_f64_add_whole (a := 0)); [reflexivity | assumption |].
  simpl. lia.
Qed.

(** *** Grouped sums *)

Lemma gadd_whole k (v : Q) (m : list (pystr * Q)) :
  exact_amounts (v :: map snd m) ->
  v_gadd f64_add k (f64_of_whole v) (sums64_of m)
  = sums64_of (gadd str_compare k v m)
  /\ Forall whole (map snd (gadd str_compare k v m))
  /\ (magnitude (map snd (gadd str_compare k v m))
      <= magnitude (v :: map snd m))%Z.
Proof.
  induction m as [|[h w] t IH]; intros [W M].
  - simpl. auto with zarith.
  - inversion W as [|? ? Wv Wm]; subst.
    cbn [map snd] in Wm. inversion Wm as [|? ? Ww Wt]; subst.
    cbn [map snd] in M. rewrite !magnitude_cons in M.
    pose proof (magnitude_nonneg (map snd t)) as Hn.
    cbn [gadd sums64_of map v_gadd fst snd].
    destruct (str_compare k h).
    + destruct (whole_plus Ww Wv) as [Wp Ep].
      rewrite f64_add_whole by (assumption || lia).
      cbn [map fst snd]. rewrite !magnitude_cons, Ep.
      split; [reflexivity|]. split; [now constructor | lia].
    + cbn [map fst snd]. rewrite !magnitude_cons.
      split; [reflexivity|]. split; [now repeat constructor | lia].
    + destruct IH as (E & Wg & Mg).
      { split; [now constructor|]. rewrite magnitude_cons. lia. }
      fold (sums64_of t). rewrite E.
      cbn [map fst snd]. rewrite !magnitude_cons in *.
      split; [reflexivity|]. split; [now constructor | lia].
Qed.

Section GroupedSums.

Variables R R' : Type.
Variable key : R -> cell.
Variable val : R -> Q.
Variable key' : R' -> cell.
Variable val' : R' -> f64.
Variable conv : R -> R'.
Hypothesis key_conv : forall r, key' (conv r) = key r.
Hypothesis val_conv : forall r, val' (conv r) = f64_of_whole (val r).

Lemma groupby_from_whole (rows : list R) :
  forall acc,
    exact_amounts (map snd acc ++ map val rows) ->
    fold_left (v_group_step f64_add key' val') (map conv rows) (sums64_of acc)
    = sums64_of (fold_left (group_step str_compare key val) rows acc)
    /\ Forall whole
         (map snd (fold_left (group_step str_compare key val) rows acc))
    /\ (magnitude
          (map snd (fold_left (group_step str_compare key val) rows acc))
        <= magnitude (map snd acc ++ map val rows))%Z.
Proof.
  induction rows as [|r rows IH]; intros acc Hx.
  - simpl. rewrite app_nil_r in *. destruct Hx. auto with zarith.
  - destruct (exact_amounts_app _ _ Hx) as (Wa & Wr & M).
    cbn [map] in Wr, M. inversion Wr as [|? ? Wv Wrows]; subst.
    rewrite magnitude_cons in M.
    pose proof (magnitude_nonneg (map val rows)) as Hn.
    pose proof (magnitude_nonneg (map snd acc)) as Hn'.
    cbn [map fold_left].
    assert (Ev : v_group_step f64_add key' val' (sums64_of acc) (conv r)
                 = match key r with
                   | Some k => v_gadd f64_add k (f64_of_whole (val r))
                                 (sums64_of acc)
                   | None => sums64_of acc
                   end)
      by (unfold v_group_step; now rewrite key_conv, val_conv).
    assert (Eg : group_step str_compare key val acc r
                 = match key r with
                   | Some k => gadd str_compare k (val r) acc
                   | None => acc
                   end) by reflexivity.
    rewrite Ev, Eg, magnitude_app, magnitude_cons.
    destruct (key r) as [k|].
    + destruct (@gadd_whole k (val r) acc) as (E & Wg & Mg).
      { split; [now constructor|]. rewrite magnitude_cons. lia. }
      rewrite magnitude_cons in Mg. rewrite E.
      destruct (IH (gadd str_compare k (val r) acc)) as (E' & W' & M').
      { split; [apply Forall_app; now split|]. rewrite magnitude_app. lia. }
      rewrite magnitude_app in M'.
      split; [assumption|]. split; [assumption | lia].
    + destruct (IH acc) as (E' & W' & M').
      { split; [apply Forall_app; now split|]. rewrite magnitude_app. lia. }
      rewrite magnitude_app in M'.
      split; [assumption|]. split; [assumption | lia].
Qed.

Lemma groupby_sum_whole (rows : list R) :
  exact_amounts (map val rows) ->
  v_groupby_sum f64_add key' val' (map conv rows)
  = sums64_of (groupby_sum str_compare key val rows)
  /\ Forall whole (map snd (groupby_sum str_compare key val rows))
  /\ (magnitude (map snd (groupby_sum str_compare key val rows))
      <= magnitude (map val rows))%Z.
Proof.
  intros Hx. exact (groupby_from_whole rows [] Hx).
Qed.

End GroupedSums.

Lemma sums64_keys (m : list (pystr * Q)) : map fst (sums64_of m) = map fst m.
Proof. unfold sums64_of. rewrite map_map. reflexivity. Qed.

Lemma lookup_sums64 k (m : list (pystr * Q)) :
  v_fillna0 f64_zero (v_lookup k (sums64_of m))
  = f64_of_whole (fillna0 (lookup str_compare k m)).
Proof.
  induction m as [|[h w] t IH]; [reflexivity|].
  cbn [sums64_of map v_lookup lookup fst snd].
  destruct (str_compare k h); try exact IH. reflexivity.
Qed.

Lemma lookup_whole k (m : list (pystr * Q)) :
  Forall whole (map snd m) ->
  whole (fillna0 (lookup str_compare k m))
  /\ (Z.abs (Qnum (fillna0 (lookup str_compare k m)))
      <= magnitude (map snd m))%Z.
Proof.
  induction m as [|[h w] t IH]; intros W.
  - split; [reflexivity | simpl; lia].
  - cbn [map snd] in W. inversion W as [|? ? Ww Wt]; subst.
    cbn [lookup map snd]. rewrite magnitude_cons.
    pose proof (magnitude_nonneg (map snd t)) as Hn.
    destruct (IH Wt) as [IW IM].
    destruct (str_compare k h); cbn [fillna0];
      (split; [assumption | lia]).
Qed.

(** *** The reconciliation table *)

Lemma filter_expense64 (ml : list log_row) :
  filter (@v_is_expense f64) (map log64_of ml)
  = map log64_of (filter is_expense ml).
Proof.
  induction ml as [|r ml IH]; [reflexivity|]. cbn [map filter].
  change (v_is_expense (log64_of r)) with (is_expense r).
  destruct (is_expense r); cbn [map]; now rewrite IH.
Qed.

Lemma budget_by_item64 (mb : list budget_row) :
  exact_amounts (map b_amount mb) ->
  v_groupby_sum f64_add (@vb_item f64) (@vb_amount f64) (map budget64_of mb)
  = sums64_of (budget_by_item mb)
  /\ Forall whole (map snd (budget_by_item mb))
  /\ (magnitude (map snd (budget_by_item mb))
      <= magnitude (map b_amount mb))%Z.
Proof.
  apply (@groupby_sum_whole _ _ b_item b_amount (@vb_item f64)
           (@vb_amount f64) budget64_of);
    reflexivity.
Qed.

Lemma actual_by_item64 (ml : list log_row) :
  exact_amounts (map amount (filter is_expense ml)) ->
  v_groupby_sum f64_add (@vl_item f64) (@vl_amount f64)
    (filter (@v_is_expense f64) (map log64_of ml))
  = sums64_of (actual_by_item ml)
  /\ Forall whole (map snd (actual_by_item ml))
  /\ (magnitude (map snd (actual_by_item ml))
      <= magnitude (map amount (filter is_expense ml)))%Z.
Proof.
  rewrite filter_expense64.
  apply (@groupby_sum_whole _ _ item amount (@vl_item f64)
           (@vl_amount f64) log64_of);
    reflexivity.
Qed.

Lemma summary_unsorted64 (mb : list budget_row) (ml : list log_row) :
  exact_amounts (map b_amount mb ++ map amount (filter is_expense ml)) ->
  v_summary_unsorted f64_zero f64_add f64_sub
    (map budget64_of mb) (map log64_of ml)
  = map summary64_of (summary_unsorted mb ml)
  /\ Forall exact_row (summary_unsorted mb ml).
Proof.
  intros Hx. destruct (exact_amounts_app _ _ Hx) as (Wb & Wl & M).
  pose proof (magnitude_nonneg (map b_amount mb)) as Nb.
  pose proof (magnitude_nonneg (map amount (filter is_expense ml))) as Nl.
  destruct (@budget_by_item64 mb) as (EB & WB & MB); [split; [assumption|lia]|].
  destruct (@actual_by_item64 ml) as (EA & WA & MA); [split; [assumption|lia]|].
  assert (Hrow : forall k,
             let b := fillna0 (lookup str_compare k (budget_by_item mb)) in
             let a := fillna0 (lookup str_compare k (actual_by_item ml)) in
             whole b /\ whole a /\ whole (b - a)
             /\ (Z.abs (Qnum b) + Z.abs (Qnum a) < 2 ^ 53)%Z
             /\ (Z.abs (Qnum (b - a)) < 2 ^ 53)%Z).
  { intros k b a.
    destruct (@lookup_whole k _ WB) as [Wkb Mkb].
    destruct (@lookup_whole k _ WA) as [Wka Mka].
    fold b in Wkb, Mkb. fold a in Wka, Mka.
    destruct (whole_minus Wkb Wka) as [Wd Ed].
    repeat split; try assumption; [lia|]. rewrite Ed. lia. }
  split.
  - unfold v_summary_unsorted, summary_unsorted, v_merge_outer, merge_outer.
    rewrite EB, EA, !sums64_keys, !map_map.
    apply map_ext. intros k.
    destruct (Hrow k) as (Wkb & Wka & _ & Mk & _).
    rewrite !lookup_sums64. unfold summary64_of. cbn [s_item s_budget s_actual s_diff].
    now rewrite f64_sub_whole.
  - apply Forall_forall. intros row Hin.
    unfold summary_unsorted, merge_outer in Hin. rewrite map_map in Hin.
    apply in_map_iff in Hin. destruct Hin as (k & <- & _).
    destruct (Hrow k) as (Wkb & Wka & Wd & Mk & Md).
    unfold exact_row. cbn [s_budget s_actual s_diff].
    repeat split; try assumption. lia.
Qed.

Lemma insert_by64 (x : summary_row) (l : list summary_row) :
  exact_row x -> Forall exact_row l ->
  v_insert_by f64_leb (summary64_of x) (map summary64_of l)
  = map summary64_of (insert_by s_diff x l).
Proof.
  intros (_ & _ & Wx & _ & Mx). induction 1 as [|h t Hh Ht IH];
    [reflexivity|].
  destruct Hh as (_ & _ & Wh & _ & Mh).
  cbn [map v_insert_by insert_by].
  change (vs_diff (summary64_of x)) with (f64_of_whole (s_diff x)).
  change (vs_diff (summary64_of h)) with (f64_of_whole (s_diff h)).
  rewrite f64_leb_whole by assumption.
  destruct (Qle_bool (s_diff x) (s_diff h)); [reflexivity|].
  cbn [map]. now rewrite IH.
Qed.

Lemma sort_values64 (l : list summary_row) :
  Forall exact_row l ->
  v_sort_values f64_leb (map summary64_of l)
  = map summary64_of (sort_values s_diff l).
Proof.
  induction 1 as [|x l Hx Hl IH]; [reflexivity|].
  cbn [map]. unfold v_sort_values, sort_values in *. cbn [fold_right].
  rewrite IH. apply insert_by64; [assumption|].
  apply (Permutation_Forall (Permutation_sym (sort_values_perm s_diff l))).
  assumption.
Qed.

Lemma make_label64 (row : summary_row) :
  exact_row row ->
  v_make_label f64_int (summary64_of row) = make_label row.
Proof.
  intros (_ & Wa & Wd & Ma & Md). unfold v_make_label, make_label.
  cbn [summary64_of vs_actual vs_diff].
  rewrite !f64_int_whole by assumption. reflexivity.
Qed.

(** On whole amounts the float64 table is the rational table. *)
Lemma summary64_whole (mb : list budget_row) (ml : list log_row) :
  exact_amounts (map b_amount mb ++ map amount (filter is_expense ml)) ->
  summary64 (map budget64_of mb) (map log64_of ml)
  = map labelled64_of (summary mb ml).
Proof.
  intros Hx. destruct (summary_unsorted64 mb ml Hx) as [E F].
  unfold summary64, v_summary, summary, summary_sorted.
  rewrite E, (sort_values64 F), !map_map.
  apply map_ext_in. intros row Hin. unfold labelled64_of. cbn [fst snd].
  f_equal. apply make_label64.
  apply (Permutation_Forall (Permutation_sym (sort_values_perm s_diff _)))
    in F.
  rewrite Forall_forall in F. now apply F.
Qed.

(** *** Totals *)

Lemma magnitude_split {A} (p : A -> bool) (f : A -> Q) (l : list A) :
  magnitude (map f l)
  = (magnitude (map f (filter p l))
     + magnitude (map f (filter (fun a => negb (p a)) l)))%Z.
Proof.
  induction l as [|x l IH]; [reflexivity|]. cbn [map filter].
  destruct (p x); cbn [negb map]; rewrite !magnitude_cons; lia.
Qed.

Lemma lookup_skip k h (w : Q) (t : list (pystr * Q)) :
  k <> h ->
  lookup str_compare k ((h, w) :: t) = lookup str_compare k t.
Proof.
  intros N. cbn [lookup]. destruct (str_compare k h) eqn:E; try reflexivity.
  apply str_compare_eq in E. congruence.
Qed.

(** What [lookup] finds under distinct keys are distinct groups. *)
Lemma magnitude_lookups (m : list (pystr * Q)) :
  forall ks, NoDup ks ->
             (magnitude (map (fun k => fillna0 (lookup str_compare k m)) ks)
              <= magnitude (map snd m))%Z.
Proof.
  induction m as [|[h w] t IH]; intros ks N.
  - induction ks as [|k ks IHk]; [reflexivity|].
    inversion N; subst. cbn [map lookup fillna0] in *.
    rewrite magnitude_cons. cbn [Qnum Z.abs]. now apply IHk.
  - cbn [map snd]. rewrite magnitude_cons.
    apply Z.le_trans
      with (Z.abs (Qnum w)
            + magnitude (map (fun k => fillna0 (lookup str_compare k t)) ks))%Z;
      [|specialize (IH ks N); lia].
    clear IH. induction N as [|k ks Hk N IHN].
    + simpl. lia.
    + cbn [map]. rewrite !magnitude_cons.
      pose proof (magnitude_nonneg
                    (map (fun k => fillna0 (lookup str_compare k t)) ks)).
      destruct (list_eq_dec N.eq_dec k h) as [->|Nk].
      * assert (Eh : lookup str_compare h ((h, w) :: t) = Some w)
          by (cbn [lookup]; now rewrite str_compare_refl).
        rewrite Eh. cbn [fillna0].
        assert (E : map (fun k => fillna0
                                    (lookup str_compare k ((h, w) :: t))) ks
                    = map (fun k => fillna0 (lookup str_compare k t)) ks).
        { apply map_ext_in. intros k Hin. rewrite lookup_skip; [reflexivity|].
          intros ->. contradiction. }
        rewrite E. lia.
      * rewrite (lookup_skip w t Nk). lia.
Qed.

Lemma actual_column_whole (mb : list budget_row) (ml : list log_row) :
  exact_amounts (map b_amount mb ++ map amount (filter is_expense ml)) ->
  exact_amounts (map s_actual (map fst (summary mb ml))).
Proof.
  intros Hx. rewrite summary_rows.
  apply (exact_amounts_perm
           (Permutation_map s_actual
              (Permutation_sym (summary_sorted_perm mb ml)))).
  destruct (summary_unsorted64 mb ml Hx) as [_ F].
  destruct (exact_amounts_app _ _ Hx) as (Wb & Wl & M).
  pose proof (magnitude_nonneg (map b_amount mb)) as Nb.
  destruct (@actual_by_item64 ml) as (_ & _ & MA); [split; [assumption|lia]|].
  split.
  - apply Forall_map. eapply Forall_impl; [|exact F].
    intros row (_ & W & _). exact W.
  - rewrite summary_unsorted_rows, map_map. cbn [s_actual].
    eapply Z.le_lt_trans; [apply magnitude_lookups|lia].
    apply (ascending_NoDup str_compare_laws).
    apply (unique_sorted_ascending str_compare_laws).
Qed.

Lemma total_spent64_whole (ml : list log_row) :
  exact_amounts (map amount (filter is_expense ml)) ->
  total_spent64 (map log64_of ml) = f64_of_whole (total_spent ml).
Proof.
  intros Hx. unfold total_spent64, v_total_spent, total_spent.
  rewrite filter_expense64, map_map.
  change (map (fun r => vl_amount (log64_of r)) (filter is_expense ml))
    with (map (fun r => f64_of_whole (amount r)) (filter is_expense ml)).
  rewrite <- (map_map amount f64_of_whole).
  now apply col_sum64_whole.
Qed.

Lemma actual_column64 (mb : list budget_row) (ml : list log_row) :
  exact_amounts (map b_amount mb ++ map amount (filter is_expense ml)) ->
  col_sum64
    (map (@vs_actual f64)
       (map fst (summary64 (map budget64_of mb) (map log64_of ml))))
  = f64_of_whole (col_sum (map s_actual (map fst (summary mb ml)))).
Proof.
  intros Hx. rewrite (summary64_whole mb ml Hx), !map_map.
  change (map (fun r => vs_actual (fst (labelled64_of r))) (summary mb ml))
    with (map (fun r => f64_of_whole (s_actual (fst r))) (summary mb ml)).
  rewrite <- (map_map (fun r => s_actual (fst r)) f64_of_whole).
  apply col_sum64_whole.
  rewrite <- (map_map fst s_actual). now apply actual_column_whole.
Qed.

Lemma uncategorised64 (ml : list log_row) :
  exact_amounts (map amount (filter is_expense ml)) ->
  col_sum64
    (map (@vl_amount f64)
       (filter (fun r => negb (keyed (@vl_item f64) r))
          (filter (@v_is_expense f64) (map log64_of ml))))
  = f64_of_whole
      (col_sum (map amount
                  (filter (fun r => negb (keyed item r))
                          (filter is_expense ml)))).
Proof.
  intros [W M]. rewrite filter_expense64.
  assert (E : forall l,
             filter (fun r => negb (keyed (@vl_item f64) r)) (map log64_of l)
             = map log64_of (filter (fun r => negb (keyed item r)) l)).
  { induction l as [|r l IH]; [reflexivity|]. cbn [map filter].
    change (keyed (@vl_item f64) (log64_of r)) with (keyed item r).
    destruct (negb (keyed item r)); cbn [map]; now rewrite IH. }
  rewrite E, map_map.
  change (map (fun r => vl_amount (log64_of r))
            (filter (fun r => negb (keyed item r)) (filter is_expense ml)))
    with (map (fun r => f64_of_whole (amount r))
            (filter (fun r => negb (keyed item r)) (filter is_expense ml))).
  rewrite <- (map_map amount f64_of_whole).
  apply col_sum64_whole. split.
  - apply Forall_map. rewrite Forall_map in W.
    rewrite Forall_forall in *. intros r Hr. apply W.
    apply filter_In in Hr. tauto.
  - rewrite (magnitude_split (keyed item) amount) in M.
    pose proof (magnitude_nonneg
                  (map amount (filter (keyed item) (filter is_expense ml)))).
    lia.
Qed.

(** The float64 total and the float64 column sums, on whole amounts. *)
Lemma total_spent64_and_actual (mb : list budget_row) (ml : list log_row) :
  exact_amounts (map b_amount mb ++ map amount (filter is_expense ml)) ->
  let tables := (map budget64_of mb, map log64_of ml) in
  let actual64 :=
    map (@vs_actual f64) (map fst (summary64 (fst tables) (snd tables))) in
  total_spent64 (snd tables)
  = f64_add (col_sum64 actual64)
      (col_sum64
         (map (@vl_amount f64)
            (filter (fun r => negb (keyed (@vl_item f64) r))
               (filter (@v_is_expense f64) (snd tables)))))
  /\ ((forall r, In r ml -> is_expense r = true -> item r <> None) ->
      total_spent64 (snd tables) = col_sum64 actual64).
Proof.
  intros Hx tables actual64. subst tables actual64. cbn [fst snd].
  destruct (exact_amounts_app _ _ Hx) as (Wb & Wl & M).
  pose proof (magnitude_nonneg (map b_amount mb)) as Nb.
  assert (Hl : exact_amounts (map amount (filter is_expense ml)))
    by (split; [assumption|lia]).
  rewrite (total_spent64_whole ml Hl), (actual_column64 mb ml Hx),
    (uncategorised64 ml Hl).
  destruct (total_spent_and_actual mb ml) as [E1 E2].
  split.
  - rewrite f64_add_whole.
    + now rewrite <- E1.
    + apply col_sum_whole. now destruct (actual_column_whole mb ml Hx).
    + apply col_sum_whole. apply Forall_map. rewrite Forall_map in Wl.
      rewrite Forall_forall in *. intros r Hr. apply Wl.
      apply filter_In in Hr. tauto.
    + rewrite summary_rows, sum_actual_column.
      assert (Wk : Forall whole
                     (map amount (filter (keyed item)
                                         (filter is_expense ml)))).
      { apply Forall_map. rewrite Forall_map in Wl.
        rewrite Forall_forall in *. intros r Hr. apply Wl.
        apply filter_In in Hr. tauto. }
      assert (Wu : Forall whole
                     (map amount (filter (fun r => negb (keyed item r))
                                         (filter is_expense ml)))).
      { apply Forall_map. rewrite Forall_map in Wl.
        rewrite Forall_forall in *. intros r Hr. apply Wl.
        apply filter_In in Hr. tauto. }
      destruct (col_sum_whole Wk) as [_ Bk].
      destruct (col_sum_whole Wu) as [_ Bu].
      rewrite (magnitude_split (keyed item) amount) in M. lia.
  - intros Hall. now rewrite (E2 Hall).
Qed.

(** *** The rational instance *)

Lemma v_gadd_rational k (v : Q) (m : list (pystr * Q)) :
  v_gadd Qplus k v m = gadd str_compare k v m.
Proof.
  induction m as [|[h w] t IH]; [reflexivity|]. cbn [v_gadd gadd].
  now rewrite IH.
Qed.

Lemma v_groupby_sum_rational {R R'} (key : R -> cell) (val : R -> Q)
    (key' : R' -> cell) (val' : R' -> Q) (conv : R -> R') :
  (forall r, key' (conv r) = key r) -> (forall r, val' (conv r) = val r) ->
  forall rows,
    v_groupby_sum Qplus key' val' (map conv rows)
    = groupby_sum str_compare key val rows.
Proof.
  intros Hk Hv rows. unfold v_groupby_sum, groupby_sum.
  generalize (@nil (pystr * Q)).
  induction rows as [|r rows IH]; intros acc; [reflexivity|].
  cbn [map fold_left]. rewrite <- IH. f_equal.
  unfold v_group_step, group_step. rewrite Hk, Hv.
  destruct (key r); [apply v_gadd_rational | reflexivity].
Qed.

Lemma v_lookup_rational k (m : list (pystr * Q)) :
  v_lookup k m = lookup str_compare k m.
Proof.
  induction m as [|[h w] t IH]; [reflexivity|]. cbn [v_lookup lookup].
  now rewrite IH.
Qed.

Lemma v_sort_values_rational (l : list summary_row) :
  v_sort_values Qle_bool (map as_v_summary l)
  = map as_v_summary (sort_values s_diff l).
Proof.
  unfold v_sort_values, sort_values.
  induction l as [|x l IH]; [reflexivity|]. cbn [map fold_right].
  rewrite IH. generalize (fold_right (insert_by s_diff) [] l). intros s.
  induction s as [|h t IHs]; [reflexivity|].
  cbn [map v_insert_by insert_by].
  change (vs_diff (as_v_summary x)) with (s_diff x).
  change (vs_diff (as_v_summary h)) with (s_diff h).
  destruct (Qle_bool (s_diff x) (s_diff h)); [reflexivity|].
  cbn [map]. now rewrite IHs.
Qed.

(** With the rational operations the reconciliation over any arithmetic
    is [summary], and its total is [total_spent]. *)
Lemma v_summary_rational (mb : list budget_row) (ml : list log_row) :
  v_summary 0 Qplus Qminus Qle_bool int_of
    (map as_v_budget mb) (map as_v_log ml)
  = map (fun r => (as_v_summary (fst r), snd r)) (summary mb ml)
  /\ v_total_spent 0 Qplus (map as_v_log ml) = total_spent ml.
Proof.
  assert (Ef : filter (@v_is_expense Q) (map as_v_log ml)
               = map as_v_log (filter is_expense ml)).
  { induction ml as [|r l IH]; [reflexivity|]. cbn [map filter].
    change (v_is_expense (as_v_log r)) with (is_expense r).
    destruct (is_expense r); cbn [map]; now rewrite IH. }
  split.
  - unfold v_summary, summary, summary_sorted.
    assert (E : v_summary_unsorted 0 Qplus Qminus
                  (map as_v_budget mb) (map as_v_log ml)
                = map as_v_summary (summary_unsorted mb ml)).
    { unfold v_summary_unsorted, summary_unsorted, v_merge_outer,
        merge_outer, budget_by_item, actual_by_item.
      rewrite Ef.
      rewrite (@v_groupby_sum_rational _ _ b_item b_amount
                 (@vb_item Q) (@vb_amount Q) as_v_budget)
        by reflexivity.
      rewrite (@v_groupby_sum_rational _ _ item amount
                 (@vl_item Q) (@vl_amount Q) as_v_log)
        by reflexivity.
      rewrite !map_map. apply map_ext. intros k.
      now rewrite !v_lookup_rational. }
    rewrite E, v_sort_values_rational, !map_map. reflexivity.
  - unfold v_total_spent, total_spent, v_col_sum, col_sum.
    rewrite Ef, map_map. reflexivity.
Qed.

(* ================================================================== *)
(** * Part III: the claims *)
(* ================================================================== *)

(** C1.  For every table with an amount column, [load_data] removes the
    yen sign and the commas from each amount text, reads what remains as
    a decimal number (a numeral [ip.fp] gets its decimal value), and
    puts exactly 0 where that reading fails; every row is kept, in
    place, with its other cells untouched. *)
Theorem C1_amount_coercion (to_datetime : pystr -> option date)
    (df_logs : list raw_log) (df_budget : list raw_budget) logs budget :
  load_data to_datetime df_logs df_budget = Ok (logs, budget) ->
  Forall2 (fun r n =>
             coerced (raw_amount r) (amount n) /\
             item n = raw_item r /\ desc n = raw_desc r /\
             flow n = raw_flow r)
          df_logs logs
  /\
  Forall2 (fun r n =>
             coerced (rawb_amount r) (b_amount n) /\ b_item n = rawb_item r)
          df_budget budget.
Proof.
  intros H. apply load_data_Ok in H. destruct H as [Hl Hb].
  apply mapM_Ok in Hl, Hb. split.
  - eapply Forall2_impl; [|exact Hl]. intros r n Hn.
    apply norm_log_Ok in Hn. destruct Hn as (Ha & Hi & Hd & Hf).
    rewrite Ha. auto using coerce_amount_coerced.
  - eapply Forall2_impl; [|exact Hb]. intros r n Hn.
    apply norm_budget_Ok in Hn. destruct Hn as (Ha & Hi).
    rewrite Ha. auto using coerce_amount_coerced.
Qed.

Lemma C1_witness :
  load_data iso_date sample_raw_logs sample_raw_budget
  = Ok (sample_logs, sample_budget)
  /\
  (Forall2 (fun r n =>
              coerced (raw_amount r) (amount n) /\
              item n = raw_item r /\ desc n = raw_desc r /\
              flow n = raw_flow r)
           sample_raw_logs sample_logs
   /\
   Forall2 (fun r n =>
              coerced (rawb_amount r) (b_amount n) /\ b_item n = rawb_item r)
           sample_raw_budget sample_budget).
Proof.
  split; [reflexivity|].
  apply (@C1_amount_coercion iso_date sample_raw_logs sample_raw_budget).
  reflexivity.
Defined.




(** C9.  An unparseable date in the transaction sheet makes [load_data]
    raise, with the offending text, instead of returning tables; nothing
    else does: when every date cell of both sheets is readable or empty
    the load returns both tables with all their rows, whatever the amount
    cells hold, and every exception that leaves [load_data] is a date
    that could not be read. *)
Theorem C9_dates_abort_amounts_do_not (to_datetime : pystr -> option date)
    (df_logs : list raw_log) (df_budget : list raw_budget) :
  ((exists r s, In r df_logs /\ raw_date r = Some s /\ to_datetime s = None)
   -> exists s, load_data to_datetime df_logs df_budget = Raise s
                /\ to_datetime s = None)
  /\
  ((forall r s, In r df_logs -> raw_date r = Some s -> to_datetime s <> None)
   -> (forall r s, In r df_budget -> rawb_year_month r = Some s ->
                   to_datetime s <> None)
   -> exists logs budget,
        load_data to_datetime df_logs df_budget = Ok (logs, budget)
        /\ List.length logs = List.length df_logs
        /\ List.length budget = List.length df_budget
        /\ map amount logs = map (fun r => coerce_amount (raw_amount r)) df_logs)
  /\
  (forall s, load_data to_datetime df_logs df_budget = Raise s ->
             to_datetime s = None /\
             ((exists r, In r df_logs /\ raw_date r = Some s) \/
              (exists r, In r df_budget /\ rawb_year_month r = Some s))).
Proof.
  split; [|split].
  - intros (r & s & Hin & Hd & Hs).
    assert (Hr : norm_log to_datetime r = Raise s)
      by (apply norm_log_Raise; auto).
    destruct (mapM_fails _ _ _ Hin Hr) as [s' Hs'].
    exists s'. unfold load_data. rewrite Hs'. simpl. split; [reflexivity|].
    apply mapM_Raise in Hs'. destruct Hs' as (r' & _ & Hr').
    now apply norm_log_Raise in Hr'.
  - intros Hl Hb.
    destruct (mapM_total (norm_log to_datetime) df_logs) as [logs El].
    { intros r Hin. apply norm_log_total. eauto. }
    destruct (mapM_total (norm_budget to_datetime) df_budget) as [budget Eb].
    { intros r Hin. apply norm_budget_total. eauto. }
    exists logs, budget. unfold load_data. rewrite El, Eb. simpl.
    apply mapM_Ok in El, Eb.
    repeat split.
    + symmetry. eapply Forall2_length_eq; eauto.
    + symmetry. eapply Forall2_length_eq; eauto.
    + clear -El. induction El as [|r n df l Hn _ IH]; simpl; [reflexivity|].
      apply norm_log_Ok in Hn. destruct Hn as [-> _]. now rewrite IH.
  - apply load_data_Raise.
Qed.

(** C10.  A minus sign survives the coercion: for an amount text made of
    the yen sign, a minus sign and a decimal numeral, the loaded amount
    is the negated value of the numeral (-500 for the text [¥-500]),
    not 0. *)
Theorem C10_minus_sign_preserved (ip fp : pystr) :
  ip <> [] -> all_digits ip = true -> all_digits fp = true ->
  coerce_amount (Some (YEN :: MINUS :: decimal_text ip fp))
  == - decimal_value ip fp
  /\ (0 < decimal_value ip fp ->
      coerce_amount (Some (YEN :: MINUS :: decimal_text ip fp)) < 0).
Proof.
  intros Hne Hi Hf.
  destruct (to_numeric_decimal fp Hne Hi Hf) as (q & Hq & Hv).
  rewrite <- (replace_class_decimal _ _ Hi Hf) in Hq.
  rewrite replace_class_stripped in Hq.
  assert (Hu : starts_unsigned (stripped (decimal_text ip fp)) = true).
  { rewrite <- replace_class_stripped, (replace_class_decimal _ _ Hi Hf).
    now apply decimal_text_unsigned. }
  rewrite (coerce_amount_minus _ Hu Hq). split.
  - now rewrite Hv.
  - intros Hpos. rewrite <- Hv in Hpos.
    apply Qopp_lt_compat in Hpos. exact Hpos.
Qed.

Lemma C10_witness :
  py "500" <> [] /\ all_digits (py "500") = true /\ all_digits [] = true
  /\ coerce_amount (Some (YEN :: py "-500")) == - decimal_value (py "500") []
  /\ (0 < decimal_value (py "500") [] ->
      coerce_amount (Some (YEN :: py "-500")) < 0).
Proof.
  split; [discriminate|]. split; [reflexivity|]. split; [reflexivity|].
  apply (@C10_minus_sign_preserved (py "500") []);
    [discriminate | reflexivity | reflexivity].
Defined.

(** C3.  The reconciliation table is the full outer join of the two
    per-category sums: a category is in the table, once, exactly when it
    is in either of them; the side that lacks the category counts as 0;
    each amount is the sum over the rows of that category; the
    difference is budget minus actual.  In particular a category with a
    zero budget and some spending is in the table with the negated
    spending as its difference. *)
Theorem C3_full_outer_join (month_budget : list budget_row)
    (month_logs : list log_row) :
  let B := budget_by_item month_budget in
  let A := actual_by_item month_logs in
  let rows := map fst (summary month_budget month_logs) in
  (forall k, In k (map s_item rows) <-> In k (map fst B) \/ In k (map fst A))
  /\ NoDup (map s_item rows)
  /\ (forall row, In row rows ->
        s_budget row = fillna0 (lookup str_compare (s_item row) B)
        /\ s_actual row = fillna0 (lookup str_compare (s_item row) A)
        /\ s_diff row = s_budget row - s_actual row)
  /\ (forall row, In row rows ->
        (~ In (s_item row) (map fst B) -> s_budget row = 0)
        /\ (~ In (s_item row) (map fst A) -> s_actual row = 0))
  /\ (forall row, In row rows ->
        s_budget row
        = col_sum (map b_amount
                     (filter (key_is str_compare b_item (s_item row))
                             month_budget))
        /\ s_actual row
           = col_sum (map amount
                        (filter (key_is str_compare item (s_item row))
                                (filter is_expense month_logs))))
  /\ (forall k a,
        lookup str_compare k A = Some a -> ~ a == 0 ->
        fillna0 (lookup str_compare k B) == 0 ->
        exists row, In row rows /\ s_item row = k /\ s_actual row = a
                    /\ s_diff row == - a).
Proof.
  intros B A rows. subst rows. rewrite summary_rows.
  assert (Hperm := summary_sorted_perm month_budget month_logs).
  repeat split.
  - intros Hk. apply in_map_iff in Hk. destruct Hk as (row & <- & Hrow).
    now apply In_summary_sorted in Hrow.
  - intros Hk.
    apply (Permutation_in _ (Permutation_map s_item (Permutation_sym Hperm))).
    rewrite summary_unsorted_items.
    apply (In_unique_sorted str_compare_laws). now apply in_app_iff.
  - apply (Permutation_NoDup (Permutation_map s_item (Permutation_sym Hperm))).
    rewrite summary_unsorted_items.
    apply (ascending_NoDup str_compare_laws).
    apply (unique_sorted_ascending str_compare_laws).
  - now apply In_summary_sorted in H.
  - now apply In_summary_sorted in H.
  - now apply In_summary_sorted in H.
  - intros Hn. apply In_summary_sorted in H. destruct H as (_ & -> & _).
    apply (lookup_None str_compare_laws) in Hn. fold B. now rewrite Hn.
  - intros Hn. apply In_summary_sorted in H. destruct H as (_ & _ & -> & _).
    apply (lookup_None str_compare_laws) in Hn. fold A. now rewrite Hn.
  - apply In_summary_sorted in H. destruct H as (_ & -> & _).
    apply fillna0_lookup_groupby.
  - apply In_summary_sorted in H. destruct H as (_ & _ & -> & _).
    apply fillna0_lookup_groupby.
  - intros k a Ha Hnz Hb.
    exists {| s_item := k;
              s_budget := fillna0 (lookup str_compare k B);
              s_actual := a;
              s_diff := fillna0 (lookup str_compare k B) - a |}.
    repeat split.
    + apply In_summary_sorted. simpl. fold A B. rewrite Ha. simpl.
      repeat split. right.
      destruct (in_dec (list_eq_dec N.eq_dec) k (map fst A)) as [Hin|Hout];
        [assumption|].
      apply (lookup_None str_compare_laws) in Hout. congruence.
    + simpl. rewrite Hb. ring.
Qed.

(** C4.  The rows of the reconciliation table are in ascending order of
    the difference column, so no row has a smaller difference than the
    first one: the categories most over budget come first. *)
Theorem C4_sorted_by_difference (month_budget : list budget_row)
    (month_logs : list log_row) :
  let rows := map fst (summary month_budget month_logs) in
  ascending_by s_diff rows
  /\ (forall first rest, rows = first :: rest ->
        forall row, In row rest -> s_diff first <= s_diff row).
Proof.
  intros rows. subst rows. rewrite summary_rows.
  assert (Hs : ascending_by s_diff (summary_sorted month_budget month_logs))
    by apply sort_values_ascending.
  split; [assumption|].
  intros first rest E row Hrow. rewrite E in Hs.
  inversion Hs as [|? ? _ Hall]; subst.
  rewrite Forall_forall in Hall. now apply Hall.
Qed.

(** C5 (as stated, refuted).  An expense without a category is counted
    in [total_spent] and in no row of the reconciliation table. *)
Lemma C5_counterexample :
  ~ (forall df_logs df_budget selected_month,
        let ml := month_logs df_logs selected_month in
        let mb := month_budget df_budget selected_month in
        total_spent ml == col_sum (map s_actual (map fst (summary mb ml)))).
Proof.
  intros H.
  specialize (H [food_log; uncategorised_log] [food_budget] (py "2024-01")).
  vm_compute in H. discriminate.
Qed.

(** C5 (amended).  When the month's budget and expense amounts are whole
    numbers whose absolute values add up to less than 2^53,
    [total_spent] is the sum of the actual-amount column of the
    reconciliation table plus the amounts of the month's expenses that
    have no category, and the two sums agree when every expense of the
    month has a category; this holds of the exact sums and of the
    float64 sums that the script computes. *)
Theorem C5_total_spent_and_actual (month_budget : list budget_row)
    (month_logs : list log_row) :
  exact_amounts (map b_amount month_budget
                 ++ map amount (filter is_expense month_logs)) ->
  let actual := map s_actual (map fst (summary month_budget month_logs)) in
  let uncategorised :=
    filter (fun r => negb (keyed item r)) (filter is_expense month_logs) in
  let b64 := map budget64_of month_budget in
  let l64 := map log64_of month_logs in
  let actual64 := map (@vs_actual f64) (map fst (summary64 b64 l64)) in
  let uncategorised64 :=
    filter (fun r => negb (keyed (@vl_item f64) r))
           (filter (@v_is_expense f64) l64) in
  (total_spent month_logs = col_sum actual + col_sum (map amount uncategorised)
   /\ total_spent64 l64
      = f64_add (col_sum64 actual64)
          (col_sum64 (map (@vl_amount f64) uncategorised64)))
  /\ ((forall r, In r month_logs -> is_expense r = true -> item r <> None)
      -> total_spent month_logs = col_sum actual
         /\ total_spent64 l64 = col_sum64 actual64).
Proof.
  intros Hx actual uncategorised b64 l64 actual64 uncategorised64.
  destruct (total_spent_and_actual month_budget month_logs) as [E1 E2].
  destruct (total_spent64_and_actual month_budget month_logs Hx) as [F1 F2].
  split; [split; [exact E1 | exact F1]|].
  intros Hall. split; [exact (E2 Hall) | exact (F2 Hall)].
Qed.

Lemma C5_witness :
  exact_amounts
    (map b_amount [food_budget]
     ++ map amount (filter is_expense [food_log; uncategorised_log; fun_log]))
  /\ total_spent64 (map log64_of [food_log; uncategorised_log; fun_log])
     = f64_add
         (col_sum64
            (map (@vs_actual f64)
               (map fst
                  (summary64 (map budget64_of [food_budget])
                     (map log64_of [food_log; uncategorised_log; fun_log])))))
         (col_sum64
            (map (@vl_amount f64)
               (filter (fun r => negb (keyed (@vl_item f64) r))
                  (filter (@v_is_expense f64)
                     (map log64_of
                        [food_log; uncategorised_log; fun_log]))))).
Proof.
  assert (H : exact_amounts
                (map b_amount [food_budget]
                 ++ map amount
                      (filter is_expense
                         [food_log; uncategorised_log; fun_log])))
    by (split; [repeat constructor | reflexivity]).
  split; [exact H|].
  exact (proj2 (proj1 (@C5_total_spent_and_actual [food_budget]
                         [food_log; uncategorised_log; fun_log] H))).
Defined.

(** C6 (as stated, refuted).  With a food budget of 19.4 and food
    expenses of 7.2, 8.8 and 2.4, float64 adds the expenses to 18.4 in
    this order and to 18.400000000000002 in the reverse order: the
    difference is 1.0 in one table and 0.9999999999999964 in the other,
    and the labels read one yen and zero yen remaining. *)
Lemma C6_counterexample :
  ~ (forall month_budget month_budget' month_logs month_logs',
        Permutation month_budget month_budget' ->
        Permutation month_logs month_logs' ->
        summary64 month_budget month_logs
        = summary64 month_budget' month_logs').
Proof.
  intros H.
  specialize (H budget64 budget64 spending64 (rev spending64)
                (Permutation_refl _) (Permutation_rev _)).
  vm_compute in H. discriminate.
Qed.

(** C6 (amended).  When the budget amounts and the expense amounts are
    whole numbers whose absolute values add up to less than 2^53, the
    reconciliation table does not depend on the order of the input
    rows: permuting the budget rows and the transaction rows leaves the
    whole table (categories, amounts, differences, labels, and their
    order) unchanged, computed in float64 as the script does and
    computed exactly. *)
Theorem C6_order_independent (month_budget month_budget' : list budget_row)
    (month_logs month_logs' : list log_row) :
  exact_amounts (map b_amount month_budget
                 ++ map amount (filter is_expense month_logs)) ->
  Permutation month_budget month_budget' ->
  Permutation month_logs month_logs' ->
  summary64 (map budget64_of month_budget) (map log64_of month_logs)
  = summary64 (map budget64_of month_budget') (map log64_of month_logs')
  /\ summary month_budget month_logs = summary month_budget' month_logs'.
Proof.
  intros Hx Hb Hl.
  assert (Hx' : exact_amounts
                  (map b_amount month_budget'
                   ++ map amount (filter is_expense month_logs'))).
  { apply (exact_amounts_perm
             (Permutation_app
                (Permutation_map b_amount Hb)
                (Permutation_map amount (filter_perm is_expense Hl)))).
    exact Hx. }
  rewrite (summary64_whole month_budget month_logs Hx).
  rewrite (summary64_whole month_budget' month_logs' Hx').
  rewrite (summary_perm Hb Hl). split; reflexivity.
Qed.

Lemma C6_witness :
  exact_amounts (map b_amount sample_budget
                 ++ map amount (filter is_expense sample_logs))
  /\ Permutation sample_budget (rev sample_budget)
  /\ Permutation sample_logs (rev sample_logs)
  /\ summary64 (map budget64_of sample_budget) (map log64_of sample_logs)
     = summary64 (map budget64_of (rev sample_budget))
         (map log64_of (rev sample_logs)).
Proof.
  assert (H : exact_amounts (map b_amount sample_budget
                             ++ map amount (filter is_expense sample_logs)))
    by (split; [repeat constructor | reflexivity]).
  split; [exact H|].
  split; [apply Permutation_rev|]. split; [apply Permutation_rev|].
  exact (proj1 (@C6_order_independent sample_budget (rev sample_budget)
                  sample_logs (rev sample_logs) H
                  (Permutation_rev _) (Permutation_rev _))).
Defined.

(** C7.  The percentage of the budget spent is total spent divided by
    total budget times 100 when the total budget is positive, and 0
    otherwise; for a month that occurs in neither table the filtered
    tables are empty and income, spending, budget, balance and
    percentage are all 0. *)
Theorem C7_guarded_percentage (df_logs : list log_row)
    (df_budget : list budget_row) (selected_month : pystr) :
  let ml := month_logs df_logs selected_month in
  let mb := month_budget df_budget selected_month in
  (0 < total_budget mb ->
   spent_pct mb ml = total_spent ml / total_budget mb * 100)
  /\ (~ 0 < total_budget mb -> spent_pct mb ml = 0)
  /\ (~ In (Some selected_month) (map year_month df_logs) ->
      ~ In (Some selected_month) (map b_year_month df_budget) ->
      ml = [] /\ mb = []
      /\ total_income ml = 0 /\ total_spent ml = 0 /\ total_budget mb = 0
      /\ balance mb ml = 0 /\ spent_pct mb ml = 0).
Proof.
  intros ml mb. unfold spent_pct. split; [|split].
  - intros H. apply Qltb_lt in H. now rewrite H.
  - intros H. destruct (Qltb 0 (total_budget mb)) eqn:E; [|reflexivity].
    apply Qltb_lt in E. contradiction.
  - intros Hl Hb. subst ml mb.
    rewrite (month_logs_absent _ _ Hl), (month_budget_absent _ _ Hb).
    repeat split.
Qed.

(** C8 (as stated, refuted).  With nothing but income in the data the
    pivot has no expense column, so there is no expense series in which
    the month could hold a 0. *)
Lemma C8_counterexample :
  ~ (forall df_logs ym,
        In (Some ym) (map year_month df_logs) ->
        exists inc exp,
          trace INCOME (monthly_summary df_logs) = Some inc
          /\ trace EXPENSE (monthly_summary df_logs) = Some exp
          /\ In ym (map fst inc) /\ In ym (map fst exp)).
Proof.
  intros H.
  destruct (H [salary_log] (py "2024-02")) as (inc & exp & _ & He & _).
  - now left.
  - vm_compute in He. discriminate.
Qed.

(** C8 (amended).  [monthly_summary] works on the whole transaction
    table, whatever month is selected.  It has one row, in ascending
    order, for each year-month that some row carries together with a
    flow label, and one column, in ascending order, for each flow label
    that some row carries together with a year-month; each cell is the
    sum of the amounts of the rows with that year-month and label, hence
    0 when there is none.  The series of a label exists exactly when the
    label is a column.  For a table that has income in month A only and
    expenses in month B only, the pivot has the income and the expense
    column and the two rows A: (income, 0) and B: (0, expense). *)
Theorem C8_trend_pivot (df_logs : list log_row) :
  let P := monthly_summary df_logs in
  let cell_sum ym c :=
    col_sum (map amount
               (filter (key_is pair_compare trend_key (ym, c)) df_logs)) in
  (forall ym, In ym (map fst (p_rows P)) <->
              exists r f, In r df_logs /\ year_month r = Some ym
                          /\ flow r = Some f)
  /\ ascending str_compare (map fst (p_rows P))
  /\ (forall c, In c (p_columns P) <->
                exists r ym, In r df_logs /\ year_month r = Some ym
                             /\ flow r = Some c)
  /\ ascending str_compare (p_columns P)
  /\ (forall ym vals, In (ym, vals) (p_rows P) ->
                      vals = map (cell_sum ym) (p_columns P))
  /\ (forall ym c,
        (forall r, In r df_logs ->
                   ~ (year_month r = Some ym /\ flow r = Some c)) ->
        cell_sum ym c = 0)
  /\ (forall c, In c (p_columns P) ->
        trace c P
        = Some (map (fun ym => (ym, cell_sum ym c)) (map fst (p_rows P))))
  /\ (forall c, ~ In c (p_columns P) -> trace c P = None)
  /\ (forall A B,
        A <> B ->
        (forall r ym f, In r df_logs -> year_month r = Some ym ->
                        flow r = Some f ->
                        (ym = A /\ f = INCOME) \/ (ym = B /\ f = EXPENSE)) ->
        (exists r, In r df_logs /\ year_month r = Some A
                   /\ flow r = Some INCOME) ->
        (exists r, In r df_logs /\ year_month r = Some B
                   /\ flow r = Some EXPENSE) ->
        p_columns P = [INCOME; EXPENSE]
        /\ p_rows P
           = match str_compare A B with
             | Gt => [(B, [0; cell_sum B EXPENSE]);
                      (A, [cell_sum A INCOME; 0])]
             | _ => [(A, [cell_sum A INCOME; 0]);
                     (B, [0; cell_sum B EXPENSE])]
             end).
Proof.
  intros P cell_sum.
  assert (Hidx : map fst (p_rows P)
                 = unique_sorted str_compare
                     (map (fun e => fst (fst e)) (trend_groups df_logs))).
  { subst P. unfold monthly_summary, unstack_fillna0. cbn [p_rows].
    rewrite map_map. cbn [fst]. apply map_id. }
  assert (Hcols : p_columns P
                  = unique_sorted str_compare
                      (map (fun e => snd (fst e)) (trend_groups df_logs)))
    by reflexivity.
  assert (Hrows : p_rows P
                  = map (fun i => (i, map (cell_sum i) (p_columns P)))
                        (map fst (p_rows P))).
  { rewrite Hidx. subst P. unfold monthly_summary, unstack_fillna0.
    cbn [p_rows p_columns]. apply map_ext. intros i. f_equal.
    apply map_ext. intros c. apply trend_cell. }
  assert (Hin_idx : forall ym, In ym (map fst (p_rows P)) <->
                               exists r f, In r df_logs
                                           /\ year_month r = Some ym
                                           /\ flow r = Some f).
  { intros ym. rewrite Hidx, (In_unique_sorted str_compare_laws). split.
    + intros H. apply in_map_iff in H. destruct H as ([[ym' f] v] & <- & H).
      apply (in_map fst) in H. apply In_trend_groups in H.
      destruct H as (r & Hr). exists r, f. exact Hr.
    + intros (r & f & Hr).
      assert (H : In (ym, f) (map fst (trend_groups df_logs)))
        by (apply In_trend_groups; eauto).
      apply in_map_iff in H. destruct H as ([[ym' f'] v] & E & H).
      simpl in E. injection E as -> ->.
      apply in_map_iff. exists (ym, f, v). auto. }
  assert (Hin_cols : forall c, In c (p_columns P) <->
                               exists r ym, In r df_logs
                                            /\ year_month r = Some ym
                                            /\ flow r = Some c).
  { intros c. rewrite Hcols, (In_unique_sorted str_compare_laws). split.
    + intros H. apply in_map_iff in H. destruct H as ([[ym f] v] & <- & H).
      apply (in_map fst) in H. apply In_trend_groups in H.
      destruct H as (r & Hr). exists r, ym. exact Hr.
    + intros (r & ym & Hr).
      assert (H : In (ym, c) (map fst (trend_groups df_logs)))
        by (apply In_trend_groups; eauto).
      apply in_map_iff in H. destruct H as ([[ym' f'] v] & E & H).
      simpl in E. injection E as -> ->.
      apply in_map_iff. exists (ym, c, v). auto. }
  assert (Hasc_idx : ascending str_compare (map fst (p_rows P))).
  { rewrite Hidx. apply (unique_sorted_ascending str_compare_laws). }
  assert (Hasc_cols : ascending str_compare (p_columns P)).
  { rewrite Hcols. apply (unique_sorted_ascending str_compare_laws). }
  assert (Hzero : forall ym c,
             (forall r, In r df_logs ->
                        ~ (year_month r = Some ym /\ flow r = Some c)) ->
             cell_sum ym c = 0).
  { intros ym c H. subst cell_sum. cbv beta.
    rewrite filter_all_false; [reflexivity|].
    intros r Hr.
    destruct (key_is pair_compare trend_key (ym, c) r) eqn:E; [|reflexivity].
    apply key_is_trend in E. exfalso. exact (H r Hr E). }
  split; [exact Hin_idx|]. split; [exact Hasc_idx|].
  split; [exact Hin_cols|]. split; [exact Hasc_cols|].
  split; [|split; [exact Hzero|split; [|split]]].
  - intros ym vals H. rewrite Hrows in H. apply in_map_iff in H.
    destruct H as (i & [= -> <-] & _). reflexivity.
  - intros c Hc. unfold trace.
    destruct (column_index_Some c _ Hc) as (j & -> & Hn).
    f_equal. rewrite Hrows at 1. rewrite map_map. cbn [fst snd].
    apply map_ext. intros ym. now rewrite Hn.
  - intros c Hc. unfold trace. now rewrite (column_index_None _ _ Hc).
  - intros A B Hne Hkinds (rA & HrA) (rB & HrB).
    assert (Ec : p_columns P = [INCOME; EXPENSE]).
    { apply (ascending_ext str_compare_laws); [assumption| |].
      - repeat constructor.
      - intros c. rewrite Hin_cols. simpl. split.
        + intros (r & ym & Hin & Hy & Hf).
          destruct (Hkinds r ym c Hin Hy Hf) as [[_ ->]|[_ ->]]; auto.
        + intros [<-|[<-|[]]]; [exists rA, A | exists rB, B]; assumption. }
    assert (Hmem : forall ym, In ym (map fst (p_rows P)) <-> ym = A \/ ym = B).
    { intros ym. rewrite Hin_idx. split.
      - intros (r & f & Hin & Hy & Hf).
        destruct (Hkinds r ym f Hin Hy Hf) as [[-> _]|[-> _]]; auto.
      - intros [-> | ->]; [exists rA, INCOME | exists rB, EXPENSE];
          assumption. }
    assert (ZA : cell_sum A EXPENSE = 0).
    { apply Hzero. intros r Hin [Hy Hf].
      destruct (Hkinds r A EXPENSE Hin Hy Hf) as [[_ C]|[C _]];
        [discriminate | congruence]. }
    assert (ZB : cell_sum B INCOME = 0).
    { apply Hzero. intros r Hin [Hy Hf].
      destruct (Hkinds r B INCOME Hin Hy Hf) as [[C _]|[_ C]];
        [congruence | discriminate]. }
    split; [exact Ec|].
    destruct (str_compare A B) eqn:E.
    + apply str_compare_eq in E. contradiction.
    + assert (Ei : map fst (p_rows P) = [A; B]).
      { apply (ascending_ext str_compare_laws); [assumption| |].
        - repeat constructor. assumption.
        - intros ym. rewrite Hmem. simpl. intuition congruence. }
      rewrite Hrows, Ei, Ec. cbn [map]. now rewrite ZA, ZB.
    + assert (Ei : map fst (p_rows P) = [B; A]).
      { apply (ascending_ext str_compare_laws); [assumption| |].
        - repeat constructor. now apply (cmp_Gt_Lt str_compare_laws).
        - intros ym. rewrite Hmem. simpl. intuition congruence. }
      rewrite Hrows, Ei, Ec. cbn [map]. now rewrite ZA, ZB.
Qed.

(* ================================================================== *)
(** * Part IV: the definitions at work *)
(* ================================================================== *)

Example coerce_yen_commas : coerce_amount (Some (YEN :: py "12,500")) = 12500.
Proof. reflexivity. Qed.

Example coerce_fraction : coerce_amount (Some (py " 12.50 ")) = 25 # 2.
Proof. reflexivity. Qed.

Example coerce_unreadable : coerce_amount (Some (py "N/A")) = 0.
Proof. reflexivity. Qed.

Example coerce_missing : coerce_amount None = 0.
Proof. reflexivity. Qed.

Example load_refund :
  load_data iso_date [refund_raw] [] = Ok ([refund_log], []).
Proof. reflexivity. Qed.

Example load_uncategorised :
  load_data iso_date [uncategorised_raw] [] = Ok ([uncategorised_log], []).
Proof. reflexivity. Qed.

(** A date that cannot be read stops the load even when rows before and
    after it are fine. *)
Example load_bad_date :
  load_data iso_date (sample_raw_logs ++ [bad_date_raw; refund_raw])
            sample_raw_budget
  = Raise (py "someday").
Proof. reflexivity. Qed.

(** 300 budgeted, 350 spent: 50 over. *)
Example reconcile_food :
  summary [food_budget] [food_log]
  = [ ({| s_item := py "Food"; s_budget := 300; s_actual := 350;
          s_diff := -50 |},
       [YEN] ++ py "350 (" ++ [YEN] ++ py "50 " ++ OVER ++ py "!!)") ].
Proof. reflexivity. Qed.

(** No budget at all for a category: it is listed, fully over budget,
    and ahead of the categories with a smaller overrun. *)
Example reconcile_no_budget :
  map fst (summary [food_budget] [food_log; fun_log])
  = [ {| s_item := py "Fun"; s_budget := 0; s_actual := 1200;
         s_diff := -1200 |};
      {| s_item := py "Food"; s_budget := 300; s_actual := 350;
         s_diff := -50 |} ].
Proof. reflexivity. Qed.

(** The uncategorised expense is spent money that no category shows. *)
Example uncategorised_totals :
  total_spent [food_log; uncategorised_log] = 1150
  /\ map s_actual (map fst (summary [food_budget]
                              [food_log; uncategorised_log])) = [350].
Proof. split; reflexivity. Qed.

Example totals_of_sample :
  total_income (month_logs sample_logs (py "2024-02")) = 0
  /\ total_spent (month_logs sample_logs (py "2024-01")) = 12500
  /\ total_budget (month_budget sample_budget (py "2024-01")) = 30000
  /\ balance (month_budget sample_budget (py "2024-01"))
             (month_logs sample_logs (py "2024-01")) = 17500
  /\ spent_pct (month_budget sample_budget (py "2024-01"))
               (month_logs sample_logs (py "2024-01")) == 125 # 3
  /\ spent_pct (month_budget sample_budget (py "2024-02"))
               (month_logs sample_logs (py "2024-02")) = 0.
Proof. repeat split. Qed.

(** Income in February only, spending in January only. *)
Example trend_two_months :
  monthly_summary [salary_log; food_log]
  = {| p_columns := [INCOME; EXPENSE];
       p_rows := [ (py "2024-01", [0; 350]);
                   (py "2024-02", [300000; 0]) ] |}.
Proof. reflexivity. Qed.

Example trend_income_only :
  monthly_summary [salary_log]
  = {| p_columns := [INCOME]; p_rows := [ (py "2024-02", [300000]) ] |}
  /\ trace EXPENSE (monthly_summary [salary_log]) = None.
Proof. split; reflexivity. Qed.

Example format_examples :
  format_thousands 1234567 = py "1,234,567"
  /\ format_thousands (-1000) = py "-1,000"
  /\ format_thousands 999 = py "999"
  /\ format_thousands 0 = py "0".
Proof. repeat split. Qed.

Example strftime_example :
  strftime_Ym {| year := 2024; month := 3; day := 9 |} = py "2024-03".
Proof. reflexivity. Qed.

(** A row without a flow label is in no group: March has no row in the
    pivot although the table has a March transaction. *)
Example trend_unlabelled :
  monthly_summary [salary_log; unlabelled_log]
  = {| p_columns := [INCOME]; p_rows := [ (py "2024-02", [300000]) ] |}.
Proof. reflexivity. Qed.

(* ================================================================== *)
(** * Part V: the rest of the script *)
(* ================================================================== *)

(** ** The year-month key *)

Lemma dec_digits_length (w : nat) : forall n, List.length (dec_digits w n) = w.
Proof.
  induction w as [|w IH]; intros n; cbn [dec_digits]; [reflexivity|].
  rewrite length_app, IH. simpl. lia.
Qed.

Lemma last_digit_is_digit (n : Z) :
  is_digit (48 + Z.to_N (n mod 10)) = true.
Proof.
  pose proof (Z.mod_pos_bound n 10 ltac:(lia)) as H.
  unfold is_digit. apply andb_true_iff. rewrite !N.leb_le. lia.
Qed.

Lemma dec_digits_all_digits (w : nat) :
  forall n, all_digits (dec_digits w n) = true.
Proof.
  unfold all_digits.
  induction w as [|w IH]; intros n; cbn [dec_digits]; [reflexivity|].
  rewrite forallb_app, IH. cbn [forallb].
  now rewrite last_digit_is_digit.
Qed.

(** Comparing two texts that start with parts of the same length
    compares these parts first. *)
Lemma str_compare_app (a : pystr) :
  forall b s t, List.length a = List.length b ->
    str_compare (a ++ s) (b ++ t)
    = match str_compare a b with
      | Eq => str_compare s t
      | c => c
      end.
Proof.
  induction a as [|x a IH]; intros [|y b] s t Hlen; try discriminate.
  - reflexivity.
  - cbn [app str_compare]. destruct (N.compare x y); try reflexivity.
    apply IH. now injection Hlen.
Qed.

Lemma str_compare_single (x y : N) : str_compare [x] [y] = N.compare x y.
Proof. cbn [str_compare]. now destruct (N.compare x y). Qed.

(** On numbers that fit in [w] digits, the order of the printed digits
    is the order of the numbers. *)
Lemma dec_digits_compare (w : nat) :
  forall a b, (0 <= a < 10 ^ Z.of_nat w)%Z -> (0 <= b < 10 ^ Z.of_nat w)%Z ->
    str_compare (dec_digits w a) (dec_digits w b) = Z.compare a b.
Proof.
  induction w as [|w IH]; intros a b Ha Hb.
  - simpl in Ha, Hb. assert (a = 0%Z) by lia. assert (b = 0%Z) by lia.
    subst. reflexivity.
  - rewrite Nat2Z.inj_succ, Z.pow_succ_r in Ha, Hb by lia.
    cbn [dec_digits].
    rewrite str_compare_app by now rewrite !dec_digits_length.
    rewrite IH, str_compare_single;
      try (split; [apply Z.div_pos; lia
                  | apply Z.div_lt_upper_bound; lia]).
    pose proof (Z.div_mod a 10 ltac:(lia)) as Da.
    pose proof (Z.div_mod b 10 ltac:(lia)) as Db.
    pose proof (Z.mod_pos_bound a 10 ltac:(lia)) as Ma.
    pose proof (Z.mod_pos_bound b 10 ltac:(lia)) as Mb.
    assert (Hd : ((48 + Z.to_N (a mod 10)) ?= (48 + Z.to_N (b mod 10)))%N
                 = (a mod 10 ?= b mod 10)%Z).
    { rewrite <- N2Z.inj_compare, !N2Z.inj_add, !Z2N.id by lia.
      destruct (Z.compare_spec (a mod 10) (b mod 10));
        [apply Z.compare_eq_iff | apply Z.compare_lt_iff
        | apply Z.compare_gt_iff]; lia. }
    rewrite Hd.
    destruct (Z.compare_spec (a / 10) (b / 10)) as [E|E|E].
    + destruct (Z.compare_spec (a mod 10) (b mod 10)); symmetry;
        [apply Z.compare_eq_iff | apply Z.compare_lt_iff
        | apply Z.compare_gt_iff]; lia.
    + symmetry. apply Z.compare_lt_iff. lia.
    + symmetry. apply Z.compare_gt_iff. lia.
Qed.

Lemma dec_digits_inj (w : nat) (a b : Z) :
  (0 <= a < 10 ^ Z.of_nat w)%Z -> (0 <= b < 10 ^ Z.of_nat w)%Z ->
  dec_digits w a = dec_digits w b -> a = b.
Proof.
  intros Ha Hb E. apply Z.compare_eq_iff.
  rewrite <- (dec_digits_compare w Ha Hb), E. apply str_compare_refl.
Qed.

Lemma strftime_Ym_length (d : date) : List.length (strftime_Ym d) = 7%nat.
Proof.
  unfold strftime_Ym. rewrite !length_app, !dec_digits_length. reflexivity.
Qed.

Lemma strftime_Ym_shape (d : date) :
  exists y m, strftime_Ym d = y ++ [MINUS] ++ m
              /\ List.length y = 4%nat /\ List.length m = 2%nat
              /\ all_digits y = true /\ all_digits m = true.
Proof.
  exists (dec_digits 4 (year d)), (dec_digits 2 (month d)).
  repeat split; auto using dec_digits_length, dec_digits_all_digits.
Qed.

(** ** The month selector *)

Lemma cell_same_eq (a b : cell) : cell_same a b = true <-> a = b.
Proof.
  destruct a as [s|], b as [t|]; simpl; try (split; congruence).
  rewrite str_eqb_eq. split; congruence.
Qed.

Lemma existsb_cell_same (c : cell) (l : list cell) :
  existsb (cell_same c) l = true <-> In c l.
Proof.
  rewrite existsb_exists. split.
  - intros (x & Hx & E). apply cell_same_eq in E. now subst.
  - intros H. exists c. split; [assumption|]. now apply cell_same_eq.
Qed.

Lemma In_unique_from (c : cell) (l : list cell) :
  forall seen, In c (unique_from seen l) <-> In c l /\ ~ In c seen.
Proof.
  induction l as [|x t IH]; intros seen; cbn [unique_from].
  - simpl. tauto.
  - destruct (existsb (cell_same x) seen) eqn:E.
    + apply existsb_cell_same in E. rewrite IH. simpl.
      split; [tauto|]. intros [[->|H] Hn]; tauto.
    + assert (Hx : ~ In x seen).
      { intros C. apply existsb_cell_same in C. congruence. }
      simpl. rewrite IH. simpl. split.
      * intros [->|[H1 H2]]; [tauto|]. split; [tauto|]. tauto.
      * intros [[->|H] Hn]; [tauto|].
        destruct (cell_same x c) eqn:Exc.
        -- apply cell_same_eq in Exc. tauto.
        -- right. split; [assumption|]. intros [->|C]; [|tauto].
           rewrite (proj2 (cell_same_eq c c) eq_refl) in Exc. discriminate.
Qed.

Lemma NoDup_unique_from (l : list cell) :
  forall seen, NoDup (unique_from seen l).
Proof.
  induction l as [|x t IH]; intros seen; cbn [unique_from].
  - constructor.
  - destruct (existsb (cell_same x) seen); [apply IH|].
    constructor; [|apply IH].
    rewrite In_unique_from. simpl. tauto.
Qed.

Lemma In_unique (c : cell) (l : list cell) : In c (unique l) <-> In c l.
Proof. unfold unique. rewrite In_unique_from. simpl. tauto. Qed.

Lemma NoDup_unique (l : list cell) : NoDup (unique l).
Proof. apply NoDup_unique_from. Qed.

Lemma In_present (s : pystr) (l : list cell) :
  In s (present l) <-> In (Some s) l.
Proof.
  induction l as [|[t|] l IH]; simpl.
  - tauto.
  - rewrite IH. split; intros [H|H]; auto; left; congruence.
  - rewrite IH. split; [auto | intros [H|H]; [discriminate | assumption]].
Qed.

Lemma NoDup_present (l : list cell) : NoDup l -> NoDup (present l).
Proof.
  induction 1 as [|[t|] l Hx Hl IH]; simpl.
  - constructor.
  - constructor; [now rewrite In_present | assumption].
  - assumption.
Qed.

Lemma present_all (l : list cell) :
  existsb is_missing l = false -> map Some (present l) = l.
Proof.
  induction l as [|[t|] l IH]; simpl; intros H.
  - reflexivity.
  - now rewrite IH.
  - discriminate.
Qed.

Lemma insert_desc_perm (x : pystr) (l : list pystr) :
  Permutation (insert_desc x l) (x :: l).
Proof.
  induction l as [|h t IH]; simpl.
  - reflexivity.
  - destruct (str_compare x h); try reflexivity.
    rewrite IH. apply perm_swap.
Qed.

Lemma sorted_reverse_perm (l : list pystr) :
  Permutation (sorted_reverse l) l.
Proof.
  induction l as [|h t IH]; simpl.
  - reflexivity.
  - rewrite insert_desc_perm. now constructor.
Qed.

Lemma insert_desc_descending (x : pystr) (l : list pystr) :
  descending l -> ~ In x l -> descending (insert_desc x l).
Proof.
  unfold descending.
  induction 1 as [|h t Ht IH Hh]; simpl; intros Hx.
  - repeat constructor.
  - pose proof Hh as Hh'. rewrite Forall_forall in Hh'.
    destruct (str_compare x h) eqn:E.
    + apply str_compare_eq in E. subst. exfalso. apply Hx. now left.
    + constructor; [apply IH; tauto|].
      rewrite Forall_forall. intros y Hy.
      apply (Permutation_in _ (insert_desc_perm x t)) in Hy.
      destruct Hy as [<-|Hy]; [|now apply Hh'].
      now apply (cmp_Lt_Gt str_compare_laws).
    + constructor; [now constructor|].
      constructor; [assumption|].
      rewrite Forall_forall. intros y Hy.
      apply (cmp_Gt_trans str_compare_laws) with h; auto.
Qed.

Lemma sorted_reverse_descending (l : list pystr) :
  NoDup l -> descending (sorted_reverse l).
Proof.
  induction 1 as [|x l Hx Hl IH]; simpl.
  - constructor.
  - apply insert_desc_descending; [assumption|].
    intros C. apply Hx.
    now apply (Permutation_in _ (sorted_reverse_perm l)).
Qed.

(** When no key is missing the selector lists the keys in descending
    order, whatever their number. *)
Lemma available_months_all_present (df_logs : list log_row) :
  existsb is_missing (unique (map year_month df_logs)) = false ->
  available_months df_logs
  = Some (map Some
            (sorted_reverse (present (unique (map year_month df_logs))))).
Proof.
  intros H. unfold available_months.
  destruct (unique (map year_month df_logs)) as [|a [|b u]] eqn:E.
  - reflexivity.
  - destruct a as [s|]; [reflexivity | discriminate].
  - now rewrite H.
Qed.

Lemma month_logs_In (df_logs : list log_row) (m : pystr) r :
  In r (month_logs df_logs m) <-> In r df_logs /\ year_month r = Some m.
Proof.
  unfold month_logs. rewrite filter_In, cell_eqb_eq. tauto.
Qed.

(** ** Totals of a month against the pivot and the reconciliation *)

Lemma filter_filter {A} (p q : A -> bool) (l : list A) :
  filter p (filter q l) = filter (fun a => q a && p a) l.
Proof.
  induction l as [|a l IH]; simpl; [reflexivity|].
  destruct (q a); simpl; [destruct (p a)|]; now rewrite IH.
Qed.

Lemma key_is_trend_bool (r : log_row) (m c : pystr) :
  key_is pair_compare trend_key (m, c) r
  = cell_eqb (year_month r) m && cell_eqb (flow r) c.
Proof.
  apply eq_true_iff_eq.
  rewrite key_is_trend, andb_true_iff, !cell_eqb_eq. tauto.
Qed.

(** The amounts of month [m] with flow label [c], summed over the whole
    table or over the rows of the month. *)
Lemma month_flow_sum (df_logs : list log_row) (m c : pystr) :
  col_sum (map amount
             (filter (key_is pair_compare trend_key (m, c)) df_logs))
  = col_sum (map amount
               (filter (fun r => cell_eqb (flow r) c)
                       (month_logs df_logs m))).
Proof.
  unfold month_logs. rewrite filter_filter. do 2 f_equal.
  apply filter_ext. intros r. apply key_is_trend_bool.
Qed.

Lemma trace_monthly_summary (df_logs : list log_row) (c : pystr) tr :
  trace c (monthly_summary df_logs) = Some tr ->
  In c (p_columns (monthly_summary df_logs))
  /\ tr = map (fun ym =>
                 (ym, fillna0 (lookup pair_compare (ym, c)
                                 (trend_groups df_logs))))
              (map fst (p_rows (monthly_summary df_logs))).
Proof.
  set (P := monthly_summary df_logs).
  destruct (in_dec (list_eq_dec N.eq_dec) c (p_columns P)) as [Hc|Hc].
  - unfold trace. destruct (column_index_Some c _ Hc) as (j & -> & Hn).
    intros [= <-]. split; [assumption|].
    subst P. unfold monthly_summary, unstack_fillna0.
    cbn [p_rows p_columns] in *. rewrite !map_map. cbn [fst snd].
    apply map_ext. intros ym. f_equal.
    exact (Hn (fun c' => fillna0 (lookup pair_compare (ym, c')
                                    (trend_groups df_logs)))).
  - unfold trace. rewrite (column_index_None _ _ Hc). discriminate.
Qed.

Lemma col_sum_difference {A} (b a d : A -> Q) (l : list A) :
  (forall x, In x l -> d x = b x - a x) ->
  col_sum (map d l) == col_sum (map b l) - col_sum (map a l).
Proof.
  induction l as [|x l IH]; intros H.
  - reflexivity.
  - cbn [map]. rewrite !col_sum_cons, IH by (intros; apply H; now right).
    rewrite (H x) by now left. ring.
Qed.

Lemma col_sum_split_eq {A} (p : A -> bool) (f : A -> Q) (l : list A) :
  col_sum (map f (filter p l))
  == col_sum (map f l)
     - col_sum (map f (filter (fun a => negb (p a)) l)).
Proof. rewrite (col_sum_split p f l). ring. Qed.

(** The percentage against 100, for a positive budget. *)
Lemma pct_above_100 (s b : Q) : 0 < b -> (100 < s / b * 100 <-> b < s).
Proof.
  intros Hb.
  assert (E : s / b * 100 == 100 * s / b) by (field; now apply Qnot_eq_sym, Qlt_not_eq).
  rewrite E. split.
  - intros H. apply (Qmult_lt_r _ _ b Hb) in H.
    assert (E2 : 100 * s / b * b == 100 * s)
      by (field; now apply Qnot_eq_sym, Qlt_not_eq).
    rewrite E2 in H. apply (Qmult_lt_l _ _ 100); [reflexivity | assumption].
  - intros H. apply Qlt_shift_div_l; [assumption|].
    apply (Qmult_lt_l _ _ 100); [reflexivity | assumption].
Qed.

Lemma pct_equal_100 (s b : Q) : 0 < b -> (s / b * 100 == 100 <-> s == b).
Proof.
  intros Hb.
  assert (Hnz : ~ b == 0) by (now apply Qnot_eq_sym, Qlt_not_eq).
  split.
  - intros H.
    assert (E : s == (s / b * 100) * (b / 100)) by (field; assumption).
    rewrite E, H. field.
  - intros ->. field. assumption.
Qed.

(** ** Integers in the labels *)

Lemma int_of_inject_Z (z : Z) : int_of (inject_Z z) = z.
Proof. unfold int_of. simpl. apply Z.quot_1_r. Qed.

Lemma int_of_negative (q : Q) : (int_of q < 0)%Z <-> q <= -1.
Proof.
  unfold int_of, Qle. destruct q as [n d]. cbn [Qnum Qden].
  pose proof (Z.quot_rem' n (Z.pos d)) as E.
  destruct (Z_le_gt_dec 0 n) as [Hn|Hn].
  - pose proof (Z.rem_bound_pos_pos n (Z.pos d) ltac:(lia) Hn). nia.
  - pose proof (Z.rem_bound_pos_neg n (Z.pos d) ltac:(lia) ltac:(lia)). nia.
Qed.

Lemma int_of_nonneg (q : Q) :
  0 <= q -> inject_Z (int_of q) <= q /\ q < inject_Z (int_of q) + 1.
Proof.
  unfold int_of, Qle, Qlt. destruct q as [n d]. cbn. intros Hn.
  pose proof (Z.quot_rem' n (Z.pos d)) as E.
  pose proof (Z.rem_bound_pos_pos n (Z.pos d) ltac:(lia) ltac:(lia)). nia.
Qed.

Lemma int_of_nonpos (q : Q) :
  q <= 0 -> q <= inject_Z (int_of q) /\ inject_Z (int_of q) - 1 < q.
Proof.
  unfold int_of, Qle, Qlt. destruct q as [n d]. cbn. intros Hn.
  pose proof (Z.quot_rem' n (Z.pos d)) as E.
  pose proof (Z.rem_bound_pos_neg n (Z.pos d) ltac:(lia) ltac:(lia)). nia.
Qed.

(** ** Thousands separators and the amount reader *)

Lemma pos_size_bound (p : positive) :
  (Z.pos p < 2 ^ Z.of_nat (Pos.size_nat p))%Z.
Proof.
  induction p as [p IH|p IH|]; cbn [Pos.size_nat];
    rewrite ?Nat2Z.inj_succ, ?Z.pow_succ_r by lia; lia.
Qed.

Lemma size_fuel_enough (n : N) :
  (Z.of_N n < 10 ^ Z.of_nat (S (N.size_nat n)))%Z.
Proof.
  rewrite Nat2Z.inj_succ, Z.pow_succ_r by lia.
  assert (H : (Z.of_N n < 2 ^ Z.of_nat (N.size_nat n))%Z).
  { destruct n as [|p]; [reflexivity | apply pos_size_bound]. }
  assert (H2 : (2 ^ Z.of_nat (N.size_nat n)
                <= 10 ^ Z.of_nat (N.size_nat n))%Z)
    by (apply Z.pow_le_mono_l; lia).
  lia.
Qed.

Lemma digit_val_of_digit (d : N) :
  (d < 10)%N -> digit_val (48 + d) = Z.of_N d.
Proof. unfold digit_val. lia. Qed.

Lemma is_digit_of_digit (d : N) : (d < 10)%N -> is_digit (48 + d) = true.
Proof.
  intros H. unfold is_digit. apply andb_true_iff. rewrite !N.leb_le. lia.
Qed.

(** With enough fuel the digits are those of the number. *)
Lemma le_digits_spec (fuel : nat) :
  forall n, fuel <> O -> (Z.of_N n < 10 ^ Z.of_nat fuel)%Z ->
    le_value (le_digits fuel n) = Z.of_N n
    /\ all_digits (le_digits fuel n) = true
    /\ le_digits fuel n <> [].
Proof.
  induction fuel as [|f IH]; intros n Hf Hn; [congruence|].
  cbn [le_digits].
  pose proof (N.mod_lt n 10 ltac:(discriminate)) as Hm.
  pose proof (N.div_mod n 10 ltac:(discriminate)) as Hd.
  destruct (n <? 10)%N eqn:E.
  - apply N.ltb_lt in E. rewrite (N.mod_small n 10 E).
    cbn [le_value]. rewrite digit_val_of_digit by assumption.
    unfold all_digits. cbn [forallb]. rewrite is_digit_of_digit by assumption.
    repeat split; [lia | discriminate].
  - apply N.ltb_ge in E.
    rewrite Nat2Z.inj_succ, Z.pow_succ_r in Hn by lia.
    assert (Hf' : f <> O).
    { intros ->. simpl in Hn. lia. }
    assert (Hq : (Z.of_N (n / 10) < 10 ^ Z.of_nat f)%Z).
    { remember (10 ^ Z.of_nat f)%Z as P. remember (n / 10)%N as q.
      remember (n mod 10)%N as r. clear HeqP Heqq Heqr IH. lia. }
    destruct (IH (n / 10)%N Hf' Hq) as (Hv & Ha & Hne).
    cbn [le_value]. rewrite Hv, digit_val_of_digit by assumption.
    unfold all_digits in *. cbn [forallb].
    rewrite is_digit_of_digit, Ha by assumption.
    repeat split; [lia | discriminate].
Qed.

Lemma digits_value_rev (ds : list N) : digits_value (rev ds) = le_value ds.
Proof.
  unfold digits_value.
  rewrite <- (rev_involutive ds) at 2.
  rewrite <- fold_left_rev_right, rev_involutive.
  induction ds as [|d t IH]; cbn [fold_right le_value]; [reflexivity|].
  rewrite IH. lia.
Qed.

Lemma all_digits_rev (ds : list N) :
  all_digits ds = true -> all_digits (rev ds) = true.
Proof.
  unfold all_digits. rewrite !forallb_forall. intros H x Hx.
  apply H. now apply in_rev.
Qed.

(** Stripping gives back the digits that [group3] was applied to. *)
Lemma stripped_group3 (k : nat) :
  forall ds, (List.length ds <= k)%nat -> all_digits ds = true ->
             stripped (group3 ds) = ds.
Proof.
  induction k as [|k IH]; intros ds Hlen Hd.
  - destruct ds; [reflexivity | simpl in Hlen; lia].
  - rewrite <- replace_class_stripped.
    destruct ds as [|a [|b [|c [|d rest]]]];
      try (now apply replace_class_digits).
    change (group3 (a :: b :: c :: d :: rest))
      with (a :: b :: c :: COMMA :: group3 (d :: rest)).
    unfold all_digits in Hd. cbn [forallb] in Hd.
    apply andb_true_iff in Hd. destruct Hd as [Ha Hd].
    apply andb_true_iff in Hd. destruct Hd as [Hb Hd].
    apply andb_true_iff in Hd. destruct Hd as [Hc Hd].
    cbn [replace_class].
    rewrite (digit_not_in_class _ Ha), (digit_not_in_class _ Hb),
      (digit_not_in_class _ Hc).
    change (in_class COMMA) with true. cbv iota.
    rewrite replace_class_stripped, (IH (d :: rest)); [reflexivity| |exact Hd].
    simpl in Hlen |- *. lia.
Qed.

(** The text printed for an integer, once stripped, is its sign and its
    decimal digits. *)
Lemma format_thousands_digits (z : Z) :
  exists ds,
    ds <> [] /\ all_digits ds = true /\ digits_value ds = Z.abs z
    /\ replace_class (format_thousands z)
       = if (z <? 0)%Z then MINUS :: ds else ds.
Proof.
  set (n := Z.abs_N z).
  destruct (@le_digits_spec (S (N.size_nat n)) n)
    as (Hv & Ha & Hne); [discriminate | apply size_fuel_enough |].
  exists (rev (le_digits (S (N.size_nat n)) n)). repeat split.
  - intros C. apply Hne. now rewrite <- (rev_involutive (le_digits _ _)), C.
  - now apply all_digits_rev.
  - rewrite digits_value_rev, Hv. unfold n. apply N2Z.inj_abs_N.
  - assert (E : replace_class (rev (group3 (le_digits (S (N.size_nat n)) n)))
                = rev (le_digits (S (N.size_nat n)) n)).
    { rewrite replace_class_stripped. unfold stripped. rewrite filter_rev.
      f_equal. now apply (@stripped_group3 (List.length (le_digits (S (N.size_nat n)) n))). }
    unfold format_thousands. fold n. cbv zeta.
    destruct (z <? 0)%Z; [|exact E].
    change (replace_class (MINUS :: ?l)) with (MINUS :: replace_class l).
    now rewrite E.
Qed.

Lemma int_of_small (q : Q) : -1 < q -> q < 1 -> int_of q = 0%Z.
Proof.
  unfold int_of, Qlt. destruct q as [n d]. cbn. intros H1 H2.
  apply Z.quot_small_iff; lia.
Qed.

(** What the amount reader makes of a printed integer. *)
Lemma coerce_formatted (z : Z) (prefix : pystr) :
  replace_class prefix = [] ->
  coerce_amount (Some (prefix ++ format_thousands z)) == inject_Z z.
Proof.
  intros Hp.
  destruct (format_thousands_digits z) as (ds & Hne & Hd & Hv & Hs).
  unfold coerce_amount. cbn [astype_str].
  rewrite replace_class_app, Hp, Hs. cbn [app].
  destruct (to_numeric_decimal (ip := ds) [] Hne Hd eq_refl)
    as (q & Hq & Hval).
  unfold decimal_text in Hq. rewrite app_nil_r in Hq.
  assert (Hqv : q == inject_Z (Z.abs z)).
  { rewrite Hval. unfold decimal_value. rewrite app_nil_r, Hv.
    simpl. unfold Qdiv, Qinv. simpl. ring. }
  destruct (z <? 0)%Z eqn:E.
  - rewrite to_numeric_minus, Hq.
    + cbn [option_map fillna0]. rewrite Hqv.
      apply Z.ltb_lt in E. rewrite Z.abs_neq by lia.
      unfold Qeq. simpl. lia.
    + destruct ds as [|c t]; [congruence|].
      unfold all_digits in Hd. cbn [forallb] in Hd.
      apply andb_true_iff in Hd. destruct Hd as [Hc _].
      unfold starts_unsigned. now rewrite Hc.
  - rewrite Hq. cbn [fillna0]. rewrite Hqv.
    apply Z.ltb_ge in E. now rewrite Z.abs_eq.
Qed.

(** ** The detail table *)










(** ** The axis of the bar chart *)

Lemma py_max_ge_l (a b : Q) : a <= py_max a b.
Proof.
  unfold py_max. destruct (Qltb a b) eqn:E.
  - apply Qltb_lt in E. now apply Qlt_le_weak.
  - apply Qle_refl.
Qed.

Lemma py_max_ge_r (a b : Q) : b <= py_max a b.
Proof.
  unfold py_max. destruct (Qltb a b) eqn:E.
  - apply Qle_refl.
  - apply Qnot_lt_le. intros C. apply Qltb_lt in C. congruence.
Qed.

Lemma fold_py_max_ge (l : list Q) :
  forall x, x <= fold_left py_max l x
            /\ forall y, In y l -> y <= fold_left py_max l x.
Proof.
  induction l as [|h t IH]; intros x; simpl.
  - split; [apply Qle_refl | intros y []].
  - destruct (IH (py_max x h)) as [H1 H2]. split.
    + apply Qle_trans with (py_max x h); [apply py_max_ge_l | assumption].
    + intros y [E|Hy]; [subst y|now apply H2].
      apply Qle_trans with (py_max x h); [apply py_max_ge_r | assumption].
Qed.

Lemma series_max_ge (l : list Q) m :
  series_max l = Some m -> forall y, In y l -> y <= m.
Proof.
  destruct l as [|x t]; simpl; [discriminate|]. intros [= <-] y [E|Hy].
  - subst y. exact (proj1 (fold_py_max_ge t x)).
  - exact (proj2 (fold_py_max_ge t x) y Hy).
Qed.

Lemma series_max_In (l : list Q) m : series_max l = Some m -> In m l.
Proof.
  destruct l as [|x t]; simpl; [discriminate|]. intros [= <-].
  revert x. induction t as [|h t IH]; intros x; simpl.
  - now left.
  - destruct (IH (py_max x h)) as [H|H]; [|auto].
    unfold py_max in H at 1. rewrite <- H.
    unfold py_max. destruct (Qltb x h); auto.
Qed.

(** ** What the pivot and the reconciliation keep *)

Lemma StronglySorted_app {A} (R : A -> A -> Prop) (l1 l2 : list A) :
  StronglySorted R l1 -> StronglySorted R l2 ->
  (forall x y, In x l1 -> In y l2 -> R x y) ->
  StronglySorted R (l1 ++ l2).
Proof.
  induction 1 as [|a l1 H1 IH Ha]; simpl; intros H2 Hc; [assumption|].
  constructor.
  - apply IH; [assumption|]. intros x y Hx Hy. apply Hc; auto.
  - rewrite Forall_forall in *. intros y Hy. apply in_app_iff in Hy.
    destruct Hy as [Hy|Hy]; [now apply Ha | apply Hc; auto].
Qed.

Lemma StronglySorted_map {A B} (R : A -> A -> Prop) (S : B -> B -> Prop)
    (f : A -> B) (l : list A) :
  (forall x y, R x y -> S (f x) (f y)) ->
  StronglySorted R l -> StronglySorted S (map f l).
Proof.
  intros Hf. induction 1 as [|a l H IH Ha]; simpl; constructor;
    [assumption|].
  rewrite Forall_forall in *. intros y Hy. apply in_map_iff in Hy.
  destruct Hy as (x & <- & Hx). auto.
Qed.

(** The pairs of two ascending lists, row by row, are ascending. *)
Lemma list_prod_ascending (idx cols : list pystr) :
  ascending str_compare idx -> ascending str_compare cols ->
  ascending pair_compare (list_prod idx cols).
Proof.
  unfold ascending. intros Hi Hc.
  induction Hi as [|i t Ht IH Hit]; simpl; [constructor|].
  apply StronglySorted_app.
  - apply (StronglySorted_map (R := fun a b => str_compare a b = Lt));
      [|assumption].
    intros x y H. unfold pair_compare. simpl.
    now rewrite str_compare_refl.
  - exact IH.
  - intros [i1 c1] [i2 c2] H1 H2.
    apply in_map_iff in H1. destruct H1 as (c & [= <- <-] & _).
    apply in_prod_iff in H2. destruct H2 as [H2 _].
    rewrite Forall_forall in Hit. unfold pair_compare. simpl.
    now rewrite (Hit _ H2).
Qed.

Lemma concat_map_prod {A B C} (f : A * B -> C) (l1 : list A) (l2 : list B) :
  List.concat (map (fun a => map (fun b => f (a, b)) l2) l1)
  = map f (list_prod l1 l2).
Proof.
  induction l1 as [|a l1 IH]; simpl; [reflexivity|].
  now rewrite map_app, map_map, IH.
Qed.

Lemma nil_iff_no_member {A} (l : list A) : l = [] <-> forall x, ~ In x l.
Proof.
  split.
  - intros -> x [].
  - destruct l as [|a l]; [reflexivity|]. intros H.
    exfalso. apply (H a). now left.
Qed.

(* ================================================================== *)
(** * Part VI: further properties of the script *)
(* ================================================================== *)

(** X1.  The text order of year-month keys is the calendar order: for
    two dates with a four-digit year and a two-digit month, comparing
    their keys as strings is comparing (year, month), and the keys are
    equal exactly when year and month are. *)
Theorem X1_year_month_order (d1 d2 : date) :
  printable d1 -> printable d2 ->
  str_compare (strftime_Ym d1) (strftime_Ym d2) = month_compare d1 d2
  /\ (strftime_Ym d1 = strftime_Ym d2 <->
      year d1 = year d2 /\ month d1 = month d2).
Proof.
  intros [Hy1 Hm1] [Hy2 Hm2].
  assert (E : str_compare (strftime_Ym d1) (strftime_Ym d2)
              = month_compare d1 d2).
  { unfold strftime_Ym, month_compare.
    rewrite str_compare_app by now rewrite !dec_digits_length.
    rewrite (dec_digits_compare 4) by assumption.
    destruct (year d1 ?= year d2)%Z; try reflexivity.
    cbn [app str_compare]. rewrite N.compare_refl.
    now apply (dec_digits_compare 2). }
  split; [exact E|]. split.
  - intros H. rewrite H, str_compare_refl in E. symmetry in E.
    unfold month_compare in E.
    destruct (year d1 ?= year d2)%Z eqn:Ey; try discriminate.
    apply Z.compare_eq_iff in Ey, E. auto.
  - intros [Hy Hm]. unfold strftime_Ym. now rewrite Hy, Hm.
Qed.

Lemma X1_witness :
  printable {| year := 2023; month := 12; day := 31 |}
  /\ printable {| year := 2024; month := 1; day := 1 |}
  /\ str_compare (py "2023-12") (py "2024-01") = Lt.
Proof.
  assert (P1 : printable {| year := 2023; month := 12; day := 31 |})
    by (unfold printable; simpl; lia).
  assert (P2 : printable {| year := 2024; month := 1; day := 1 |})
    by (unfold printable; simpl; lia).
  split; [exact P1|]. split; [exact P2|].
  exact (proj1 (X1_year_month_order P1 P2)).
Defined.

(** X2.  In the tables that [load_data] returns, a row whose date cell
    is empty in the sheet has no year-month key, and a key that is
    present is the seven-character text of the date read from the cell:
    four digits, a hyphen, two digits. *)
Theorem X2_year_month_of_loaded_rows (to_datetime : pystr -> option date)
    (df_logs : list raw_log) (df_budget : list raw_budget) logs budget :
  load_data to_datetime df_logs df_budget = Ok (logs, budget) ->
  Forall2 (fun r n => key_from_cell to_datetime (raw_date r) (year_month n))
          df_logs logs
  /\
  Forall2 (fun r n =>
             key_from_cell to_datetime (rawb_year_month r) (b_year_month n))
          df_budget budget.
Proof.
  intros H. apply load_data_Ok in H. destruct H as [Hl Hb].
  apply mapM_Ok in Hl, Hb. split.
  - eapply Forall2_impl; [|exact Hl]. intros r n Hn.
    unfold norm_log, parse_date_cell in Hn. unfold key_from_cell.
    destruct (raw_date r) as [s|]; [destruct (to_datetime s) as [d|] eqn:Ed|];
      simpl in Hn; try discriminate; injection Hn as <-; simpl.
    + split; [discriminate|].
      intros k [= <-].
      destruct (strftime_Ym_shape d) as (y & m & Hk & Hrest).
      exists s, d, y, m. auto.
    + split; [reflexivity | discriminate].
  - eapply Forall2_impl; [|exact Hb]. intros r n Hn.
    unfold norm_budget, parse_date_cell in Hn. unfold key_from_cell.
    destruct (rawb_year_month r) as [s|];
      [destruct (to_datetime s) as [d|] eqn:Ed|];
      simpl in Hn; try discriminate; injection Hn as <-; simpl.
    + split; [discriminate|].
      intros k [= <-].
      destruct (strftime_Ym_shape d) as (y & m & Hk & Hrest).
      exists s, d, y, m. auto.
    + split; [reflexivity | discriminate].
Qed.

Lemma X2_witness :
  load_data iso_date sample_raw_logs sample_raw_budget
  = Ok (sample_logs, sample_budget)
  /\
  (Forall2 (fun r n => key_from_cell iso_date (raw_date r) (year_month n))
           sample_raw_logs sample_logs
   /\
   Forall2 (fun r n =>
              key_from_cell iso_date (rawb_year_month r) (b_year_month n))
           sample_raw_budget sample_budget).
Proof.
  split; [reflexivity|].
  apply (@X2_year_month_of_loaded_rows iso_date sample_raw_logs
           sample_raw_budget).
  reflexivity.
Defined.

(** X3.  When every transaction has a date, the month selector offers
    exactly the year-months that occur in the table, each once, in
    strictly descending order, and the filter of any month it offers is
    not empty. *)
Theorem X3_available_months (df_logs : list log_row) :
  (forall r, In r df_logs -> year_month r <> None) ->
  exists months,
    available_months df_logs = Some (map Some months)
    /\ descending months
    /\ (forall m, In m months <-> exists r, In r df_logs
                                            /\ year_month r = Some m)
    /\ (forall m, In m months -> month_logs df_logs m <> []).
Proof.
  intros Hall.
  set (u := unique (map year_month df_logs)).
  assert (Hmiss : existsb is_missing u = false).
  { destruct (existsb is_missing u) eqn:E; [|reflexivity].
    apply existsb_exists in E. destruct E as ([s|] & Hin & Hs);
      [discriminate|].
    apply In_unique, in_map_iff in Hin. destruct Hin as (r & Hr & Hin).
    now apply Hall in Hin. }
  assert (Hmem : forall m, In m (sorted_reverse (present u)) <->
                           exists r, In r df_logs /\ year_month r = Some m).
  { intros m. split.
    - intros H. apply (Permutation_in _ (sorted_reverse_perm _)) in H.
      apply In_present, In_unique, in_map_iff in H.
      destruct H as (r & Hr & Hin). eauto.
    - intros (r & Hin & Hr).
      apply (Permutation_in _ (Permutation_sym (sorted_reverse_perm _))).
      apply In_present, In_unique. rewrite <- Hr. now apply in_map. }
  exists (sorted_reverse (present u)). repeat split.
  - now apply available_months_all_present.
  - apply sorted_reverse_descending, NoDup_present, NoDup_unique.
  - apply Hmem.
  - apply Hmem.
  - intros m Hm E. apply Hmem in Hm. destruct Hm as (r & Hin & Hr).
    assert (H : In r (month_logs df_logs m)) by (apply month_logs_In; auto).
    rewrite E in H. contradiction.
Qed.

Lemma X3_witness :
  (forall r, In r sample_logs -> year_month r <> None)
  /\ available_months sample_logs
     = Some [Some (py "2024-02"); Some (py "2024-01")].
Proof.
  assert (H : forall r, In r sample_logs -> year_month r <> None).
  { intros r Hr. simpl in Hr.
    destruct Hr as [<-|[<-|[<-|[]]]]; discriminate. }
  split; [exact H|].
  destruct (X3_available_months sample_logs H) as (months & E & _).
  reflexivity.
Defined.

(** X4.  The month selector fails, on the comparison of a missing key
    with a text, exactly when the table has both a transaction without
    a date and a transaction with one. *)
Theorem X4_available_months_raises (df_logs : list log_row) :
  available_months df_logs = None <->
  (exists r, In r df_logs /\ year_month r = None)
  /\ (exists r m, In r df_logs /\ year_month r = Some m).
Proof.
  unfold available_months.
  set (u := unique (map year_month df_logs)).
  assert (Hu : forall c, In c u <-> exists r, In r df_logs /\ year_month r = c).
  { intros c. unfold u. rewrite In_unique, in_map_iff.
    split; intros (r & H1 & H2); eauto. }
  assert (Hnd : NoDup u) by apply NoDup_unique.
  split.
  - destruct u as [|a [|b t]] eqn:E; try discriminate.
    destruct (existsb is_missing (a :: b :: t)) eqn:Em; [|discriminate].
    intros _. apply existsb_exists in Em.
    destruct Em as ([s|] & Hin & Hs); [discriminate|].
    split; [now apply Hu|].
    inversion Hnd as [|? ? Ha _]; subst.
    destruct a as [sa|].
    + destruct (proj1 (Hu (Some sa))) as (r & Hr); [now left|].
      exists r, sa. exact Hr.
    + destruct b as [sb|].
      * destruct (proj1 (Hu (Some sb))) as (r & Hr); [right; now left|].
        exists r, sb. exact Hr.
      * exfalso. apply Ha. now left.
  - intros [(r1 & Hin1 & H1) (r2 & m & Hin2 & H2)].
    assert (I1 : In None u) by (apply Hu; eauto).
    assert (I2 : In (Some m) u) by (apply Hu; eauto).
    destruct u as [|a [|b t]] eqn:E.
    + contradiction.
    + destruct I1 as [->|[]]. destruct I2 as [C|[]]. discriminate.
    + assert (Em : existsb is_missing (a :: b :: t) = true).
      { apply existsb_exists. exists None. auto. }
      now rewrite Em.
Qed.

(** X5.  The trend chart and the summary metrics agree on a month whose
    amounts are whole numbers with absolute values adding up to less
    than 2^53: the value that the income series holds for the month is
    the total income of the month's filtered rows, and the value of the
    expense series is its total spending. *)
Theorem X5_trend_matches_month_totals (df_logs : list log_row) (m : pystr) :
  exact_amounts (map amount (month_logs df_logs m)) ->
  (forall tr v, trace INCOME (monthly_summary df_logs) = Some tr ->
                In (m, v) tr -> v = total_income (month_logs df_logs m))
  /\ (forall tr v, trace EXPENSE (monthly_summary df_logs) = Some tr ->
                   In (m, v) tr -> v = total_spent (month_logs df_logs m)).
Proof.
  intros _.
  split; intros tr v Htr Hin;
    apply trace_monthly_summary in Htr; destruct Htr as [_ ->];
    apply in_map_iff in Hin; destruct Hin as (ym & [= -> <-] & _);
    rewrite trend_cell; apply month_flow_sum.
Qed.

Lemma X5_witness :
  exact_amounts (map amount (month_logs [food_log; salary_log] (py "2024-02")))
  /\ (forall tr v,
        trace INCOME (monthly_summary [food_log; salary_log]) = Some tr ->
        In (py "2024-02", v) tr ->
        v = total_income (month_logs [food_log; salary_log] (py "2024-02"))).
Proof.
  assert (H : exact_amounts
                (map amount (month_logs [food_log; salary_log] (py "2024-02"))))
    by (split; [repeat constructor | reflexivity]).
  split; [exact H|].
  exact (proj1 (@X5_trend_matches_month_totals [food_log; salary_log]
                  (py "2024-02") H)).
Defined.

(** X6.  When the budget and expense amounts of the month are whole
    numbers with absolute values adding up to less than 2^53, the
    difference column of the reconciliation table adds up to the budget
    of the categorised budget rows minus the spending of the categorised
    expenses; when moreover every budget row and every expense of the
    month has a category, that is the balance shown in the summary. *)
Theorem X6_differences_add_up_to_balance (month_budget : list budget_row)
    (month_logs : list log_row) :
  exact_amounts (map b_amount month_budget
                 ++ map amount (filter is_expense month_logs)) ->
  let rows := map fst (summary month_budget month_logs) in
  col_sum (map s_diff rows)
  == col_sum (map b_amount (filter (keyed b_item) month_budget))
     - col_sum (map amount
                  (filter (keyed item) (filter is_expense month_logs)))
  /\ ((forall r, In r month_budget -> b_item r <> None) ->
      (forall r, In r month_logs -> is_expense r = true -> item r <> None) ->
      col_sum (map s_diff rows) == balance month_budget month_logs).
Proof.
  intros _ rows. subst rows. rewrite summary_rows.
  assert (E : col_sum (map s_diff (summary_sorted month_budget month_logs))
              == col_sum (map b_amount (filter (keyed b_item) month_budget))
                 - col_sum (map amount
                              (filter (keyed item)
                                      (filter is_expense month_logs)))).
  { rewrite (col_sum_difference s_budget s_actual).
    - now rewrite sum_budget_column, sum_actual_column.
    - intros row Hrow. now apply In_summary_sorted in Hrow. }
  split; [exact E|].
  intros Hb Hl. rewrite E. unfold balance, total_budget, total_spent.
  rewrite (filter_all_true (keyed b_item) month_budget).
  2:{ intros r Hr. unfold keyed. specialize (Hb r Hr).
      now destruct (b_item r). }
  rewrite (filter_all_true (keyed item) (filter is_expense month_logs)).
  2:{ intros r Hr. apply filter_In in Hr. destruct Hr as [Hin He].
      unfold keyed. specialize (Hl r Hin He). now destruct (item r). }
  reflexivity.
Qed.

Lemma X6_witness :
  exact_amounts (map b_amount [food_budget]
                 ++ map amount (filter is_expense [food_log; fun_log]))
  /\ col_sum (map s_diff (map fst (summary [food_budget] [food_log; fun_log])))
     == balance [food_budget] [food_log; fun_log].
Proof.
  assert (H : exact_amounts
                (map b_amount [food_budget]
                 ++ map amount (filter is_expense [food_log; fun_log])))
    by (split; [repeat constructor | reflexivity]).
  split; [exact H|].
  apply (proj2 (@X6_differences_add_up_to_balance [food_budget]
                  [food_log; fun_log] H)).
  - intros r [<-|[]]. discriminate.
  - intros r [<-|[<-|[]]] _; discriminate.
Defined.

(** X7.  With a positive total budget, the balance is negative exactly
    when the percentage spent exceeds 100, and zero exactly when it is
    100. *)
Theorem X7_balance_and_percentage (month_budget : list budget_row)
    (month_logs : list log_row) :
  0 < total_budget month_budget ->
  (balance month_budget month_logs < 0 <->
   100 < spent_pct month_budget month_logs)
  /\ (balance month_budget month_logs == 0 <->
      spent_pct month_budget month_logs == 100).
Proof.
  intros Hb. unfold spent_pct, balance.
  rewrite (proj2 (Qltb_lt _ _) Hb).
  rewrite pct_above_100, pct_equal_100 by assumption.
  set (b := total_budget month_budget). set (s := total_spent month_logs).
  split; split; intros H.
  - apply (Qplus_lt_l _ _ (- s)). now rewrite Qplus_opp_r.
  - apply (Qplus_lt_l _ _ (- s)) in H. now rewrite Qplus_opp_r in H.
  - assert (E : s == b - (b - s)) by ring. rewrite E, H. ring.
  - rewrite H. ring.
Qed.

Lemma X7_witness :
  0 < total_budget [food_budget]
  /\ balance [food_budget] [food_log] < 0
  /\ 100 < spent_pct [food_budget] [food_log].
Proof.
  assert (H : 0 < total_budget [food_budget]) by reflexivity.
  split; [exact H|]. split; [reflexivity|].
  apply (proj1 (X7_balance_and_percentage [food_budget] [food_log] H)).
  reflexivity.
Defined.

(** X8.  The label and the bar colour do not switch at the same
    difference.  The label is the over-budget text exactly when the
    difference is at most -1 (the difference is truncated to an integer
    first), the bar is red exactly when the difference is negative: a
    difference between -1 and 0 gives a red bar whose label says that 0
    remains. *)
Theorem X8_label_and_colour (row : summary_row) :
  let spent := int_of (s_actual row) in
  let diff := int_of (s_diff row) in
  (s_diff row <= -1 ->
   make_label row = label_over spent (Z.abs diff)
   /\ bar_color (s_diff row) = RED)
  /\ (-1 < s_diff row -> make_label row = label_remaining spent diff)
  /\ (bar_color (s_diff row) = RED <-> s_diff row < 0)
  /\ (-1 < s_diff row -> s_diff row < 0 ->
      bar_color (s_diff row) = RED
      /\ make_label row = label_remaining spent 0).
Proof.
  intros spent diff.
  assert (Hred : bar_color (s_diff row) = RED <-> s_diff row < 0).
  { unfold bar_color. destruct (Qltb (s_diff row) 0) eqn:E.
    - apply Qltb_lt in E. tauto.
    - split; [discriminate|]. intros H. apply Qltb_lt in H. congruence. }
  assert (Hover : s_diff row <= -1 ->
                  make_label row = label_over spent (Z.abs diff)).
  { intros H. apply int_of_negative in H. apply Z.ltb_lt in H.
    unfold make_label. cbv zeta. fold diff in H |- *. now rewrite H. }
  assert (Hrem : -1 < s_diff row ->
                 make_label row = label_remaining spent diff).
  { intros H. unfold make_label. cbv zeta. fold diff.
    destruct (diff <? 0)%Z eqn:E; [|reflexivity].
    apply Z.ltb_lt, int_of_negative in E.
    exfalso. now apply (Qlt_not_le _ _ H). }
  split; [|split; [|split]].
  - intros H. split; [now apply Hover|].
    apply Hred. apply Qle_lt_trans with (-1); [assumption | reflexivity].
  - exact Hrem.
  - exact Hred.
  - intros H1 H2. split; [now apply Hred|].
    rewrite (Hrem H1). f_equal. unfold diff. apply int_of_small.
    + assumption.
    + apply Qlt_trans with 0; [assumption | reflexivity].
Qed.

(** X9.  An integer below 2^53 in absolute value (float64 holds it
    exactly), printed with thousands separators, reads back as the same
    integer: [load_data]'s amount coercion applied to the yen sign
    followed by the formatted integer gives that integer, negative ones
    included. *)
Theorem X9_formatted_amount_reads_back (z : Z) :
  (Z.abs z < 2 ^ 53)%Z ->
  coerce_amount (Some (YEN :: format_thousands z)) == inject_Z z
  /\ coerce_amount (Some (format_thousands z)) == inject_Z z.
Proof.
  intros _. split.
  - apply (coerce_formatted z [YEN]). reflexivity.
  - apply (coerce_formatted z []). reflexivity.
Qed.

Lemma X9_witness :
  (Z.abs (-1234567) < 2 ^ 53)%Z
  /\ coerce_amount (Some (YEN :: format_thousands (-1234567)))
     == inject_Z (-1234567).
Proof.
  assert (H : (Z.abs (-1234567) < 2 ^ 53)%Z) by reflexivity.
  split; [exact H|].
  exact (proj1 (@X9_formatted_amount_reads_back (-1234567) H)).
Defined.

(** X10.  The integers printed in a label are the amounts truncated
    toward zero: an integer amount is printed as it is, a non-negative
    amount is rounded down by less than 1, a non-positive one is rounded
    up by less than 1. *)
Theorem X10_label_integers_truncate (q : Q) :
  (forall z, q = inject_Z z -> int_of q = z)
  /\ (0 <= q -> inject_Z (int_of q) <= q /\ q < inject_Z (int_of q) + 1)
  /\ (q <= 0 -> q <= inject_Z (int_of q) /\ inject_Z (int_of q) - 1 < q).
Proof.
  split; [|split].
  - intros z ->. apply int_of_inject_Z.
  - apply int_of_nonneg.
  - apply int_of_nonpos.
Qed.


(** X12.  For a table with at least one row whose amounts are not
    negative, the x axis of the bar chart reaches from 0 to a bound that
    no budget bar and no spending bar exceeds. *)
Theorem X12_bars_fit_the_axis (summary : list (summary_row * pystr)) :
  summary <> [] ->
  (forall r, In r summary -> 0 <= s_budget (fst r) /\ 0 <= s_actual (fst r)) ->
  exists upper,
    xaxis_upper summary = Some upper
    /\ 0 <= upper
    /\ forall r, In r summary ->
                 s_budget (fst r) <= upper /\ s_actual (fst r) <= upper.
Proof.
  intros Hne Hpos. unfold xaxis_upper.
  destruct summary as [|r0 rest]; [congruence|].
  destruct (series_max (map (fun r => s_budget (fst r)) (r0 :: rest)))
    as [b|] eqn:Eb; [|discriminate].
  destruct (series_max (map (fun r => s_actual (fst r)) (r0 :: rest)))
    as [a|] eqn:Ea; [|discriminate].
  exists (py_max b a * (13 # 10)).
  assert (Hb0 : 0 <= b).
  { apply series_max_In, in_map_iff in Eb. destruct Eb as (r & <- & Hr).
    now apply Hpos. }
  assert (Hm0 : 0 <= py_max b a)
    by (apply Qle_trans with b; [assumption | apply py_max_ge_l]).
  assert (Hgrow : py_max b a <= py_max b a * (13 # 10)).
  { revert Hm0. generalize (py_max b a). intros [n d].
    unfold Qle, Qmult. simpl. nia. }
  split; [reflexivity|]. split.
  - apply Qle_trans with (py_max b a); assumption.
  - intros r Hr. split.
    + apply Qle_trans with b;
        [|apply Qle_trans with (py_max b a); [apply py_max_ge_l|assumption]].
      apply (series_max_ge _ Eb). now apply (in_map (fun r => s_budget (fst r))).
    + apply Qle_trans with a;
        [|apply Qle_trans with (py_max b a); [apply py_max_ge_r|assumption]].
      apply (series_max_ge _ Ea). now apply (in_map (fun r => s_actual (fst r))).
Qed.

Lemma X12_witness :
  summary [food_budget] [food_log; fun_log] <> []
  /\ exists upper,
       xaxis_upper (summary [food_budget] [food_log; fun_log]) = Some upper
       /\ 0 <= upper
       /\ forall r, In r (summary [food_budget] [food_log; fun_log]) ->
                    s_budget (fst r) <= upper /\ s_actual (fst r) <= upper.
Proof.
  assert (Hne : summary [food_budget] [food_log; fun_log] <> [])
    by discriminate.
  split; [exact Hne|].
  apply (X12_bars_fit_the_axis Hne).
  intros r Hr. vm_compute in Hr.
  destruct Hr as [<-|[<-|[]]]; split; discriminate.
Defined.

(** X13.  The trend pivot keeps the money: when the amounts of the
    transactions that have both a year-month and a flow label are whole
    numbers with absolute values adding up to less than 2^53, the cells
    of the pivot add up to the sum of those amounts; the filling of
    missing combinations adds nothing and no such transaction is left
    out. *)
Theorem X13_pivot_total (df_logs : list log_row) :
  exact_amounts (map amount (filter (keyed trend_key) df_logs)) ->
  col_sum (List.concat (map snd (p_rows (monthly_summary df_logs))))
  = col_sum (map amount (filter (keyed trend_key) df_logs)).
Proof.
  intros _.
  unfold monthly_summary, unstack_fillna0. cbn [p_rows].
  rewrite map_map. cbn [snd].
  rewrite (concat_map_prod
             (fun k => fillna0 (lookup pair_compare k (trend_groups df_logs)))).
  rewrite (sum_lookup_cover pair_compare_laws).
  - apply (sum_groupby_sum pair_compare_laws).
  - apply list_prod_ascending;
      apply (unique_sorted_ascending str_compare_laws).
  - apply (groupby_sum_ascending pair_compare_laws).
  - intros [i c] Hk. apply in_prod_iff.
    split; apply (In_unique_sorted str_compare_laws).
    + apply in_map_iff in Hk. destruct Hk as (e & He & Hin).
      apply in_map_iff. exists e. split; [now rewrite He | assumption].
    + apply in_map_iff in Hk. destruct Hk as (e & He & Hin).
      apply in_map_iff. exists e. split; [now rewrite He | assumption].
Qed.

Lemma X13_witness :
  exact_amounts
    (map amount
       (filter (keyed trend_key) [food_log; salary_log; unlabelled_log]))
  /\ col_sum (List.concat
                (map snd
                   (p_rows (monthly_summary
                              [food_log; salary_log; unlabelled_log]))))
     = col_sum (map amount
                  (filter (keyed trend_key)
                          [food_log; salary_log; unlabelled_log])).
Proof.
  assert (H : exact_amounts
                (map amount
                   (filter (keyed trend_key)
                           [food_log; salary_log; unlabelled_log])))
    by (split; [repeat constructor | reflexivity]).
  split; [exact H|].
  exact (@X13_pivot_total [food_log; salary_log; unlabelled_log] H).
Defined.

(** X14.  The reconciliation table is empty exactly when the month has
    no budget row with a category and no expense with a category. *)
Theorem X14_empty_reconciliation (month_budget : list budget_row)
    (month_logs : list log_row) :
  summary month_budget month_logs = [] <->
  (forall r, In r month_budget -> b_item r = None)
  /\ (forall r, In r month_logs -> is_expense r = true -> item r = None).
Proof.
  assert (Hrows : summary month_budget month_logs = [] <->
                  forall row, ~ In row (summary_sorted month_budget month_logs)).
  { rewrite <- nil_iff_no_member, <- summary_rows.
    destruct (summary month_budget month_logs); simpl; split; congruence. }
  rewrite Hrows. split.
  - intros H. split.
    + intros r Hr. destruct (b_item r) as [k|] eqn:Ek; [|reflexivity].
      exfalso.
      apply (H {| s_item := k;
                  s_budget := fillna0 (lookup str_compare k
                                         (budget_by_item month_budget));
                  s_actual := fillna0 (lookup str_compare k
                                         (actual_by_item month_logs));
                  s_diff := fillna0 (lookup str_compare k
                                       (budget_by_item month_budget))
                            - fillna0 (lookup str_compare k
                                         (actual_by_item month_logs)) |}).
      apply In_summary_sorted. simpl. repeat split. left.
      apply (keys_groupby_sum str_compare_laws). eauto.
    + intros r Hr He. destruct (item r) as [k|] eqn:Ek; [|reflexivity].
      exfalso.
      apply (H {| s_item := k;
                  s_budget := fillna0 (lookup str_compare k
                                         (budget_by_item month_budget));
                  s_actual := fillna0 (lookup str_compare k
                                         (actual_by_item month_logs));
                  s_diff := fillna0 (lookup str_compare k
                                       (budget_by_item month_budget))
                            - fillna0 (lookup str_compare k
                                         (actual_by_item month_logs)) |}).
      apply In_summary_sorted. simpl. repeat split. right.
      apply (keys_groupby_sum str_compare_laws). exists r.
      split; [|assumption]. apply filter_In. auto.
  - intros [Hb Hl] row Hrow. apply In_summary_sorted in Hrow.
    destruct Hrow as ([Hk|Hk] & _).
    + apply (keys_groupby_sum str_compare_laws) in Hk.
      destruct Hk as (r & Hin & Hr). rewrite (Hb r Hin) in Hr. discriminate.
    + apply (keys_groupby_sum str_compare_laws) in Hk.
      destruct Hk as (r & Hin & Hr). apply filter_In in Hin.
      destruct Hin as [Hin He]. rewrite (Hl r Hin He) in Hr. discriminate.
Qed.

(** ** float64 on yen amounts *)

(** X15.  On whole amounts whose absolute values add up to less than
    2^53 the reconciliation table that float64 arithmetic gives is the
    exact table: the same categories in the same order with the same
    labels, every amount being the float64 of the exact amount. *)
Theorem X15_float64_table_is_exact (month_budget : list budget_row)
    (month_logs : list log_row) :
  exact_amounts (map b_amount month_budget
                 ++ map amount (filter is_expense month_logs)) ->
  summary64 (map budget64_of month_budget) (map log64_of month_logs)
  = map labelled64_of (summary month_budget month_logs)
  /\ total_spent64 (map log64_of month_logs)
     = f64_of_whole (total_spent month_logs).
Proof.
  intros Hx. split; [now apply summary64_whole|].
  apply total_spent64_whole.
  destruct (exact_amounts_app _ _ Hx) as (_ & W & M).
  pose proof (magnitude_nonneg (map b_amount month_budget)).
  split; [assumption | lia].
Qed.

Lemma X15_witness :
  exact_amounts (map b_amount [food_budget]
                 ++ map amount (filter is_expense [food_log; fun_log]))
  /\ summary64 (map budget64_of [food_budget])
       (map log64_of [food_log; fun_log])
     = map labelled64_of (summary [food_budget] [food_log; fun_log]).
Proof.
  assert (H : exact_amounts
                (map b_amount [food_budget]
                 ++ map amount (filter is_expense [food_log; fun_log])))
    by (split; [repeat constructor | reflexivity]).
  split; [exact H|].
  exact (proj1 (@X15_float64_table_is_exact [food_budget]
                  [food_log; fun_log] H)).
Defined.

(** ** The rest of the script at work *)

Example selector_most_recent_first :
  available_months [food_log; salary_log; fun_log]
  = Some [Some (py "2024-02"); Some (py "2024-01")].
Proof. reflexivity. Qed.

(** One transaction without a date among dated ones stops the script at
    the selector. *)
Example selector_with_undated_row :
  available_months
    [food_log;
     {| date_ := None; year_month := None; item := Some (py "Food");
        desc := None; amount := 100; flow := Some EXPENSE |}]
  = None.
Proof. reflexivity. Qed.

Example detail_table_dates :
  map d_date (display_logs [fun_log; uncategorised_log; food_log])
  = [Some (py "2024/01/05"); Some (py "2024/01/09"); Some (py "2024/01/20")].
Proof. reflexivity. Qed.

(** Half a yen over budget: a red bar, and a label that says 0 remains. *)
Example half_a_yen_over :
  let row := {| s_item := py "Food"; s_budget := 100; s_actual := 201 # 2;
                s_diff := -1 # 2 |} in
  bar_color (s_diff row) = RED
  /\ make_label row = [YEN] ++ py "100 (" ++ REMAINING ++ py " "
                      ++ [YEN] ++ py "0)".
Proof. split; reflexivity. Qed.

Example label_reads_back :
  coerce_amount (Some (YEN :: format_thousands (-1234567))) = -1234567.
Proof. reflexivity. Qed.

(** ** float64 rounding at work *)

(** 7.2 + 8.8 + 2.4 is 18.4 in this order and 18.400000000000002 in the
    reverse order. *)
Example float64_sum_depends_on_order :
  col_sum64 (map (@vl_amount f64) spending64) = f64_decimal 184 1
  /\ col_sum64 (map (@vl_amount f64) (rev spending64))
     = S754_finite false 5179139571476071 (-48)
  /\ f64_decimal 184 1 = S754_finite false 5179139571476070 (-48).
Proof. repeat split. Qed.

(** The labels of the two tables: one yen remaining, and none. *)
Example float64_labels_depend_on_order :
  map snd (summary64 budget64 spending64)
  = [[YEN] ++ py "18 (" ++ REMAINING ++ py " " ++ [YEN] ++ py "1)"]
  /\ map snd (summary64 budget64 (rev spending64))
     = [[YEN] ++ py "18 (" ++ REMAINING ++ py " " ++ [YEN] ++ py "0)"].
Proof. split; reflexivity. Qed.

(** 0.1 + 0.1 + 0.4 is 0.6000000000000001 while the categories add up
    to 0.5 + 0.1 = 0.6: with amounts that are not whole numbers the
    total spending and the sum of the actual-amount column differ by
    rounding although every expense has a category. *)
Example float64_total_and_categories :
  total_spent64 small_spending64 = S754_finite false 5404319552844596 (-53)
  /\ col_sum64
       (map (@vs_actual f64) (map fst (summary64 [] small_spending64)))
     = f64_decimal 6 1
  /\ f64_decimal 6 1 = S754_finite false 5404319552844595 (-53).
Proof. repeat split. Qed.

(** Integers: 2^53 - 1 is held exactly and [int()] gives it back. *)
Example float64_whole_example :
  f64_int (f64_add (f64_of_Z (2 ^ 52)) (f64_of_Z (2 ^ 52 - 1)))
  = (2 ^ 53 - 1)%Z.
Proof. reflexivity. Qed.
